(** * Red-black tree engine of the s21 containers library

    A shallow embedding of [s21_red_black_tree.h] and of the three
    container classes built on it ([s21_set.h], [s21_multiset.h],
    [s21_map.h]).

    Nodes live in a heap addressed by natural numbers; the address [0]
    is [nullptr].  Every member function of the source becomes a
    computation in a small state-and-error monad over the fields of the
    object ([root], [nil_], [node_count]) and the heap.  A computation
    can return, throw (the state at the throw point is kept, so that
    [catch] handlers can be run), fault (a load or store through a
    pointer that does not designate a live node) or run out of fuel
    (every [while] loop of the source is a fuel-indexed fixpoint).

    Keys are machine integers compared with [std::less<int>], as in the
    tests of the repository; stored values are of an arbitrary type [V]
    from which the key is extracted by [kov] ([std::identity] for the
    sets, [Select1st] for the map). *)

From Stdlib Require Import ZArith Lia.
From stdpp Require Import gmap list sorting.

Local Open Scope Z_scope.

(** ** Data model *)

Definition ptr := nat.
Definition nullptr : ptr := 0%nat.

Inductive Node_color := Red | Black.

Definition color_eqb (a b : Node_color) : bool :=
  match a, b with
  | Red, Red | Black, Black => true
  | _, _ => false
  end.

Record Node (V : Type) := mkNode {
  val : V;
  color : Node_color;
  left : ptr;
  right : ptr;
  p : ptr
}.
Arguments mkNode {V}.
Arguments val {V}.
Arguments color {V}.
Arguments left {V}.
Arguments right {V}.
Arguments p {V}.

Definition set_color {V} (c : Node_color) (n : Node V) : Node V :=
  match n with mkNode v _ l r q => mkNode v c l r q end.
Definition set_left {V} (x : ptr) (n : Node V) : Node V :=
  match n with mkNode v c _ r q => mkNode v c x r q end.
Definition set_right {V} (x : ptr) (n : Node V) : Node V :=
  match n with mkNode v c l _ q => mkNode v c l x q end.
Definition set_p {V} (x : ptr) (n : Node V) : Node V :=
  match n with mkNode v c l r _ => mkNode v c l r x end.
Definition set_val {V} (v : V) (n : Node V) : Node V :=
  match n with mkNode _ c l r q => mkNode v c l r q end.

Abbreviation heap V := (gmap ptr (Node V)).

(** [size_type] is a 64-bit unsigned counter. *)
Definition size_max : Z := 2 ^ 64.
Definition wrap (z : Z) : Z := z mod size_max.

(** The fields of an [Rb_tree] object.  [self] is the address of the
    object itself (what [this] denotes); iterators remember it. *)
Record Rb_tree := mkTree {
  self : nat;
  root : ptr;
  nil_ : ptr;
  node_count : Z
}.

Definition with_root (r : ptr) (t : Rb_tree) : Rb_tree :=
  match t with mkTree s _ n c => mkTree s r n c end.
Definition with_nil (n : ptr) (t : Rb_tree) : Rb_tree :=
  match t with mkTree s r _ c => mkTree s r n c end.
Definition with_count (c : Z) (t : Rb_tree) : Rb_tree :=
  match t with mkTree s r n _ => mkTree s r n c end.

(** ** The monad *)

Inductive outcome (V X A : Type) :=
  | Ok (a : A) (x : X) (h : heap V)
  | Throw (x : X) (h : heap V)
  | Fault
  | OutOfFuel.
Arguments Ok {V X A}.
Arguments Throw {V X A}.
Arguments Fault {V X A}.
Arguments OutOfFuel {V X A}.

Definition M (V X A : Type) := X → heap V → outcome V X A.

Definition ret {V X A} (a : A) : M V X A := λ x h, Ok a x h.

Definition bind {V X A B} (m : M V X A) (f : A → M V X B) : M V X B :=
  λ x h,
    match m x h with
    | Ok a x' h' => f a x' h'
    | Throw x' h' => Throw x' h'
    | Fault => Fault
    | OutOfFuel => OutOfFuel
    end.

Notation "'let*' x ':=' m 'in' k" := (bind m (λ x, k))
  (at level 10, x name, m at level 100, k at level 200).
Notation "m ';;' k" := (bind m (λ _, k))
  (at level 100, k at level 200, right associativity).

Definition timeout {V X A} : M V X A := λ _ _, OutOfFuel.
Definition throw {V X A} : M V X A := λ x h, Throw x h.

(** [try { body } catch (...) { handler }]: the handler runs in the state
    reached at the throw point. *)
Definition try_catch {V X A} (body handler : M V X A) : M V X A :=
  λ x h,
    match body x h with
    | Throw x' h' => handler x' h'
    | r => r
    end.

(** Object fields. *)
Definition this {V X B} (f : X → B) : M V X B := λ x h, Ok (f x) x h.
Definition update {V X} (f : X → X) : M V X unit := λ x h, Ok tt (f x) h.

(** Loads and stores through a node pointer. *)
Definition rd {V X} (a : ptr) : M V X (Node V) :=
  λ x h, match h !! a with Some n => Ok n x h | None => Fault end.
Definition wr {V X} (a : ptr) (f : Node V → Node V) : M V X unit :=
  λ x h, match h !! a with Some n => Ok tt x (<[a := f n]> h) | None => Fault end.
Definition fld {V X B} (f : Node V → B) (a : ptr) : M V X B :=
  let* n := rd a in ret (f n).

(** A method of an object held in the first (second) component of the
    state: how the lambda of [merge] reaches [this] and [other]. *)
Definition on_fst {V X Y A} (m : M V X A) : M V (X * Y) A :=
  λ xy h,
    match m (fst xy) h with
    | Ok a x' h' => Ok a (x', snd xy) h'
    | Throw x' h' => Throw (x', snd xy) h'
    | Fault => Fault
    | OutOfFuel => OutOfFuel
    end.
Definition on_snd {V X Y A} (m : M V Y A) : M V (X * Y) A :=
  λ xy h,
    match m (snd xy) h with
    | Ok a y' h' => Ok a (fst xy, y') h'
    | Throw y' h' => Throw (fst xy, y') h'
    | Fault => Fault
    | OutOfFuel => OutOfFuel
    end.

(** Short-circuit conjunction of two tests. *)
Definition andM {V X} (a b : M V X bool) : M V X bool :=
  let* x := a in if x then b else ret false.

Definition ptr_eqb (a b : ptr) : bool := Nat.eqb a b.
Definition ptr_neb (a b : ptr) : bool := negb (Nat.eqb a b).

(** ** The tree engine: [class Rb_tree] *)

Section Engine.
Context {V : Type}.
(** [KeyOfValue], the value-initialised payload [value_type()] stored in
    the sentinel, and the allocator: [alloc h] is the address handed out
    in heap [h], or [None] when the allocation (or the construction of
    the payload) fails. *)
Variable kov : V → Z.
Variable dflt : V.
Variable alloc : heap V → option ptr.

(** [comp] is [std::less<int>]. *)
Definition comp (a b : Z) : bool := a <? b.

(** [create_node]: a node constructed by [Node(value)] is Red and its
    three links are [nullptr]. *)
Definition create_node {X} (value : V) : M V X ptr :=
  λ x h,
    match alloc h with
    | Some a => Ok a x (<[a := mkNode value Red nullptr nullptr nullptr]> h)
    | None => Throw x h
    end.

(** [destroy_node]: destroying a pointer that is not live is a fault. *)
Definition destroy_node {X} (node : ptr) : M V X unit :=
  λ x h, match h !! node with Some _ => Ok tt x (delete node h) | None => Fault end.

(** [Rb_tree()] *)
Definition Rb_tree_default (addr : nat) : M V Rb_tree unit :=
  update (λ _, mkTree addr nullptr nullptr 0) ;;
  let* n := create_node dflt in
  update (with_nil n) ;;
  wr n (set_color Black) ;;
  wr n (set_p n) ;;
  wr n (set_right n) ;;
  wr n (set_left n) ;;
  update (with_root n).

Definition empty_ : M V Rb_tree bool :=
  let* r := this root in
  let* nl := this nil_ in
  ret (ptr_eqb r nl).

Definition size_ : M V Rb_tree Z := this node_count.

Fixpoint minimum (fuel : nat) (sub_tree : ptr) : M V Rb_tree ptr :=
  match fuel with
  | O => timeout
  | S fuel =>
      let* l := fld left sub_tree in
      let* nl := this nil_ in
      if ptr_neb l nl then minimum fuel l else ret sub_tree
  end.

Fixpoint maximum (fuel : nat) (sub_tree : ptr) : M V Rb_tree ptr :=
  match fuel with
  | O => timeout
  | S fuel =>
      let* r := fld right sub_tree in
      let* nl := this nil_ in
      if ptr_neb r nl then maximum fuel r else ret sub_tree
  end.

Fixpoint search_loop (fuel : nat) (key : Z) (res : ptr) (node_key : Z)
  : M V Rb_tree ptr :=
  match fuel with
  | O => timeout
  | S fuel =>
      let* nl := this nil_ in
      if ptr_neb res nl && negb (key =? node_key) then
        let* res' := if comp key node_key then fld left res else fld right res in
        let* v := fld val res' in
        search_loop fuel key res' (kov v)
      else ret res
  end.

Definition search (fuel : nat) (key : Z) : M V Rb_tree ptr :=
  let* res := this root in
  let* v := fld val res in
  search_loop fuel key res (kov v).

Fixpoint lower_bound_loop (fuel : nat) (key : Z) (res prev : ptr) (node_key : Z)
  : M V Rb_tree (ptr * ptr) :=
  match fuel with
  | O => timeout
  | S fuel =>
      let* nl := this nil_ in
      if ptr_neb res nl && negb (key =? node_key) then
        let* res' := if comp key node_key then fld left res else fld right res in
        let* v := fld val res' in
        lower_bound_loop fuel key res' res (kov v)
      else ret (res, prev)
  end.

Definition lower_bound (fuel : nat) (key : Z) : M V Rb_tree ptr :=
  let* r := this root in
  let* v := fld val r in
  let* rp := lower_bound_loop fuel key r r (kov v) in
  let res := fst rp in
  let prev := snd rp in
  let* nl := this nil_ in
  let* pv := fld val prev in
  if ptr_eqb res nl && comp key (kov pv) then ret prev else ret res.

(** *** Rotations *)

Definition right_rotate (parent_node : ptr) : M V Rb_tree unit :=
  let* nl := this nil_ in
  let* child := fld left parent_node in
  let* cr := fld right child in
  wr parent_node (set_left cr) ;;
  (if ptr_neb cr nl then wr cr (set_p parent_node) else ret tt) ;;
  let* pp := fld p parent_node in
  wr child (set_p pp) ;;
  (if ptr_eqb pp nl then update (with_root child)
   else
     let* ppr := fld right pp in
     if ptr_eqb parent_node ppr then wr pp (set_right child)
     else wr pp (set_left child)) ;;
  wr child (set_right parent_node) ;;
  wr parent_node (set_p child).

Definition left_rotate (parent_node : ptr) : M V Rb_tree unit :=
  let* nl := this nil_ in
  let* child := fld right parent_node in
  let* cl := fld left child in
  wr parent_node (set_right cl) ;;
  (if ptr_neb cl nl then wr cl (set_p parent_node) else ret tt) ;;
  let* pp := fld p parent_node in
  wr child (set_p pp) ;;
  (if ptr_eqb pp nl then update (with_root child)
   else
     let* ppl := fld left pp in
     if ptr_eqb parent_node ppl then wr pp (set_left child)
     else wr pp (set_right child)) ;;
  wr child (set_left parent_node) ;;
  wr parent_node (set_p child).

(** *** Insertion *)

Definition link_new_node (father new_node : ptr) : M V Rb_tree unit :=
  let* nl := this nil_ in
  wr new_node (set_right nl) ;;
  wr new_node (set_left nl) ;;
  if ptr_eqb father nl then
    update (with_root new_node) ;;
    let* r := this root in
    wr r (set_p nl) ;;
    let* r := this root in
    wr r (set_color Black)
  else
    wr new_node (set_p father) ;;
    let* nv := fld val new_node in
    let* fv := fld val father in
    if comp (kov nv) (kov fv) then wr father (set_left new_node)
    else wr father (set_right new_node).

(** The descent of [find_or_create]; the result is [(father, current,
    created)] at the exit of the [while] loop. *)
Fixpoint find_or_create_loop (fuel : nat) (key : Z) (unique_keys : bool)
    (father current : ptr) : M V Rb_tree (ptr * ptr * bool) :=
  match fuel with
  | O => timeout
  | S fuel =>
      let* nl := this nil_ in
      if ptr_neb current nl then
        let father := current in
        let* cv := fld val current in
        if unique_keys && negb (comp key (kov cv)) && negb (comp (kov cv) key) then
          ret (father, current, false)
        else
          let* next := if comp key (kov cv) then fld left current
                       else fld right current in
          find_or_create_loop fuel key unique_keys father next
      else ret (father, current, true)
  end.

Definition find_or_create (fuel : nat) (key : Z) (value : V) (unique_keys : bool)
  : M V Rb_tree (ptr * bool) :=
  let* nl := this nil_ in
  let* r := this root in
  let* fcc := find_or_create_loop fuel key unique_keys nl r in
  let father := fst (fst fcc) in
  let current := snd (fst fcc) in
  let created := snd fcc in
  if created then
    let* new_node := create_node value in
    link_new_node father new_node ;;
    ret (new_node, true)
  else ret (current, false).

Definition rebalance_left (node : ptr) : M V Rb_tree ptr :=
  let* np := fld p node in
  let* npp := fld p np in
  let* temp := fld right npp in
  let* tc := fld color temp in
  if color_eqb tc Red then
    let* np := fld p node in
    wr np (set_color Black) ;;
    wr temp (set_color Black) ;;
    let* np := fld p node in
    let* npp := fld p np in
    wr npp (set_color Red) ;;
    ret npp
  else
    let* np := fld p node in
    let* npr := fld right np in
    let* node :=
      (if ptr_eqb node npr then left_rotate np ;; ret np else ret node) in
    let* np := fld p node in
    wr np (set_color Black) ;;
    let* npp := fld p np in
    wr npp (set_color Red) ;;
    right_rotate npp ;;
    ret node.

Definition rebalance_right (node : ptr) : M V Rb_tree ptr :=
  let* np := fld p node in
  let* npp := fld p np in
  let* temp := fld left npp in
  let* tc := fld color temp in
  if color_eqb tc Red then
    let* np := fld p node in
    wr np (set_color Black) ;;
    wr temp (set_color Black) ;;
    let* np := fld p node in
    let* npp := fld p np in
    wr npp (set_color Red) ;;
    ret npp
  else
    let* np := fld p node in
    let* npl := fld left np in
    let* node :=
      (if ptr_eqb node npl then right_rotate np ;; ret np else ret node) in
    let* np := fld p node in
    wr np (set_color Black) ;;
    let* npp := fld p np in
    wr npp (set_color Red) ;;
    left_rotate npp ;;
    ret node.

Fixpoint insert_fixup (fuel : nat) (node : ptr) : M V Rb_tree unit :=
  match fuel with
  | O => timeout
  | S fuel =>
      let* np := fld p node in
      let* pc := fld color np in
      if color_eqb pc Red then
        let* npp := fld p np in
        let* nppl := fld left npp in
        let* node := if ptr_eqb np nppl then rebalance_left node
                     else rebalance_right node in
        insert_fixup fuel node
      else
        let* r := this root in
        wr r (set_color Black)
  end.

(** The guard shared by [insert] and [insert_node]:
    [node->p != nil_ && node->p->color == Red && node->p->p != nil_]. *)
Definition needs_fixup (node : ptr) : M V Rb_tree bool :=
  let* nl := this nil_ in
  andM (let* np := fld p node in ret (ptr_neb np nl))
    (andM (let* np := fld p node in
           let* pc := fld color np in ret (color_eqb pc Red))
          (let* np := fld p node in
           let* npp := fld p np in ret (ptr_neb npp nl))).

Definition insert (fuel : nat) (key : Z) (value : V) (unique_keys : bool)
  : M V Rb_tree (ptr * bool) :=
  let* nc := find_or_create fuel key value unique_keys in
  let node := fst nc in
  let created := snd nc in
  (if created then
     let* b := needs_fixup node in
     (if b then insert_fixup fuel node else ret tt) ;;
     update (λ t, with_count (wrap (node_count t + 1)) t)
   else ret tt) ;;
  ret (node, created).

(** The descent of [insert_node]; the key is read from the node at each
    comparison, as in the source. *)
Fixpoint insert_node_loop (fuel : nat) (node : ptr) (unique_keys : bool)
    (father current : ptr) : M V Rb_tree (ptr * bool) :=
  match fuel with
  | O => timeout
  | S fuel =>
      let* nl := this nil_ in
      if ptr_neb current nl then
        let father := current in
        let* nv := fld val node in
        let* cv := fld val current in
        if unique_keys && negb (comp (kov nv) (kov cv))
           && negb (comp (kov cv) (kov nv)) then
          ret (father, false)
        else
          let* next := if comp (kov nv) (kov cv) then fld left current
                       else fld right current in
          insert_node_loop fuel node unique_keys father next
      else ret (father, true)
  end.

Definition insert_node (fuel : nat) (node : ptr) (unique_keys : bool)
  : M V Rb_tree bool :=
  let* nl := this nil_ in
  let* r := this root in
  let* fc := insert_node_loop fuel node unique_keys nl r in
  let father := fst fc in
  let created := snd fc in
  (if created then
     link_new_node father node ;;
     let* b := needs_fixup node in
     if b then insert_fixup fuel node else ret tt
   else ret tt) ;;
  ret created.

(** *** Deletion *)

Definition transplant (u v : ptr) : M V Rb_tree unit :=
  let* nl := this nil_ in
  let* up := fld p u in
  (if ptr_eqb up nl then update (with_root v)
   else
     let* upl := fld left up in
     if ptr_eqb u upl then wr up (set_left v) else wr up (set_right v)) ;;
  let* up := fld p u in
  wr v (set_p up).

Definition delete_fixup_left (x : ptr) : M V Rb_tree ptr :=
  let* xp := fld p x in
  let* w := fld right xp in
  let* wc := fld color w in
  let* w :=
    (if color_eqb wc Red then
       wr w (set_color Black) ;;
       let* xp := fld p x in
       wr xp (set_color Red) ;;
       left_rotate xp ;;
       let* xp := fld p x in
       fld right xp
     else ret w) in
  let* both :=
    andM (let* wl := fld left w in
          let* wlc := fld color wl in ret (color_eqb wlc Black))
         (let* wr_ := fld right w in
          let* wrc := fld color wr_ in ret (color_eqb wrc Black)) in
  if both then
    wr w (set_color Red) ;;
    fld p x
  else
    let* wr_ := fld right w in
    let* wrc := fld color wr_ in
    let* w :=
      (if color_eqb wrc Black then
         let* wl := fld left w in
         wr wl (set_color Black) ;;
         wr w (set_color Red) ;;
         right_rotate w ;;
         let* xp := fld p x in
         fld right xp
       else ret w) in
    let* xp := fld p x in
    let* xpc := fld color xp in
    wr w (set_color xpc) ;;
    let* wr_ := fld right w in
    wr wr_ (set_color Black) ;;
    let* xp := fld p x in
    wr xp (set_color Black) ;;
    left_rotate xp ;;
    this root.

Definition delete_fixup_right (x : ptr) : M V Rb_tree ptr :=
  let* xp := fld p x in
  let* w := fld left xp in
  let* wc := fld color w in
  let* w :=
    (if color_eqb wc Red then
       wr w (set_color Black) ;;
       let* xp := fld p x in
       wr xp (set_color Red) ;;
       right_rotate xp ;;
       let* xp := fld p x in
       fld left xp
     else ret w) in
  let* both :=
    andM (let* wr_ := fld right w in
          let* wrc := fld color wr_ in ret (color_eqb wrc Black))
         (let* wl := fld left w in
          let* wlc := fld color wl in ret (color_eqb wlc Black)) in
  if both then
    wr w (set_color Red) ;;
    fld p x
  else
    let* wl := fld left w in
    let* wlc := fld color wl in
    let* w :=
      (if color_eqb wlc Black then
         let* wr_ := fld right w in
         wr wr_ (set_color Black) ;;
         wr w (set_color Red) ;;
         left_rotate w ;;
         let* xp := fld p x in
         fld left xp
       else ret w) in
    let* xp := fld p x in
    let* xpc := fld color xp in
    wr w (set_color xpc) ;;
    let* wl := fld left w in
    wr wl (set_color Black) ;;
    let* xp := fld p x in
    wr xp (set_color Black) ;;
    right_rotate xp ;;
    this root.

Fixpoint delete_fixup (fuel : nat) (x : ptr) : M V Rb_tree unit :=
  match fuel with
  | O => timeout
  | S fuel =>
      let* go :=
        andM (let* r := this root in ret (ptr_neb x r))
             (let* xc := fld color x in ret (color_eqb xc Black)) in
      if go then
        let* xp := fld p x in
        let* xpl := fld left xp in
        let* x := if ptr_eqb x xpl then delete_fixup_left x
                  else delete_fixup_right x in
        delete_fixup fuel x
      else wr x (set_color Black)
  end.

Definition delete_node (fuel : nat) (z : ptr) : M V Rb_tree unit :=
  let* nl := this nil_ in
  if ptr_eqb z nl then ret tt
  else
    let* zc := fld color z in
    let* zl := fld left z in
    let* zr := fld right z in
    let* xc :=
      (if ptr_eqb zl nl then
         transplant z zr ;; ret (zr, zc)
       else if ptr_eqb zr nl then
         transplant z zl ;; ret (zl, zc)
       else
         let* y := minimum fuel zr in
         let* yc := fld color y in
         let* x := fld right y in
         let* zr := fld right z in
         (if ptr_neb y zr then
            let* yr := fld right y in
            transplant y yr ;;
            let* zr := fld right z in
            wr y (set_right zr) ;;
            let* yr := fld right y in
            wr yr (set_p y)
          else wr x (set_p y)) ;;
         transplant z y ;;
         let* zl := fld left z in
         wr y (set_left zl) ;;
         let* yl := fld left y in
         wr yl (set_p y) ;;
         let* zc := fld color z in
         wr y (set_color zc) ;;
         ret (x, yc)) in
    let x := fst xc in
    let y_original_color := snd xc in
    destroy_node z ;;
    update (λ t, with_count (wrap (node_count t - 1)) t) ;;
    if color_eqb y_original_color Black then delete_fixup fuel x else ret tt.

(** *** Bulk traversal, destruction, merge *)

Fixpoint post_order_loop {X} (fuel : nat) (nil : ptr) (action : ptr → M V X unit)
    (current : ptr) : M V X unit :=
  match fuel with
  | O => timeout
  | S fuel =>
      if ptr_neb current nil then
        let* l := fld left current in
        if ptr_neb l nil then post_order_loop fuel nil action l
        else
          let* r := fld right current in
          if ptr_neb r nil then post_order_loop fuel nil action r
          else
            let* parent := fld p current in
            (if ptr_neb parent nil then
               let* pl := fld left parent in
               if ptr_eqb current pl then wr parent (set_left nil)
               else wr parent (set_right nil)
             else ret tt) ;;
            let to_process := current in
            wr to_process (set_color Red) ;;
            action to_process ;;
            post_order_loop fuel nil action parent
      else ret tt
  end.

Definition post_order_process {X} (fuel : nat) (subtree_root nil : ptr)
    (action : ptr → M V X unit) : M V X unit :=
  if ptr_eqb subtree_root nil then ret tt
  else post_order_loop fuel nil action subtree_root.

Definition destroy_subtree (fuel : nat) (subtree_root nil : ptr)
  : M V Rb_tree unit :=
  post_order_process fuel subtree_root nil
    (λ node,
       let* nl := this nil_ in
       if ptr_neb node nl then destroy_node node else ret tt).

Definition clear (fuel : nat) : M V Rb_tree unit :=
  let* r := this root in
  let* nl := this nil_ in
  destroy_subtree fuel r nl ;;
  let* nl := this nil_ in
  update (with_root nl) ;;
  update (with_count 0).

(** [this->merge(other, unique_keys)] for two distinct objects: the
    state is the pair [(this, other)]. *)
Definition merge (fuel : nat) (unique_keys : bool)
  : M V (Rb_tree * Rb_tree) unit :=
  let* old_root := on_snd (this root) in
  let* onil := on_snd (this nil_) in
  wr old_root (set_p onil) ;;
  wr onil (set_p onil) ;;
  on_snd (update (with_root onil)) ;;
  on_snd (update (with_count 0)) ;;
  if ptr_eqb old_root onil then ret tt
  else
    post_order_process fuel old_root onil
      (λ node,
         let* b := on_fst (insert_node fuel node unique_keys) in
         if b then
           on_fst (update (λ t, with_count (wrap (node_count t + 1)) t))
         else
           on_snd (insert_node fuel node unique_keys) ;;
           on_snd (update (λ t, with_count (wrap (node_count t + 1)) t))).

Definition swap : M V (Rb_tree * Rb_tree) unit :=
  let* a := this fst in
  let* b := this snd in
  update (λ _, (mkTree (self a) (root b) (nil_ b) (node_count b),
                mkTree (self b) (root a) (nil_ a) (node_count a))).

(** *** Structural copy *)

(** One round of the [while (!stack.empty())] loop of [copy_tree]; the
    explicit stack of pairs (original node, copy) is a list whose head
    is the top. *)
Fixpoint copy_tree_loop (fuel : nat) (other_nil : ptr)
    (stack : list (ptr * ptr)) : M V Rb_tree unit :=
  match fuel with
  | O => timeout
  | S fuel =>
      match stack with
      | [] => ret tt
      | (orig_node, copy_node) :: stack =>
          let* nl := this nil_ in
          let* oright := fld right orig_node in
          let* stack :=
            (if ptr_neb oright other_nil then
               let* ov := fld val oright in
               let* c := create_node ov in
               wr copy_node (set_right c) ;;
               let* oc := fld color oright in
               let* cr := fld right copy_node in
               wr cr (set_color oc) ;;
               wr cr (set_p copy_node) ;;
               wr cr (set_left nl) ;;
               wr cr (set_right nl) ;;
               ret ((oright, cr) :: stack)
             else
               wr copy_node (set_right nl) ;; ret stack) in
          let* oleft := fld left orig_node in
          let* stack :=
            (if ptr_neb oleft other_nil then
               let* ov := fld val oleft in
               let* c := create_node ov in
               wr copy_node (set_left c) ;;
               let* oc := fld color oleft in
               let* cl := fld left copy_node in
               wr cl (set_color oc) ;;
               wr cl (set_p copy_node) ;;
               wr cl (set_left nl) ;;
               wr cl (set_right nl) ;;
               ret ((oleft, cl) :: stack)
             else
               wr copy_node (set_left nl) ;; ret stack) in
          copy_tree_loop fuel other_nil stack
      end
  end.

Definition copy_tree (fuel : nat) (other_root other_nil : ptr)
  : M V Rb_tree unit :=
  (if ptr_eqb other_root other_nil then
     let* nl := this nil_ in update (with_root nl)
   else ret tt) ;;
  let* ov := fld val other_root in
  let* new_root := create_node ov in
  let* oc := fld color other_root in
  wr new_root (set_color oc) ;;
  let* nl := this nil_ in
  wr new_root (set_p nl) ;;
  update (with_root new_root) ;;
  copy_tree_loop fuel other_nil [(other_root, new_root)].

(** [Rb_tree(const Rb_tree &other)].  The object under construction
    starts with [node_count] zero and with whatever the storage holds
    in [root] and [nil_]: these are the fields of the initial state. *)
Definition Rb_tree_copy (fuel : nat) (other : Rb_tree) : M V Rb_tree unit :=
  update (with_count 0) ;;
  try_catch
    (let* n := create_node dflt in
     update (with_nil n) ;;
     wr n (set_color Black) ;;
     wr n (set_p n) ;;
     wr n (set_right n) ;;
     wr n (set_left n) ;;
     update (with_root n) ;;
     (if ptr_neb (root other) (nil_ other)
      then copy_tree fuel (root other) (nil_ other) else ret tt) ;;
     update (with_count (node_count other)))
    (let* r := this root in
     let* nl := this nil_ in
     (if ptr_neb r nl then clear fuel else ret tt) ;;
     throw).

(** [Rb_tree(Rb_tree &&other)]: the state is the pair of the object
    under construction and [other].  The new object takes the fields of
    [other]; [other] gets a node fresh from [create_node] as its
    sentinel, with the colour and the links [Node(value)] gives it. *)
Definition Rb_tree_move (addr : nat) : M V (Rb_tree * Rb_tree) unit :=
  let* r := on_snd (this root) in
  let* nl := on_snd (this nil_) in
  let* c := on_snd (this node_count) in
  on_fst (update (λ _, mkTree addr r nl c)) ;;
  let* n := create_node dflt in
  on_snd (update (with_nil n)) ;;
  on_snd (update (with_root n)) ;;
  on_snd (update (with_count 0)).

(** *** Iterators

    An iterator is a pair of a node pointer and the address of the tree
    it was obtained from. *)

Record iter := mkIter { current : ptr; tree : nat }.

Definition is_same_iterator (it : iter) : M V Rb_tree bool :=
  let* s := this self in ret (Nat.eqb (tree it) s).

Definition begin_ (fuel : nat) : M V Rb_tree iter :=
  let* r := this root in
  let* m := minimum fuel r in
  let* s := this self in
  ret (mkIter m s).

Definition end_ : M V Rb_tree iter :=
  let* nl := this nil_ in
  let* s := this self in
  ret (mkIter nl s).

Definition deref (it : iter) : M V Rb_tree V := fld val (current it).

Fixpoint descend_left (fuel : nat) (nil cur : ptr) : M V Rb_tree ptr :=
  match fuel with
  | O => timeout
  | S fuel =>
      let* l := fld left cur in
      if ptr_neb l nil then descend_left fuel nil l else ret cur
  end.

Fixpoint descend_right (fuel : nat) (nil cur : ptr) : M V Rb_tree ptr :=
  match fuel with
  | O => timeout
  | S fuel =>
      let* r := fld right cur in
      if ptr_neb r nil then descend_right fuel nil r else ret cur
  end.

Fixpoint climb_from_right (fuel : nat) (nil cur father : ptr) : M V Rb_tree ptr :=
  match fuel with
  | O => timeout
  | S fuel =>
      let* go := andM (ret (ptr_neb father nil))
                      (let* fr := fld right father in ret (ptr_eqb cur fr)) in
      if go then
        let* fp := fld p father in
        climb_from_right fuel nil father fp
      else ret father
  end.

Fixpoint climb_from_left (fuel : nat) (nil cur father : ptr) : M V Rb_tree ptr :=
  match fuel with
  | O => timeout
  | S fuel =>
      let* go := andM (ret (ptr_neb father nil))
                      (let* fl := fld left father in ret (ptr_eqb cur fl)) in
      if go then
        let* fp := fld p father in
        climb_from_left fuel nil father fp
      else ret father
  end.

Definition increment (fuel : nat) (it : iter) : M V Rb_tree iter :=
  let* nil := this nil_ in
  if ptr_eqb (current it) nil then
    let* r := this root in
    let* m := minimum fuel r in
    ret (mkIter m (tree it))
  else
    let* r := fld right (current it) in
    if ptr_neb r nil then
      let* c := descend_left fuel nil r in
      ret (mkIter c (tree it))
    else
      let* father := fld p (current it) in
      let* c := climb_from_right fuel nil (current it) father in
      ret (mkIter c (tree it)).

Definition decrement (fuel : nat) (it : iter) : M V Rb_tree iter :=
  let* nil := this nil_ in
  if ptr_eqb (current it) nil then
    let* r := this root in
    let* m := maximum fuel r in
    ret (mkIter m (tree it))
  else
    let* l := fld left (current it) in
    if ptr_neb l nil then
      let* c := descend_right fuel nil l in
      ret (mkIter c (tree it))
    else
      let* father := fld p (current it) in
      let* c := climb_from_left fuel nil (current it) father in
      ret (mkIter c (tree it)).

(** A full forward iteration [for (it = begin(); it != end(); ++it)],
    collecting the values visited. *)
Fixpoint iterate_loop (fuel : nat) (it : iter) (acc : list V)
  : M V Rb_tree (list V) :=
  match fuel with
  | O => timeout
  | S fuel' =>
      let* e := end_ in
      if ptr_neb (current it) (current e) then
        let* v := deref it in
        let* it' := increment fuel it in
        iterate_loop fuel' it' (acc ++ [v])
      else ret acc
  end.

Definition iterate (fuel : nat) : M V Rb_tree (list V) :=
  let* b := begin_ fuel in
  iterate_loop fuel b [].

End Engine.

(** A block with a local variable of type [L]: the variable is part of
    the state inside the block and is dropped at its end, also when the
    block is left by an exception. *)
Definition with_local {V X L A} (init : L) (m : M V (X * L) A) : M V X A :=
  λ x h,
    match m (x, init) h with
    | Ok a xl h' => Ok a (fst xl) h'
    | Throw xl h' => Throw (fst xl) h'
    | Fault => Fault
    | OutOfFuel => OutOfFuel
    end.

(** ** The containers

    Each container owns one tree; its member functions are computations
    over the fields of that tree. *)

Module s21_set.
Section Set_.
Variable alloc : heap Z → option ptr.

(** [std::identity] *)
Definition kov (k : Z) : Z := k.

Definition insert (fuel : nat) (value : Z) : M Z Rb_tree (iter * bool) :=
  let* res := insert kov alloc fuel value value true in
  let* s := this self in
  ret (mkIter (fst res) s, snd res).

Definition erase (fuel : nat) (pos : iter) : M Z Rb_tree unit :=
  let* same := is_same_iterator pos in
  if same then delete_node fuel (current pos) else ret tt.

Definition erase_key (fuel : nat) (key : Z) : M Z Rb_tree unit :=
  let* n := search kov fuel key in
  delete_node fuel n.

Definition find (fuel : nat) (key : Z) : M Z Rb_tree iter :=
  let* n := search kov fuel key in
  let* s := this self in
  ret (mkIter n s).

Definition contains (fuel : nat) (key : Z) : M Z Rb_tree bool :=
  let* n := search kov fuel key in
  let* nl := this nil_ in
  ret (ptr_neb n nl).

Definition merge (fuel : nat) : M Z (Rb_tree * Rb_tree) unit :=
  merge kov fuel true.

Fixpoint insert_each (fuel : nat) (args : list Z)
  : M Z (Rb_tree * list (iter * bool)) unit :=
  match args with
  | [] => ret tt
  | a :: args =>
      let* r := on_fst (insert fuel a) in
      on_snd (update (λ res, res ++ [r])) ;;
      insert_each fuel args
  end.

Fixpoint rollback (fuel : nat) (res : list (iter * bool))
  : M Z (Rb_tree * list (iter * bool)) unit :=
  match res with
  | [] => ret tt
  | it :: res =>
      (if snd it then on_fst (erase fuel (fst it)) else ret tt) ;;
      rollback fuel res
  end.

Definition insert_many (fuel : nat) (args : list Z)
  : M Z Rb_tree (list (iter * bool)) :=
  with_local []
    (try_catch
       (insert_each fuel args ;; this snd)
       (let* res := this snd in rollback fuel res ;; throw)).

End Set_.
End s21_set.

Module s21_multiset.
Section Multiset.
Variable alloc : heap Z → option ptr.

Definition kov (k : Z) : Z := k.

Definition insert (fuel : nat) (value : Z) : M Z Rb_tree iter :=
  let* res := insert kov alloc fuel value value false in
  let* s := this self in
  ret (mkIter (fst res) s).

Definition erase (fuel : nat) (pos : iter) : M Z Rb_tree unit :=
  let* same := is_same_iterator pos in
  if same then delete_node fuel (current pos) else ret tt.

Definition erase_key (fuel : nat) (key : Z) : M Z Rb_tree unit :=
  let* n := search kov fuel key in
  delete_node fuel n.

Definition find (fuel : nat) (key : Z) : M Z Rb_tree iter :=
  let* n := search kov fuel key in
  let* s := this self in
  ret (mkIter n s).

Definition contains (fuel : nat) (key : Z) : M Z Rb_tree bool :=
  let* n := search kov fuel key in
  let* nl := this nil_ in
  ret (ptr_neb n nl).

Definition merge (fuel : nat) : M Z (Rb_tree * Rb_tree) unit :=
  merge kov fuel false.

Fixpoint count_loop (fuel : nat) (key : Z) (it : iter) (count : Z)
  : M Z Rb_tree Z :=
  match fuel with
  | O => timeout
  | S fuel' =>
      let* v := deref it in
      if v =? key then
        let* it' := increment fuel it in
        count_loop fuel' key it' (wrap (count + 1))
      else ret count
  end.

Definition count (fuel : nat) (key : Z) : M Z Rb_tree Z :=
  let* it := find fuel key in
  count_loop fuel key it 0.

Definition lower_bound (fuel : nat) (key : Z) : M Z Rb_tree iter :=
  let* n := lower_bound kov fuel key in
  let* s := this self in
  ret (mkIter n s).

Fixpoint skip_equal (fuel : nat) (key : Z) (it : iter) : M Z Rb_tree iter :=
  match fuel with
  | O => timeout
  | S fuel' =>
      let* e := end_ in
      let* go := andM (ret (ptr_neb (current it) (current e)))
                      (let* v := deref it in ret (v =? key)) in
      if go then
        let* it' := increment fuel it in
        skip_equal fuel' key it'
      else ret it
  end.

Definition upper_bound (fuel : nat) (key : Z) : M Z Rb_tree iter :=
  let* it := lower_bound fuel key in
  skip_equal fuel key it.

Definition equal_range (fuel : nat) (key : Z) : M Z Rb_tree (iter * iter) :=
  let* it_start := lower_bound fuel key in
  let* it_end := skip_equal fuel key it_start in
  ret (it_start, it_end).

Fixpoint insert_each (fuel : nat) (args : list Z)
  : M Z (Rb_tree * list (iter * bool)) unit :=
  match args with
  | [] => ret tt
  | a :: args =>
      let* r := on_fst (insert fuel a) in
      on_snd (update (λ res, res ++ [(r, true)])) ;;
      insert_each fuel args
  end.

Fixpoint rollback (fuel : nat) (res : list (iter * bool))
  : M Z (Rb_tree * list (iter * bool)) unit :=
  match res with
  | [] => ret tt
  | it :: res =>
      on_fst (erase fuel (fst it)) ;;
      rollback fuel res
  end.

Definition insert_many (fuel : nat) (args : list Z)
  : M Z Rb_tree (list (iter * bool)) :=
  with_local []
    (try_catch
       (insert_each fuel args ;; this snd)
       (let* res := this snd in rollback fuel res ;; throw)).

End Multiset.
End s21_multiset.

Module s21_map.
Section Map_.
Context {T : Type}.
Variable alloc : heap (Z * T) → option ptr.

(** [Select1st] *)
Definition kov (v : Z * T) : Z := fst v.

Definition insert_or_assign (fuel : nat) (key : Z) (obj : T)
  : M (Z * T) Rb_tree (iter * bool) :=
  let* res := insert kov alloc fuel key (key, obj) true in
  (if snd res then ret tt
   else wr (fst res) (λ n, set_val (fst (val n), obj) n)) ;;
  let* s := this self in
  ret (mkIter (fst res) s, snd res).

Definition insert (fuel : nat) (value : Z * T) : M (Z * T) Rb_tree (iter * bool) :=
  let* res := insert kov alloc fuel (fst value) value true in
  let* s := this self in
  ret (mkIter (fst res) s, snd res).

Definition erase (fuel : nat) (pos : iter) : M (Z * T) Rb_tree unit :=
  let* same := is_same_iterator pos in
  if same then delete_node fuel (current pos) else ret tt.

Definition find (fuel : nat) (key : Z) : M (Z * T) Rb_tree iter :=
  let* n := search kov fuel key in
  let* s := this self in
  ret (mkIter n s).

Definition contains (fuel : nat) (key : Z) : M (Z * T) Rb_tree bool :=
  let* n := search kov fuel key in
  let* nl := this nil_ in
  ret (ptr_neb n nl).

Definition merge (fuel : nat) : M (Z * T) (Rb_tree * Rb_tree) unit :=
  merge kov fuel true.

Fixpoint insert_each (fuel : nat) (args : list (Z * T))
  : M (Z * T) (Rb_tree * list (iter * bool)) unit :=
  match args with
  | [] => ret tt
  | a :: args =>
      let* r := on_fst (insert fuel a) in
      on_snd (update (λ res, res ++ [r])) ;;
      insert_each fuel args
  end.

Fixpoint rollback (fuel : nat) (res : list (iter * bool))
  : M (Z * T) (Rb_tree * list (iter * bool)) unit :=
  match res with
  | [] => ret tt
  | it :: res =>
      (if snd it then on_fst (erase fuel (fst it)) else ret tt) ;;
      rollback fuel res
  end.

Definition insert_many (fuel : nat) (args : list (Z * T))
  : M (Z * T) Rb_tree (list (iter * bool)) :=
  with_local []
    (try_catch
       (insert_each fuel args ;; this snd)
       (let* res := this snd in rollback fuel res ;; throw)).

End Map_.
End s21_map.

(** ** Trees in one heap, and sequences of mutations

    The trees of a program live in one heap.  A state holds the heap
    and the objects; a mutation is one call of a mutating member
    function on one of them. *)

Section Mutations.
Context {V : Type}.
Variable kov : V → Z.
Variable dflt : V.

(** The nodes reachable from a root through the child links. *)
Fixpoint reach_nodes (fuel : nat) (h : heap V) (nl x : ptr) : list ptr :=
  match fuel with
  | O => []
  | S fuel =>
      if ptr_eqb x nl then []
      else match h !! x with
           | None => []
           | Some n =>
               reach_nodes fuel h nl (left n) ++ x :: reach_nodes fuel h nl (right n)
           end
  end.

(** An allocator with a finite pool: it hands out the first address of
    the pool that is free and fails when there is none. *)
Definition pool (l : list ptr) : heap V → option ptr :=
  λ h, find (λ a, bool_decide (h !! a = None)) l.

(** The allocator of one operation: it hands out the address [a] if
    that is free, and fails otherwise. *)
Definition oracle (a : option ptr) : heap V → option ptr :=
  λ h, match a with
       | Some p => if decide (h !! p = None) then Some p else None
       | None => None
       end.

(** The heap and the trees living in it; the address of a tree is its
    index.  Each tree is tagged with whether every mutation it went
    through asked for unique keys. *)
Record world := mkWorld { wheap : heap V; wtrees : list (Rb_tree * bool) }.

Inductive op :=
  | New (a : option ptr)
  | Insert (i : nat) (v : V) (u : bool) (a : option ptr)
  | Delete (i : nat) (z : ptr)
  | Merge (i j : nat) (u : bool)
  | Clear (i : nat).

(** Enough fuel for every loop over a tree stored in [h]. *)
Definition fuel_of (h : heap V) : nat := 2 * size h + 2.

Definition valid_op (w : world) (o : op) : Prop :=
  match o with
  | New _ => True
  | Insert i _ _ _ => (i < length (wtrees w))%nat
  | Delete i z =>
      ∃ t, wtrees w !! i = Some t
           ∧ (z = nil_ t.1
              ∨ z ∈ reach_nodes (fuel_of (wheap w)) (wheap w) (nil_ t.1) (root t.1))
  | Merge i j _ =>
      i ≠ j ∧ (i < length (wtrees w))%nat ∧ (j < length (wtrees w))%nat
  | Clear i => (i < length (wtrees w))%nat
  end.

(** One mutation.  An exception leaves the state it was thrown in; a
    fault or a loop that does not end gives [None]. *)
Definition exec (o : op) (w : world) : option world :=
  let h := wheap w in
  let ts := wtrees w in
  let fuel := fuel_of h in
  match o with
  | New a =>
      match Rb_tree_default dflt (oracle a) (length ts) (mkTree 0%nat nullptr nullptr 0) h with
      | Ok _ o' h' => Some (mkWorld h' (ts ++ [(o', true)]))
      | Throw _ _ => Some w
      | _ => None
      end
  | Insert i v u a =>
      match ts !! i with
      | Some t =>
          match insert kov (oracle a) fuel (kov v) v u t.1 h with
          | Ok _ o' h' => Some (mkWorld h' (<[i := (o', t.2 && u)]> ts))
          | Throw o' h' => Some (mkWorld h' (<[i := (o', t.2 && u)]> ts))
          | _ => None
          end
      | None => None
      end
  | Delete i z =>
      match ts !! i with
      | Some t =>
          match delete_node fuel z t.1 h with
          | Ok _ o' h' => Some (mkWorld h' (<[i := (o', t.2)]> ts))
          | _ => None
          end
      | None => None
      end
  | Merge i j u =>
      match ts !! i, ts !! j with
      | Some ti, Some tj =>
          match merge kov fuel u (ti.1, tj.1) h with
          | Ok _ x h' =>
              Some (mkWorld h' (<[j := (x.2, tj.2 && u)]>
                                  (<[i := (x.1, ti.2 && u)]> ts)))
          | _ => None
          end
      | _, _ => None
      end
  | Clear i =>
      match ts !! i with
      | Some t =>
          match clear fuel t.1 h with
          | Ok _ o' h' => Some (mkWorld h' (<[i := (o', t.2)]> ts))
          | _ => None
          end
      | None => None
      end
  end.

(** The states reached by sequences of mutations from the empty world. *)
Inductive reachable : world → Prop :=
  | reach_init : reachable (mkWorld ∅ [])
  | reach_step w o w' :
      reachable w → valid_op w o → exec o w = Some w' → reachable w'.

(** [valid_op], decided. *)
Definition valid_opb (w : world) (o : op) : bool :=
  match o with
  | New _ => true
  | Insert i _ _ _ => bool_decide (i < length (wtrees w))%nat
  | Delete i z =>
      match wtrees w !! i with
      | Some t =>
          bool_decide (z = nil_ t.1)
          || bool_decide
               (z ∈ reach_nodes (fuel_of (wheap w)) (wheap w) (nil_ t.1) (root t.1))
      | None => false
      end
  | Merge i j _ =>
      bool_decide (i ≠ j) && bool_decide (i < length (wtrees w))%nat
      && bool_decide (j < length (wtrees w))%nat
  | Clear i => bool_decide (i < length (wtrees w))%nat
  end.

(** A sequence of mutations, each checked to be valid. *)
Fixpoint run (ops : list op) (w : world) : option world :=
  match ops with
  | [] => Some w
  | o :: ops =>
      if valid_opb w o then
        match exec o w with
        | Some w' => run ops w'
        | None => None
        end
      else None
  end.

(** The state a sequence of mutations leads to from the empty world
    (the empty world itself when the sequence does not run). *)
Definition after (ops : list op) : world :=
  default (mkWorld ∅ []) (run ops (mkWorld ∅ [])).

(** The parent link of the sentinel, as the heap holds it. *)
Definition nil_parent (h : heap V) (nl : ptr) : ptr :=
  match h !! nl with Some n => p n | None => nullptr end.

End Mutations.

(** ** Abstraction: the tree a heap represents *)

Section Abstraction.
Context {V : Type}.

(** The shape stored at a root pointer: colours, addresses and payloads
    of the nodes, in the layout of the links. *)
Inductive shape :=
  | Lf
  | Nd (c : Node_color) (l : shape) (a : ptr) (v : V) (r : shape).

(** One-hole contexts: the path from a position up to the root. *)
Inductive ctx :=
  | Top
  | CL (c : Node_color) (a : ptr) (v : V) (up : ctx) (r : shape)
  | CR (c : Node_color) (l : shape) (a : ptr) (v : V) (up : ctx).

Fixpoint plug (cx : ctx) (t : shape) : shape :=
  match cx with
  | Top => t
  | CL c a v up r => plug up (Nd c t a v r)
  | CR c l a v up => plug up (Nd c l a v t)
  end.

Definition rootp (nl : ptr) (t : shape) : ptr :=
  match t with Lf => nl | Nd _ _ a _ _ => a end.

Definition tcolor (t : shape) : Node_color :=
  match t with Lf => Black | Nd c _ _ _ _ => c end.

Fixpoint ptrs (t : shape) : gset ptr :=
  match t with
  | Lf => ∅
  | Nd _ l a _ r => {[a]} ∪ ptrs l ∪ ptrs r
  end.

Fixpoint elems (t : shape) : list (ptr * V) :=
  match t with
  | Lf => []
  | Nd _ l a v r => elems l ++ (a, v) :: elems r
  end.

Fixpoint tsize (t : shape) : nat :=
  match t with
  | Lf => 0
  | Nd _ l _ _ r => S (tsize l + tsize r)
  end.

Definition cpar (nl : ptr) (cx : ctx) : ptr :=
  match cx with Top => nl | CL _ a _ _ _ => a | CR _ _ a _ _ => a end.

Definition ccolor (cx : ctx) : Node_color :=
  match cx with Top => Black | CL c _ _ _ _ => c | CR c _ _ _ _ => c end.

Fixpoint cptrs (cx : ctx) : gset ptr :=
  match cx with
  | Top => ∅
  | CL _ a _ up r => {[a]} ∪ ptrs r ∪ cptrs up
  | CR _ l a _ up => {[a]} ∪ ptrs l ∪ cptrs up
  end.

(** Elements before and after the hole, in iteration order. *)
Fixpoint cleft (cx : ctx) : list (ptr * V) :=
  match cx with
  | Top => []
  | CL _ _ _ up _ => cleft up
  | CR _ l a v up => cleft up ++ elems l ++ [(a, v)]
  end.

Fixpoint cright (cx : ctx) : list (ptr * V) :=
  match cx with
  | Top => []
  | CL _ a v up r => (a, v) :: elems r ++ cright up
  | CR _ _ _ _ up => cright up
  end.

Fixpoint cdepth (cx : ctx) : nat :=
  match cx with
  | Top => 0
  | CL _ _ _ up _ => S (cdepth up)
  | CR _ _ _ _ up => S (cdepth up)
  end.

(** [rep h nl t par]: in heap [h], with sentinel [nl], the tree [t] is
    laid out at [rootp nl t], its root having parent link [par]; the
    nodes are pairwise distinct and distinct from the sentinel. *)
Fixpoint rep (h : heap V) (nl : ptr) (t : shape) (par : ptr) : Prop :=
  match t with
  | Lf => True
  | Nd c l a v r =>
      a ≠ nl ∧ a ∉ ptrs l ∧ a ∉ ptrs r ∧ ptrs l ## ptrs r ∧
      h !! a = Some (mkNode v c (rootp nl l) (rootp nl r) par) ∧
      rep h nl l a ∧ rep h nl r a
  end.

(** [rep_ctx h nl cx x]: the context [cx] is laid out in [h] around a
    hole whose pointer is [x]. *)
Fixpoint rep_ctx (h : heap V) (nl : ptr) (cx : ctx) (x : ptr) : Prop :=
  match cx with
  | Top => True
  | CL c a v up r =>
      a ≠ nl ∧ a ∉ ptrs r ∧ a ∉ cptrs up ∧ ptrs r ## cptrs up ∧
      h !! a = Some (mkNode v c x (rootp nl r) (cpar nl up)) ∧
      rep h nl r a ∧ rep_ctx h nl up a
  | CR c l a v up =>
      a ≠ nl ∧ a ∉ ptrs l ∧ a ∉ cptrs up ∧ ptrs l ## cptrs up ∧
      h !! a = Some (mkNode v c (rootp nl l) x (cpar nl up)) ∧
      rep h nl l a ∧ rep_ctx h nl up a
  end.

(** The root pointer of a plugged context. *)
Fixpoint croot (cx : ctx) (x : ptr) : ptr :=
  match cx with
  | Top => x
  | CL _ a _ up _ => croot up a
  | CR _ _ a _ up => croot up a
  end.

(** The nodes of a tree are pairwise distinct. *)
Fixpoint sep (t : shape) : Prop :=
  match t with
  | Lf => True
  | Nd _ l a _ r =>
      a ∉ ptrs l ∧ a ∉ ptrs r ∧ ptrs l ## ptrs r ∧ sep l ∧ sep r
  end.

Fixpoint sepc (cx : ctx) : Prop :=
  match cx with
  | Top => True
  | CL _ a _ up r =>
      a ∉ ptrs r ∧ a ∉ cptrs up ∧ ptrs r ## cptrs up ∧ sep r ∧ sepc up
  | CR _ l a _ up =>
      a ∉ ptrs l ∧ a ∉ cptrs up ∧ ptrs l ## cptrs up ∧ sep l ∧ sepc up
  end.

(** *** Red-black shape *)

(** [rbt n t]: no red node of [t] has a red child, and every path from
    the root of [t] to a leaf crosses [n] black nodes. *)
Fixpoint rbt (n : nat) (t : shape) : Prop :=
  match t with
  | Lf => n = 0%nat
  | Nd Red l _ _ r => tcolor l = Black ∧ tcolor r = Black ∧ rbt n l ∧ rbt n r
  | Nd Black l _ _ r =>
      match n with
      | O => False
      | S m => rbt m l ∧ rbt m r
      end
  end.



(** [rbc n cx m]: a context that turns a red-black tree of black height
    [n] (black-rooted where the hole hangs under a red node) into a
    red-black tree of black height [m]. *)
Fixpoint rbc (n : nat) (cx : ctx) (m : nat) : Prop :=
  match cx with
  | Top => n = m
  | CL Red _ _ up r =>
      tcolor r = Black ∧ ccolor up = Black ∧ rbt n r ∧ rbc n up m
  | CL Black _ _ up r => rbt n r ∧ rbc (S n) up m
  | CR Red l _ _ up =>
      tcolor l = Black ∧ ccolor up = Black ∧ rbt n l ∧ rbc n up m
  | CR Black l _ _ up => rbt n l ∧ rbc (S n) up m
  end.

(** The outermost node of a context, the root of the plugged tree, is
    black. *)
Fixpoint cblack (cx : ctx) : Prop :=
  match cx with
  | Top => True
  | CL c _ _ up _ => match up with Top => c = Black | _ => cblack up end
  | CR c _ _ _ up => match up with Top => c = Black | _ => cblack up end
  end.

Definition blacken (t : shape) : shape :=
  match t with Lf => Lf | Nd _ l a v r => Nd Black l a v r end.

(** A subtree one black node short, as [delete_fixup] finds it: black
    with black height [n], or red and made of height [S n] by colouring
    its root black. *)
Definition deficit (n : nat) (s : shape) : Prop :=
  match tcolor s with
  | Red => rbt (S n) (blacken s)
  | Black => rbt n s
  end.

(** Composition of contexts: [inner] plugged into the hole of [outer]. *)
Fixpoint capp (inner outer : ctx) : ctx :=
  match inner with
  | Top => outer
  | CL c a v up r => CL c a v (capp up outer) r
  | CR c l a v up => CR c l a v (capp up outer)
  end.

(** The position of the leftmost (rightmost) node of a subtree. *)
Fixpoint dmin (cx : ctx) (t : shape) : ctx * shape :=
  match t with
  | Lf => (cx, Lf)
  | Nd c l a v r =>
      match l with
      | Lf => (cx, t)
      | Nd _ _ _ _ _ => dmin (CL c a v cx r) l
      end
  end.

Fixpoint dmax (cx : ctx) (t : shape) : ctx * shape :=
  match t with
  | Lf => (cx, Lf)
  | Nd c l a v r =>
      match r with
      | Lf => (cx, t)
      | Nd _ _ _ _ _ => dmax (CR c l a v cx) r
      end
  end.

(** *** Search paths *)

Section Descend.
Variable kov : V → Z.

(** The descent of [find_or_create] and [insert_node] from the position
    [(cx, t)]: the position reached, and whether a node is to be created
    there. *)
Fixpoint descend (key : Z) (unique_keys : bool) (cx : ctx) (t : shape)
  : ctx * shape * bool :=
  match t with
  | Lf => (cx, Lf, true)
  | Nd c l a v r =>
      if unique_keys && negb (comp key (kov v)) && negb (comp (kov v) key)
      then (cx, t, false)
      else if comp key (kov v) then descend key unique_keys (CL c a v cx r) l
      else descend key unique_keys (CR c l a v cx) r
  end.

Definition keys (l : list (ptr * V)) : list Z := map (λ e, kov (snd e)) l.

(** Iteration order is non-decreasing (strictly increasing) in the keys. *)
Definition ordered (t : shape) : Prop := StronglySorted Z.le (keys (elems t)).
Definition strictly_ordered (t : shape) : Prop :=
  StronglySorted Z.lt (keys (elems t)).

End Descend.

End Abstraction.
Arguments shape : clear implicits.
Arguments ctx : clear implicits.

(** ** Ownership of a tree by an [Rb_tree] object *)

Section Own.
Context {V : Type}.
Variable dflt : V.

(** [framed F h]: the cells recorded in [F] are present, unchanged, in
    [h].  [F] stands for the part of the heap that an operation on the
    tree must leave alone. *)
Definition framed (F h : heap V) : Prop :=
  ∀ q n, F !! q = Some n → h !! q = Some n.

(** The object [x] (at address [s], holding count [cnt]) owns the tree
    [T] in heap [h]; the sentinel is [nl] and its parent link is [np]. *)
Record own (F : heap V) (nl np : ptr) (T : shape V) (s : nat) (cnt : Z)
    (x : Rb_tree) (h : heap V) : Prop := mkOwn {
  own_obj : x = mkTree s (rootp nl T) nl cnt;
  own_rep : rep h nl T nl;
  own_nilcell : h !! nl = Some (mkNode dflt Black nl nl np);
  own_frame : framed F h;
  own_sep : ∀ q, q ∈ ptrs T → F !! q = None;
  own_nilsep : F !! nl = None
}.

End Own.

(** ** Outcomes of a run *)

(** [sat r Q E]: the run [r] neither faults nor runs out of fuel; if it
    returns, [Q] holds of the result and final state; if it throws, [E]
    holds of the state at the throw. *)
Definition sat {V X A} (r : outcome V X A)
    (Q : A → X → heap V → Prop) (E : X → heap V → Prop) : Prop :=
  match r with
  | Ok a x h => Q a x h
  | Throw x h => E x h
  | Fault | OutOfFuel => False
  end.

Definition nothrow {V X} : X → heap V → Prop := λ _ _, False.
Abbreviation returns r Q := (sat r Q nothrow).

Section AbstractionLemmas.
Context {V : Type}.
Implicit Types (t : shape V) (cx : ctx V) (h : heap V).

Lemma ptrs_plug cx t : ptrs (plug cx t) = ptrs t ∪ cptrs cx.
Proof.
  revert t. induction cx as [|c a v up IH r|c l a v up IH]; intros t; simpl.
  - set_solver.
  - rewrite IH. simpl. set_solver.
  - rewrite IH. simpl. set_solver.
Qed.

Lemma elems_plug cx t : elems (plug cx t) = cleft cx ++ elems t ++ cright cx.
Proof.
  revert t. induction cx as [|c a v up IH r|c l a v up IH]; intros t; simpl.
  - by rewrite app_nil_r.
  - rewrite IH. simpl. by rewrite <- ?app_assoc.
  - rewrite IH. simpl. rewrite <- ?app_assoc. simpl. by rewrite <- ?app_assoc.
Qed.

Lemma rep_not_nil h nl t par : rep h nl t par → nl ∉ ptrs t.
Proof.
  revert par. induction t as [|c l IHl a v r IHr]; intros par; simpl.
  - set_solver.
  - intros (Ha & _ & _ & _ & _ & Hl & Hr).
    specialize (IHl _ Hl). specialize (IHr _ Hr). set_solver.
Qed.

Lemma rep_ctx_not_nil h nl cx x : rep_ctx h nl cx x → nl ∉ cptrs cx.
Proof.
  revert x. induction cx as [|c a v up IH r|c l a v up IH]; intros x; simpl.
  - set_solver.
  - intros (Ha & _ & _ & _ & _ & Hr & Hup).
    specialize (IH _ Hup). apply rep_not_nil in Hr. set_solver.
  - intros (Ha & _ & _ & _ & _ & Hl & Hup).
    specialize (IH _ Hup). apply rep_not_nil in Hl. set_solver.
Qed.

Lemma rootp_plug nl cx t : rootp nl (plug cx t) = croot cx (rootp nl t).
Proof.
  revert t. induction cx as [|c a v up IH r|c l a v up IH]; intros t; simpl; auto.
Qed.

(** A plugged tree is laid out iff the context and the subtree are, on
    disjoint sets of nodes. *)
Lemma rep_plug h nl cx t :
  rep h nl (plug cx t) nl ↔
  rep_ctx h nl cx (rootp nl t) ∧ rep h nl t (cpar nl cx) ∧ ptrs t ## cptrs cx.
Proof.
  revert t. induction cx as [|c a v up IH r|c l a v up IH]; intros t; simpl.
  - split; [intros H; split_and!; auto; set_solver | tauto].
  - rewrite IH. simpl. split.
    + intros (Hup & (Ha & Hal & Har & Hlr & Hh & Hl & Hr) & Hd).
      split_and!; auto; set_solver.
    + intros ((Ha & Har & Hau & Hru & Hh & Hr & Hup) & Ht & Hd).
      split_and!; auto; set_solver.
  - rewrite IH. simpl. split.
    + intros (Hup & (Ha & Hal & Har & Hlr & Hh & Hl & Hr) & Hd).
      split_and!; auto; set_solver.
    + intros ((Ha & Har & Hau & Hru & Hh & Hr & Hup) & Ht & Hd).
      split_and!; auto; set_solver.
Qed.

(** Layouts only read the heap at their own nodes. *)
Lemma rep_transfer h h' nl t par :
  rep h nl t par →
  (∀ q, q ∈ ptrs t → h' !! q = h !! q) →
  rep h' nl t par.
Proof.
  revert par. induction t as [|c l IHl a v r IHr]; intros par; simpl; auto.
  intros (Ha & Hal & Har & Hlr & Hh & Hl & Hr) Heq.
  split_and!; auto.
  - rewrite Heq; [done | set_solver].
  - apply IHl; auto. intros q Hq. apply Heq. set_solver.
  - apply IHr; auto. intros q Hq. apply Heq. set_solver.
Qed.

Lemma rep_ctx_transfer h h' nl cx x :
  rep_ctx h nl cx x →
  (∀ q, q ∈ cptrs cx → h' !! q = h !! q) →
  rep_ctx h' nl cx x.
Proof.
  revert x. induction cx as [|c a v up IH r|c l a v up IH]; intros x; simpl; auto.
  - intros (Ha & Har & Hau & Hru & Hh & Hr & Hup) Heq. split_and!; auto.
    + rewrite Heq; [done | set_solver].
    + eapply rep_transfer; eauto. intros q Hq. apply Heq. set_solver.
    + apply IH; auto. intros q Hq. apply Heq. set_solver.
  - intros (Ha & Har & Hau & Hru & Hh & Hr & Hup) Heq. split_and!; auto.
    + rewrite Heq; [done | set_solver].
    + eapply rep_transfer; eauto. intros q Hq. apply Heq. set_solver.
    + apply IH; auto. intros q Hq. apply Heq. set_solver.
Qed.

Lemma sep_plug cx t :
  sep (plug cx t) ↔ sepc cx ∧ sep t ∧ ptrs t ## cptrs cx.
Proof.
  revert t. induction cx as [|c a v up IH r|c l a v up IH]; intros t; simpl.
  - split; [intros H; split_and!; auto; set_solver | tauto].
  - rewrite IH. simpl. split.
    + intros (Hup & (Hal & Har & Hlr & Hl & Hr) & Hd). split_and!; auto; set_solver.
    + intros ((Har & Hau & Hru & Hr & Hup) & Ht & Hd). split_and!; auto; set_solver.
  - rewrite IH. simpl. split.
    + intros (Hup & (Hal & Har & Hlr & Hl & Hr) & Hd). split_and!; auto; set_solver.
    + intros ((Har & Hau & Hru & Hr & Hup) & Ht & Hd). split_and!; auto; set_solver.
Qed.

Lemma rep_sep h nl t par : rep h nl t par → sep t.
Proof.
  revert par. induction t as [|c l IHl a v r IHr]; intros par; simpl; auto.
  intros (Ha & Hal & Har & Hlr & Hh & Hl & Hr). split_and!; eauto.
Qed.

End AbstractionLemmas.

(** ** Running the monad *)

Section Run.
Context {V X : Type}.
Implicit Types (x : X) (h : heap V).

Lemma bind_ok {A B} (m : M V X A) (k : A → M V X B) x h a x' h' :
  m x h = Ok a x' h' → bind m k x h = k a x' h'.
Proof. unfold bind. by intros ->. Qed.

Lemma bind_throw {A B} (m : M V X A) (k : A → M V X B) x h x' h' :
  m x h = Throw x' h' → bind m k x h = Throw x' h'.
Proof. unfold bind. by intros ->. Qed.

Lemma bind_ret {A B} (a : A) (k : A → M V X B) x h :
  bind (ret a) k x h = k a x h.
Proof. reflexivity. Qed.

Lemma bind_this {A B} (f : X → A) (k : A → M V X B) x h :
  bind (this f) k x h = k (f x) x h.
Proof. reflexivity. Qed.

Lemma bind_update {B} (f : X → X) (k : unit → M V X B) x h :
  bind (update f) k x h = k tt (f x) h.
Proof. reflexivity. Qed.

Lemma bind_bind {A B C} (m : M V X A) (f : A → M V X B) (g : B → M V X C) x h :
  bind (bind m f) g x h = bind m (λ a, bind (f a) g) x h.
Proof. unfold bind. by destruct (m x h). Qed.

Lemma bind_under_assoc {A B C D} (m : M V X A) (g : A → M V X B)
    (k1 : B → M V X C) (k2 : C → M V X D) x h :
  bind m (λ a, bind (bind (g a) k1) k2) x h
  = bind (bind m g) (λ b, bind (k1 b) k2) x h.
Proof.
  unfold bind. destruct (m x h) as [a x' h'| | |]; auto.
  destruct (g a x' h'); auto.
Qed.

Lemma bind_congr {A B} (m m' : M V X A) (k : A → M V X B) x h :
  m x h = m' x h → bind m k x h = bind m' k x h.
Proof. unfold bind. by intros ->. Qed.

Lemma bind_under_assoc1 {A B C} (m : M V X A) (g : A → M V X B)
    (k1 : B → M V X C) x h :
  bind m (λ a, bind (g a) k1) x h = bind (bind m g) k1 x h.
Proof. by rewrite bind_bind. Qed.

Lemma fld_ok {B} (f : Node V → B) a n x h :
  h !! a = Some n → fld f a x h = Ok (f n) x h.
Proof. unfold fld, bind, rd. by intros ->. Qed.

Lemma wr_ok (g : Node V → Node V) a n x h :
  h !! a = Some n → wr a g x h = Ok tt x (<[a := g n]> h).
Proof. unfold wr. by intros ->. Qed.

Lemma bind_fld {A B} (f : Node V → A) a n (k : A → M V X B) x h :
  h !! a = Some n → bind (fld f a) k x h = k (f n) x h.
Proof. intros H. by rewrite (bind_ok _ _ _ _ _ _ _ (fld_ok f a n x h H)). Qed.

Lemma bind_wr {B} (g : Node V → Node V) a n (k : unit → M V X B) x h :
  h !! a = Some n → bind (wr a g) k x h = k tt x (<[a := g n]> h).
Proof. intros H. by rewrite (bind_ok _ _ _ _ _ _ _ (wr_ok g a n x h H)). Qed.

End Run.

Lemma ptr_eqb_refl a : ptr_eqb a a = true.
Proof. apply Nat.eqb_refl. Qed.
Lemma ptr_eqb_ne a b : a ≠ b → ptr_eqb a b = false.
Proof. intros. by apply Nat.eqb_neq. Qed.
Lemma ptr_neb_refl a : ptr_neb a a = false.
Proof. unfold ptr_neb. by rewrite Nat.eqb_refl. Qed.
Lemma ptr_neb_ne a b : a ≠ b → ptr_neb a b = true.
Proof. intros. unfold ptr_neb. apply negb_true_iff. by apply Nat.eqb_neq. Qed.

Section OwnLemmas.
Context {V : Type}.
Variable dflt : V.

Lemma own_lookup F nl np cx c l a v r s cnt x h :
 own dflt F nl np (plug cx (Nd c l a v r)) s cnt x h →
  h !! a = Some (mkNode v c (rootp nl l) (rootp nl r) (cpar nl cx)).
Proof.
  intros [_ Hrep _ _ _ _]. apply rep_plug in Hrep as (_ & Hr & _).
  simpl in Hr. tauto.
Qed.

Lemma own_root_color F nl np cx t s cnt x h :
 own dflt F nl np (plug cx t) s cnt x h →
  ∃ n, h !! rootp nl t = Some n ∧ color n = tcolor t.
Proof.
  destruct t as [|c l a v r]; intros Ho.
  - destruct Ho as [_ _ Hn _ _ _]. simpl. eauto.
  - eapply own_lookup in Ho. simpl. eauto.
Qed.

Lemma own_ne_nil F nl np cx c l a v r s cnt x h :
 own dflt F nl np (plug cx (Nd c l a v r)) s cnt x h → a ≠ nl.
Proof.
  intros [_ Hrep _ _ _ _]. apply rep_plug in Hrep as (_ & Hr & _).
  simpl in Hr. tauto.
Qed.

Lemma own_nil_fields F nl np T s cnt x h :
 own dflt F nl np T s cnt x h → nil_ x = nl ∧ root x = rootp nl T ∧ self x = s
  ∧ node_count x = cnt.
Proof. intros [-> _ _ _ _ _]. done. Qed.

(** Recolouring a node. *)
Lemma own_recolor c' F nl np cx c l a v r s cnt x h :
 own dflt F nl np (plug cx (Nd c l a v r)) s cnt x h →
 own dflt F nl np (plug cx (Nd c' l a v r)) s cnt x
    (<[a := mkNode v c' (rootp nl l) (rootp nl r) (cpar nl cx)]> h).
Proof.
  intros [Hx Hrep Hn Hf Hs Hns].
  pose proof (rep_not_nil _ _ _ _ Hrep) as Hnn.
  apply rep_plug in Hrep as (Hc & Hr & Hd).
  simpl in Hr. destruct Hr as (Ha & Hal & Har & Hlr & Hh & Hl & Hrr).
  rewrite ptrs_plug in Hnn. simpl in *.
  constructor.
  - rewrite Hx. f_equal. by rewrite !rootp_plug.
  - apply rep_plug. simpl. split_and!; auto.
    + eapply rep_ctx_transfer; eauto. intros q Hq.
      rewrite lookup_insert_ne; [done | set_solver].
    + by rewrite lookup_insert_eq.
    + eapply rep_transfer; eauto. intros q Hq.
      rewrite lookup_insert_ne; [done | set_solver].
    + eapply rep_transfer; eauto. intros q Hq.
      rewrite lookup_insert_ne; [done | set_solver].
  - rewrite lookup_insert_ne; [done | set_solver].
  - intros q n Hq. rewrite lookup_insert_ne; [by apply Hf |].
    intros <-. rewrite Hs in Hq; [done |]. rewrite ptrs_plug. set_solver.
  - intros q Hq. apply Hs. rewrite ptrs_plug in *. set_solver.
  - done.
Qed.

End OwnLemmas.

(** ** Rules for [sat] *)

Section SatRules.
Context {V X : Type}.
Implicit Types (x : X) (h : heap V).

Lemma sat_bind {A B} (m : M V X A) (k : A → M V X B) x h Q1 Q E :
  sat (m x h) Q1 E →
  (∀ a x' h', Q1 a x' h' → sat (k a x' h') Q E) →
  sat (bind m k x h) Q E.
Proof. unfold bind. destruct (m x h); simpl; auto. Qed.

Lemma sat_bind_gen {A B} (m : M V X A) (k : A → M V X B) x h Q1 E1 Q E :
  sat (m x h) Q1 E1 →
  (∀ a x' h', Q1 a x' h' → sat (k a x' h') Q E) →
  (∀ x' h', E1 x' h' → E x' h') →
  sat (bind m k x h) Q E.
Proof. unfold bind. destruct (m x h); simpl; auto. Qed.

Lemma sat_mono {A} (r : outcome V X A) Q Q' E E' :
  sat r Q E → (∀ a x h, Q a x h → Q' a x h) → (∀ x h, E x h → E' x h) →
  sat r Q' E'.
Proof. destruct r; simpl; auto. Qed.

Lemma returns_mono {A} (r : outcome V X A) Q Q' E :
  returns r Q → (∀ a x h, Q a x h → Q' a x h) → sat r Q' E.
Proof. destruct r; simpl; auto. intros []. Qed.

Lemma returns_inv {A} (r : outcome V X A) Q :
  returns r Q → ∃ a x h, r = Ok a x h ∧ Q a x h.
Proof. destruct r; simpl; try done. eauto. Qed.

Lemma sat_inv {A} (r : outcome V X A) Q E :
  sat r Q E →
  (∃ a x h, r = Ok a x h ∧ Q a x h) ∨ (∃ x h, r = Throw x h ∧ E x h).
Proof. destruct r; simpl; try done; eauto 10. Qed.

Lemma this_ok {A} (f : X → A) x h : this f x h = Ok (f x) x h.
Proof. reflexivity. Qed.
Lemma ret_ok {A} (a : A) x h : ret a x h = Ok a x h.
Proof. reflexivity. Qed.
Lemma update_ok (f : X → X) x h : update f x h = Ok tt (f x) h.
Proof. reflexivity. Qed.

Lemma bind_andM {B} (a b : M V X bool) (k : bool → M V X B) x h :
  bind (andM a b) k x h
  = bind a (λ c, if c then bind b k else k false) x h.
Proof.
  unfold andM. rewrite bind_bind. unfold bind at 1 3.
  destruct (a x h) as [[] ? ?| | |]; try done.
Qed.

End SatRules.

Global Arguments bind : simpl never.
Global Arguments ret : simpl never.
Global Arguments fld : simpl never.
Global Arguments wr : simpl never.
Global Arguments rd : simpl never.
Global Arguments this : simpl never.
Global Arguments update : simpl never.
Global Arguments andM : simpl never.

Lemma rootp_ne {V} (t : shape V) nl x : x ≠ nl → x ∉ ptrs t → x ≠ rootp nl t.
Proof. destruct t; simpl; [done | set_solver]. Qed.

Lemma croot_ne {V} (cx : ctx V) a x : x ≠ a → x ∉ cptrs cx → x ≠ croot cx a.
Proof.
  revert a. induction cx as [|c b v up IH r|c l b v up IH]; intros a; simpl;
    [done | |]; intros Ha Hx; apply IH; set_solver.
Qed.

(** Separation facts are kept in atomic form: [a ≠ b], [a ∉ ptrs t],
    [ptrs t ## ptrs t']. *)
Ltac sep_norm :=
  repeat match goal with
  | H : _ ∧ _ |- _ => destruct H
  | H : True |- _ => clear H
  | H : _ ∉ _ ∪ _ |- _ => apply not_elem_of_union in H
  | H : _ ∉ {[ _ ]} |- _ => apply not_elem_of_singleton in H
  | H : _ ∉ ∅ |- _ => clear H
  | H : _ ∪ _ ## _ |- _ => apply disjoint_union_l in H
  | H : _ ## _ ∪ _ |- _ => apply disjoint_union_r in H
  | H : {[ _ ]} ## _ |- _ => apply disjoint_singleton_l in H
  | H : _ ## {[ _ ]} |- _ => apply disjoint_singleton_r in H
  | H : ∅ ## _ |- _ => clear H
  | H : _ ## ∅ |- _ => clear H
  end.

Ltac ne_mem :=
  match goal with
  | Hq : ?q ∈ ?S, Ha : ?a ∉ ?S |- ?q ≠ ?a => intros ->; exact (Ha Hq)
  | Hq : ?q ∈ ?S, Ha : ?a ∉ ?S |- ?a ≠ ?q => intros <-; exact (Ha Hq)
  | Hq : ?q ∈ ?S, Hd : ?S ## ?S', Ha : ?a ∈ ?S' |- ?q ≠ ?a =>
      intros ->; exact (Hd _ Hq Ha)
  end.

Ltac sep_solve :=
  lazymatch goal with
  | |- _ ∧ _ => split; sep_solve
  | |- True => exact I
  | |- _ ∉ _ ∪ _ => apply not_elem_of_union; split; sep_solve
  | |- _ ∉ {[ _ ]} => apply not_elem_of_singleton; sep_solve
  | |- _ ∉ ∅ => apply not_elem_of_empty
  | |- _ ∪ _ ## _ => apply disjoint_union_l; split; sep_solve
  | |- _ ## _ ∪ _ => apply disjoint_union_r; split; sep_solve
  | |- {[ _ ]} ## _ => apply disjoint_singleton_l; sep_solve
  | |- _ ## {[ _ ]} => apply disjoint_singleton_r; sep_solve
  | |- ∅ ## _ => apply disjoint_empty_l
  | |- _ ## ∅ => apply disjoint_empty_r
  | |- _ ≠ _ =>
      first [ assumption | apply not_eq_sym; assumption | congruence | ne_mem
            | apply rootp_ne; [ sep_solve | sep_solve ]
            | apply not_eq_sym, rootp_ne; [ sep_solve | sep_solve ]
            | apply croot_ne; [ sep_solve | sep_solve ]
            | apply not_eq_sym, croot_ne; [ sep_solve | sep_solve ] ]
  | |- _ ∉ _ => assumption
  | |- _ ## _ => first [ assumption | symmetry; assumption ]
  end.

Ltac solve_ne := sep_solve.

Ltac heap_simpl :=
  repeat first [ rewrite lookup_insert_eq
               | rewrite lookup_insert_ne by solve_ne ].

Ltac hlookup := heap_simpl; first [ eassumption | reflexivity ].

Ltac ptr_dec :=
  repeat first [ rewrite ptr_neb_refl | rewrite ptr_eqb_refl
               | rewrite ptr_neb_ne by solve_ne
               | rewrite ptr_eqb_ne by solve_ne ].

Ltac node_simpl :=
  cbn [val color left right p root nil_ self node_count fst snd
       set_left set_right set_p set_color set_val with_root with_nil with_count].

Ltac mstep :=
  first [ rewrite bind_bind
        | rewrite bind_ret
        | rewrite bind_this
        | rewrite bind_update
        | rewrite bind_andM
        | erewrite bind_fld by hlookup
        | erewrite bind_wr by hlookup
        | rewrite ret_ok
        | rewrite this_ok
        | rewrite update_ok
        | erewrite fld_ok by hlookup
        | erewrite wr_ok by hlookup ];
  node_simpl.

Ltac msteps := repeat (first [ mstep | progress ptr_dec ]; cbn iota).

Section FrameLemmas.
Context {V : Type}.
Implicit Types (h F : heap V) (t : shape V) (cx : ctx V).

Lemma framed_insert F h a n :
  framed F h → F !! a = None → framed F (<[a := n]> h).
Proof.
  intros Hf Ha q m Hq. rewrite lookup_insert_ne; [by apply Hf | congruence].
Qed.

Lemma framed_delete F h a :
  framed F h → F !! a = None → framed F (delete a h).
Proof.
  intros Hf Ha q m Hq. rewrite lookup_delete_ne; [by apply Hf | congruence].
Qed.

Lemma rep_reparent h h' nl t par par' :
  rep h nl t par →
  (∀ q, q ∈ ptrs t → q ≠ rootp nl t → h' !! q = h !! q) →
  (∀ n, t ≠ Lf → h !! rootp nl t = Some n →
        h' !! rootp nl t = Some (set_p par' n)) →
  rep h' nl t par'.
Proof.
  destruct t as [|c l a v r]; simpl; auto.
  intros (Ha & Hal & Har & Hlr & Hh & Hl & Hr) Heq Hroot.
  split_and!; auto.
  - rewrite (Hroot _ ltac:(done) Hh). done.
  - eapply rep_transfer; eauto. intros q Hq. apply Heq; set_solver.
  - eapply rep_transfer; eauto. intros q Hq. apply Heq; set_solver.
Qed.

End FrameLemmas.

Ltac rep_frame :=
  eapply rep_transfer; [ eassumption | intros ? ?; heap_simpl; reflexivity ].
Ltac ctx_frame :=
  eapply rep_ctx_transfer; [ eassumption | intros ? ?; heap_simpl; reflexivity ].

Ltac rep_goal :=
  lazymatch goal with
  | |- True => exact I
  | |- _ ≠ _ => sep_solve
  | |- _ ∉ _ => sep_solve
  | |- _ ## _ => sep_solve
  | |- _ !! _ = _ => hlookup
  | |- rep _ _ _ _ => first [ eassumption | rep_frame ]
  | |- rep_ctx _ _ _ _ => first [ eassumption | ctx_frame ]
  end.

Ltac in_union :=
  first [ assumption
        | apply elem_of_singleton_2; reflexivity
        | apply elem_of_union_l; in_union
        | apply elem_of_union_r; in_union ].

Ltac framed_goal Hs :=
  repeat (apply framed_insert; [ | apply Hs; solve [ in_union ] ]); try assumption.

Section OwnSteps.
Context {V : Type}.
Variable dflt : V.
Implicit Types (h F : heap V) (t : shape V) (cx : ctx V).

Lemma own_sep_facts F nl np cx t s cnt o h :
  own dflt F nl np (plug cx t) s cnt o h →
  sepc cx ∧ sep t ∧ ptrs t ## cptrs cx ∧ nl ∉ ptrs t ∧ nl ∉ cptrs cx.
Proof.
  intros [_ Hrep _ _ _ _].
  pose proof (rep_not_nil _ _ _ _ Hrep) as Hnn. rewrite ptrs_plug in Hnn.
  apply rep_sep, sep_plug in Hrep as (? & ? & ?).
  split_and!; auto; set_solver.
Qed.

Lemma own_nil_lookup F nl np T s cnt o h :
  own dflt F nl np T s cnt o h →
  h !! nl = Some (mkNode dflt Black nl nl np).
Proof. by intros []. Qed.

Lemma own_obj_eq F nl np T s cnt o h :
  own dflt F nl np T s cnt o h → o = mkTree s (rootp nl T) nl cnt.
Proof. by intros []. Qed.

(** Colouring the root of the tree black: the last statement of both
    fix-up loops. *)
Lemma own_blacken F nl np T s cnt o h :
  own dflt F nl np T s cnt o h →
  returns (wr (rootp nl T) (set_color Black) o h) (λ _ o' h',
    own dflt F nl np (blacken T) s cnt o' h').
Proof.
  intros Ho. destruct T as [|c l a v r].
  - simpl. erewrite wr_ok by (eapply own_nil_lookup; eauto). simpl.
    destruct Ho as [Hx Hrep Hn Hf Hs Hns]. constructor; auto.
    + by rewrite lookup_insert_eq.
    + by apply framed_insert.
  - simpl. erewrite wr_ok by (eapply (own_lookup dflt _ _ _ Top); eauto).
    simpl. by apply (own_recolor dflt Black _ _ _ Top) in Ho.
Qed.

End OwnSteps.

(** *** Stepping through code at the level of [own] *)

(** [zfind cx t a]: the position of the node [a] in the explicit part of
    [plug cx t], as a pair of a context and a subtree. *)
Ltac zfind cx t a :=
  match t with
  | Nd _ _ a _ _ => constr:((cx, t))
  | Nd ?c ?l ?b ?v ?r => zfind (CL c b v cx r) l a
  | Nd ?c ?l ?b ?v ?r => zfind (CR c l b v cx) r a
  end.

(** The same for a subtree [u]. *)
Ltac zfind_sub cx t u :=
  match t with
  | u => constr:((cx, t))
  | Nd ?c ?l ?b ?v ?r => zfind_sub (CL c b v cx r) l u
  | Nd ?c ?l ?b ?v ?r => zfind_sub (CR c l b v cx) r u
  end.

Ltac refocus H r :=
  lazymatch r with
  | (?cx', ?t') =>
      lazymatch type of H with
      | own ?d ?F ?nl ?np _ ?s ?cnt ?o ?h =>
          change (own d F nl np (plug cx' t') s cnt o h) in H
      end
  end.

(** Move the explicit frames of a context back into the tree. *)
Ltac zup cx t :=
  lazymatch cx with
  | CL ?c ?a ?v ?up ?r => zup up (Nd c t a v r)
  | CR ?c ?l ?a ?v ?up => zup up (Nd c l a v t)
  | _ => constr:((cx, t))
  end.

Ltac focus H a :=
  lazymatch type of H with
  | own _ _ _ _ (plug ?cx ?t) _ _ _ _ =>
      let r0 := zup cx t in
      lazymatch r0 with
      | (?cx0, ?t0) => let r := zfind cx0 t0 a in refocus H r
      end
  | own (V:=?V) _ _ _ _ ?T _ _ _ _ =>
      let r := zfind (@Top V) T a in refocus H r
  end.

Ltac focus_sub H u :=
  lazymatch type of H with
  | own _ _ _ _ (plug ?cx ?t) _ _ _ _ =>
      let r0 := zup cx t in
      lazymatch r0 with
      | (?cx0, ?t0) => let r := zfind_sub cx0 t0 u in refocus H r
      end
  | own (V:=?V) _ _ _ _ ?T _ _ _ _ =>
      let r := zfind_sub (@Top V) T u in refocus H r
  end.

Ltac abs_heap H :=
  lazymatch type of H with
  | own _ _ _ _ _ _ _ _ ?hh =>
      tryif is_var hh then idtac
      else (let h' := fresh "h" in set (h' := hh) in *; clearbody h')
  end.

Ltac own_simpl :=
  cbn [val color left right p root nil_ self node_count fst snd
       set_left set_right set_p set_color set_val with_root with_nil with_count
       rootp cpar croot tcolor color_eqb andb negb].

Ltac own_simpl_in H :=
  cbn [val color left right p root nil_ self node_count fst snd
       set_left set_right set_p set_color set_val with_root with_nil with_count
       rootp cpar croot tcolor color_eqb andb negb] in H.

(** One statement of the code, run against the hypothesis [H : own ...]
    that describes the current state. *)
Ltac ostep H :=
  lazymatch goal with
  | |- sat (bind (bind _ _) _ _ _) _ _ => rewrite bind_bind
  | |- sat (bind (ret _) _ _ _) _ _ => rewrite bind_ret
  | |- sat (bind (this _) _ _ _) _ _ => rewrite bind_this
  | |- sat (bind (update _) _ _ _) _ _ => rewrite bind_update
  | |- sat (bind (andM _ _) _ _ _) _ _ => rewrite bind_andM
  | |- sat (bind (fld color (rootp ?nl ?u)) ?k ?o ?h) _ _ =>
      focus_sub H u;
      let n := fresh "n" in let Hn := fresh "Hn" in let Hc := fresh "Hc" in
      destruct (own_root_color _ _ _ _ _ _ _ _ _ _ H) as (n & Hn & Hc);
      rewrite (bind_fld color _ n k o h Hn), Hc; clear n Hn Hc
  | |- sat (bind (fld ?f ?a) ?k ?o ?h) _ _ =>
      first
        [ focus H a;
          rewrite (bind_fld f a _ k o h
                     (own_lookup _ _ _ _ _ _ _ _ _ _ _ _ _ _ H))
        | rewrite (bind_fld f a _ k o h (own_nil_lookup _ _ _ _ _ _ _ _ _ H)) ]
  | |- sat (bind (wr ?a (set_color ?c')) ?k ?o ?h) _ _ =>
      focus H a;
      rewrite (bind_wr (set_color c') a _ k o h
                 (own_lookup _ _ _ _ _ _ _ _ _ _ _ _ _ _ H));
      apply (own_recolor _ c') in H; own_simpl; own_simpl_in H; abs_heap H
  end; own_simpl.

Ltac osteps H := repeat (first [ ostep H | progress ptr_dec ]; cbn iota).

(** A call of a function with an [own]-level specification [lem], on
    the node [a]. *)
Ltac ocall H lem a :=
  focus H a;
  first [ rewrite bind_bind | idtac ];
  eapply sat_bind; [ eapply lem; exact H | ];
  clear H;
  let o' := fresh "o" in let h' := fresh "h" in
  intros [] o' h' H; cbn beta;
  let E := fresh "E" in
  pose proof (own_obj_eq _ _ _ _ _ _ _ _ _ H) as E;
  rewrite ?rootp_plug in E; subst o'.

Ltac list_norm :=
  simpl; repeat (progress (rewrite <- ?app_assoc, <- ?app_comm_cons; simpl)).
Ltac same_elems := rewrite ?elems_plug; list_norm; reflexivity.
Ltac same_ptrs :=
  rewrite ?ptrs_plug; simpl; clear; set_solver.

Ltac destruct_ands :=
  repeat match goal with H : _ ∧ _ |- _ => destruct H end.

Ltac own_goal Hs :=
  constructor;
  [ rewrite ?rootp_plug; reflexivity
  | first [ apply rep_plug | idtac ]; simpl; split_and!; rep_goal
  | hlookup
  | framed_goal Hs
  | let q := fresh "q" in let Hq := fresh "Hq" in
    intros q Hq; apply Hs; rewrite ?ptrs_plug in *; simpl in *;
    clear -Hq; set_solver
  | assumption ].

Section Rotations.
Context {V : Type}.
Variable dflt : V.
Implicit Types (h F : heap V) (t : shape V) (cx : ctx V).

Lemma left_rotate_own F nl np cx c1 ta x vx c2 tb y vy tc s cnt o h :
  own dflt F nl np (plug cx (Nd c1 ta x vx (Nd c2 tb y vy tc))) s cnt o h →
  returns (left_rotate x o h) (λ _ o' h',
    own dflt F nl np (plug cx (Nd c2 (Nd c1 ta x vx tb) y vy tc)) s cnt o' h').
Proof.
  intros [Hx Hrep Hn Hf Hs Hns].
  pose proof (rep_not_nil _ _ _ _ Hrep) as Hnn.
  apply rep_plug in Hrep as (Hc & Hr & Hd).
  rewrite ptrs_plug in Hnn. rewrite ptrs_plug in Hs.
  subst o. unfold left_rotate. rewrite rootp_plug.
  destruct tb as [|cb bl b bv br]; destruct cx as [|pc pa pv up pr|pc pl pa pv up];
    simpl in *; sep_norm;
    msteps; unfold sat; own_goal Hs.
Qed.

Lemma right_rotate_own F nl np cx c1 ta x vx c2 tb y vy tc s cnt o h :
  own dflt F nl np (plug cx (Nd c2 (Nd c1 ta x vx tb) y vy tc)) s cnt o h →
  returns (right_rotate y o h) (λ _ o' h',
    own dflt F nl np (plug cx (Nd c1 ta x vx (Nd c2 tb y vy tc))) s cnt o' h').
Proof.
  intros [Hx Hrep Hn Hf Hs Hns].
  pose proof (rep_not_nil _ _ _ _ Hrep) as Hnn.
  apply rep_plug in Hrep as (Hc & Hr & Hd).
  rewrite ptrs_plug in Hnn. rewrite ptrs_plug in Hs.
  subst o. unfold right_rotate. rewrite rootp_plug.
  destruct tb as [|cb bl b bv br]; destruct cx as [|pc pa pv up pr|pc pl pa pv up];
    simpl in *; sep_norm;
    msteps; unfold sat; own_goal Hs.
Qed.

End Rotations.

(** ** Red-black shape: pure lemmas *)

Section Shape.
Context {V : Type}.
Implicit Types (t : shape V) (cx : ctx V).

Lemma rbt_plug cx t n m :
  rbc n cx m → rbt n t → (ccolor cx = Red → tcolor t = Black) →
  rbt m (plug cx t).
Proof.
  revert t n. induction cx as [|c a v up IH r|c l a v up IH]; intros t n; simpl.
  - by intros ->.
  - destruct c.
    + intros (Hr & Hup & Hrr & Hc) Ht Hcol. eapply IH; eauto.
      * simpl. auto.
      * rewrite Hup. done.
    + intros (Hrr & Hc) Ht _. eapply IH; eauto. simpl. auto. 
  - destruct c.
    + intros (Hr & Hup & Hrr & Hc) Ht Hcol. eapply IH; eauto.
      * simpl. auto.
      * rewrite Hup. done.
    + intros (Hrr & Hc) Ht _. eapply IH; eauto. simpl. auto.
Qed.

Lemma rbt_unplug cx t m :
  rbt m (plug cx t) →
  ∃ n, rbc n cx m ∧ rbt n t ∧ (ccolor cx = Red → tcolor t = Black).
Proof.
  revert t. induction cx as [|c a v up IH r|c l a v up IH]; intros t; simpl.
  - intros H. exists m. by split_and!.
  - intros H. apply IH in H as (n & Hc & Ht & Hcol). simpl in Ht, Hcol.
    destruct c.
    + destruct Ht as (Hl & Hr & Htl & Htr). exists n.
      destruct (ccolor up); [by discriminate Hcol | by split_and!].
    + destruct n as [|n]; [done|]. destruct Ht as (Htl & Htr).
      exists n. by split_and!.
  - intros H. apply IH in H as (n & Hc & Ht & Hcol). simpl in Ht, Hcol.
    destruct c.
    + destruct Ht as (Hl & Hr & Htl & Htr). exists n.
      destruct (ccolor up); [by discriminate Hcol | by split_and!].
    + destruct n as [|n]; [done|]. destruct Ht as (Htl & Htr).
      exists n. by split_and!.
Qed.

Lemma rbt_blacken t n : rbt n t → ∃ n', rbt n' (blacken t).
Proof.
  destruct t as [|[] l a v r]; simpl.
  - eauto.
  - intros (_ & _ & Hl & Hr). exists (S n). auto.
  - eauto.
Qed.

Lemma tcolor_blacken t : tcolor (blacken t) = Black.
Proof. by destruct t. Qed.

Lemma elems_blacken t : elems (blacken t) = elems t.
Proof. by destruct t. Qed.

Lemma ptrs_blacken t : ptrs (blacken t) = ptrs t.
Proof. by destruct t. Qed.

Lemma rootp_blacken nl t : rootp nl (blacken t) = rootp nl t.
Proof. by destruct t. Qed.

Lemma tcolor_plug cx t : cx ≠ Top → tcolor (plug cx t) = tcolor (plug cx Lf).
Proof.
  revert t. induction cx as [|c a v up IH r|c l a v up IH]; intros t H; simpl.
  - done.
  - destruct up; [done| |]; rewrite IH; try done; symmetry; by rewrite IH.
  - destruct up; [done| |]; rewrite IH; try done; symmetry; by rewrite IH.
Qed.

Lemma cblack_plug cx t : tcolor (plug cx t) = Black → cx ≠ Top → cblack cx.
Proof.
  revert t. induction cx as [|c a v up IH r|c l a v up IH]; intros t; simpl.
  - done.
  - intros H _. destruct up; [done| |]; eapply IH; eauto.
  - intros H _. destruct up; [done| |]; eapply IH; eauto.
Qed.

Lemma cblack_top_plug cx t :
  tcolor (plug cx t) = Black → cblack cx.
Proof.
  intros H. destruct cx; [done| |]; eapply cblack_plug; eauto.
Qed.

End Shape.

(** ** Insertion fix-up *)

Section InsertFixup.
Context {V : Type}.
Variable dflt : V.
Implicit Types (h F : heap V) (t : shape V) (cx : ctx V).

Definition fixed (F : heap V) nl np s cnt (T0 : shape V) : unit → Rb_tree → heap V → Prop :=
  λ _ o' h', ∃ T' m',
    own dflt F nl np T' s cnt o' h' ∧ rbt m' T' ∧ tcolor T' = Black
    ∧ elems T' = elems T0 ∧ ptrs T' = ptrs T0.

Lemma fixed_blacken F nl np s cnt T T0 m o h :
  own dflt F nl np T s cnt o h → rbt m T →
  elems T = elems T0 → ptrs T = ptrs T0 →
  returns (wr (rootp nl T) (set_color Black) o h) (fixed F nl np s cnt T0).
Proof.
  intros Ho Hrb He Hp.
  eapply returns_mono; [eapply own_blacken; eauto|].
  intros [] o' h' Ho'. destruct (rbt_blacken _ _ Hrb) as (m' & Hm').
  exists (blacken T), m'. split_and!; auto.
  - apply tcolor_blacken.
  - by rewrite elems_blacken.
  - by rewrite ptrs_blacken.
Qed.

Lemma fixed_eq F nl np s cnt (T1 T0 : shape V) :
  elems T1 = elems T0 → ptrs T1 = ptrs T0 →
  ∀ u o h, fixed F nl np s cnt T1 u o h → fixed F nl np s cnt T0 u o h.
Proof.
  intros He Hp u o h (T' & m' & Ho & Hrb & Hc & He' & Hp').
  exists T', m'. split_and!; auto; congruence.
Qed.

Ltac rb_split := repeat match goal with |- _ ∧ _ => split end.

Ltac rb_solve :=
  simpl in *; destruct_ands; subst; rb_split; simpl; eauto;
  try done; try lia;
  try (rb_split; simpl; eauto; done);
  try match goal with
      | H : match ?u with Top => _ | _ => _ end |- cblack ?u =>
          destruct u; simpl in *; done
      end.

Ltac use_IH IH H a :=
  focus H a;
  eapply returns_mono;
    [ eapply IH; [ | exact H | .. ]; rb_solve
    | apply fixed_eq; [ same_elems | same_ptrs ] ].

Lemma insert_fixup_own fuel : ∀ cx l a v r n m F nl np s cnt o h,
  (cdepth cx < fuel)%nat →
  own dflt F nl np (plug cx (Nd Red l a v r)) s cnt o h →
  rbt n l → rbt n r → tcolor l = Black → tcolor r = Black →
  rbc n cx m → cblack cx →
  returns (insert_fixup fuel a o h)
    (fixed F nl np s cnt (plug cx (Nd Red l a v r))).
Proof.
  induction fuel as [|fuel IH]; intros cx l a v r n m F nl np s cnt o h Hfuel Ho Hl Hr Hcl Hcr Hc Hb;
    [lia|].
  pose proof (own_obj_eq _ _ _ _ _ _ _ _ _ Ho) as ->.
  pose proof (own_sep_facts _ _ _ _ _ _ _ _ _ _ Ho) as Hsep.
  simpl insert_fixup.
  destruct cx as [|pc pa pv up pr|pc pl pa pv up].
  - (* the node is the root *)
    osteps Ho.
    eapply fixed_blacken; eauto. simpl. by rewrite Hcl, Hcr.
  - destruct pc.
    + (* red parent, node on its left *)
      simpl in Hc. destruct Hc as (Hpr & Hup & Hrpr & Hc).
      destruct up as [|gc g gv up2 u|gc ul g gv up2]; simpl in Hb, Hup; try done; subst gc;
        simpl in Hc; destruct Hc as (Hu & Hc); simpl in Hsep; sep_norm.
      * (* parent on the left of the grandparent *)
        osteps Ho. unfold rebalance_left. osteps Ho.
        destruct u as [|[] ul ua uv ur]; own_simpl; cbn iota; cbn [ptrs] in *; sep_norm.
        -- osteps Ho. ocall Ho (right_rotate_own dflt) g. osteps Ho.
           use_IH IH Ho a.
        -- osteps Ho. use_IH IH Ho g.
        -- osteps Ho. ocall Ho (right_rotate_own dflt) g. osteps Ho.
           use_IH IH Ho a.
      * (* parent on the right of the grandparent *)
        osteps Ho. unfold rebalance_right. osteps Ho.
        destruct ul as [|[] ull ua uv ulr]; own_simpl; cbn iota; cbn [ptrs] in *; sep_norm.
        -- osteps Ho. ocall Ho (right_rotate_own dflt) pa. osteps Ho.
           ocall Ho (left_rotate_own dflt) g. osteps Ho.
           use_IH IH Ho pa.
        -- osteps Ho. use_IH IH Ho g.
        -- osteps Ho. ocall Ho (right_rotate_own dflt) pa. osteps Ho.
           ocall Ho (left_rotate_own dflt) g. osteps Ho.
           use_IH IH Ho pa.
    + (* black parent *)
      osteps Ho.
      eapply fixed_blacken; eauto.
      eapply rbt_plug; [exact Hc | simpl; by rewrite Hcl, Hcr | done].
  - destruct pc.
    + (* red parent, node on its right *)
      simpl in Hc. destruct Hc as (Hpr & Hup & Hrpr & Hc).
      destruct up as [|gc g gv up2 u|gc ul g gv up2]; simpl in Hb, Hup; try done; subst gc;
        simpl in Hc; destruct Hc as (Hu & Hc); simpl in Hsep; sep_norm.
      * osteps Ho. unfold rebalance_left. osteps Ho.
        destruct u as [|[] ul ua uv ur]; own_simpl; cbn iota; cbn [ptrs] in *; sep_norm.
        -- osteps Ho. ocall Ho (left_rotate_own dflt) pa. osteps Ho.
           ocall Ho (right_rotate_own dflt) g. osteps Ho.
           use_IH IH Ho pa.
        -- osteps Ho. use_IH IH Ho g.
        -- osteps Ho. ocall Ho (left_rotate_own dflt) pa. osteps Ho.
           ocall Ho (right_rotate_own dflt) g. osteps Ho.
           use_IH IH Ho pa.
      * osteps Ho. unfold rebalance_right. osteps Ho.
        destruct ul as [|[] ull ua uv ulr]; own_simpl; cbn iota; cbn [ptrs] in *; sep_norm.
        -- osteps Ho. ocall Ho (left_rotate_own dflt) g. osteps Ho.
           use_IH IH Ho a.
        -- osteps Ho. use_IH IH Ho g.
        -- osteps Ho. ocall Ho (left_rotate_own dflt) g. osteps Ho.
           use_IH IH Ho a.
    + osteps Ho.
      eapply fixed_blacken; eauto.
      eapply rbt_plug; [exact Hc | simpl; by rewrite Hcl, Hcr | done].
Qed.

End InsertFixup.

(** ** Descent *)

Section DescendLemmas.
Context {V : Type}.
Variable kov : V → Z.
Variable dflt : V.
Implicit Types (h F : heap V) (t : shape V) (cx : ctx V).

Lemma descend_plug key u cx t :
  plug (descend kov key u cx t).1.1 (descend kov key u cx t).1.2 = plug cx t.
Proof.
  revert cx. induction t as [|c l IHl a v r IHr]; intros cx; simpl; auto.
  destruct (u && _ && _); simpl; auto.
  destruct (comp key (kov v)); [rewrite IHl | rewrite IHr]; done.
Qed.

Lemma descend_created key u cx t :
  (descend kov key u cx t).2 = true → (descend kov key u cx t).1.2 = Lf.
Proof.
  revert cx. induction t as [|c l IHl a v r IHr]; intros cx; simpl; auto.
  destruct (u && _ && _); simpl; [done|].
  destruct (comp key (kov v)); auto.
Qed.

Lemma descend_found key u cx t :
  (descend kov key u cx t).2 = false →
  u = true ∧ ∃ c l a v r, (descend kov key u cx t).1.2 = Nd c l a v r
                          ∧ kov v = key.
Proof.
  revert cx. induction t as [|c l IHl a v r IHr]; intros cx; simpl; [done|].
  destruct (u && _ && _) eqn:E; simpl.
  - intros _. apply andb_prop in E as [E1 E3]. apply andb_prop in E1 as [E1 E2].
    split; [done|]. exists c, l, a, v, r. split; [done|].
    unfold comp in *. lia.
  - destruct (comp key (kov v)); auto.
Qed.

Lemma descend_depth key u cx t :
  (cdepth (descend kov key u cx t).1.1 ≤ cdepth cx + tsize t)%nat.
Proof.
  revert cx. induction t as [|c l IHl a v r IHr]; intros cx; simpl; [lia|].
  destruct (u && _ && _); simpl; [lia|].
  destruct (comp key (kov v)).
  - specialize (IHl (CL c a v cx r)). simpl in IHl. lia.
  - specialize (IHr (CR c l a v cx)). simpl in IHr. lia.
Qed.

(** Where the new node goes: everything before it has a key that is not
    greater, everything after it a greater key. *)
Lemma descend_bounds key u cx t :
  ordered kov t →
  Forall (λ k, k ≤ key) (keys kov (cleft cx)) →
  Forall (λ k, key < k) (keys kov (cright cx)) →
  (descend kov key u cx t).2 = true →
  Forall (λ k, k ≤ key) (keys kov (cleft (descend kov key u cx t).1.1))
  ∧ Forall (λ k, key < k) (keys kov (cright (descend kov key u cx t).1.1)).
Proof.
  revert cx. induction t as [|c l IHl a v r IHr]; intros cx; simpl; auto.
  unfold ordered, keys. simpl. rewrite map_app. simpl.
  intros Ho Hl Hr. destruct (u && _ && _); simpl; [done|].
  apply StronglySorted_app in Ho as (Hlr & Hol & Hor).
  apply StronglySorted_cons in Hor as [Hvr Hor].
  destruct (comp key (kov v)) eqn:E; unfold comp in E.
  - apply IHl; auto. unfold keys. simpl. rewrite map_app.
    constructor; [lia|]. apply Forall_app. split; auto.
    eapply Forall_impl; [exact Hvr|]. simpl. intros. lia.
  - apply IHr; auto. unfold keys. simpl. rewrite !map_app. simpl.
    apply Forall_app. split; auto. apply Forall_app. split.
    + apply Forall_forall. intros k Hk.
      assert (k ≤ kov v); [|lia].
      apply Hlr; [done | by left].
    + constructor; [lia | constructor].
Qed.

(** With unique keys the keys before the new node are strictly smaller. *)
Lemma descend_bounds_strict key cx t :
  ordered kov t →
  Forall (λ k, k < key) (keys kov (cleft cx)) →
  (descend kov key true cx t).2 = true →
  Forall (λ k, k < key) (keys kov (cleft (descend kov key true cx t).1.1)).
Proof.
  revert cx. induction t as [|c l IHl a v r IHr]; intros cx; simpl; auto.
  unfold ordered, keys. simpl. rewrite map_app. simpl.
  intros Ho Hl. destruct (negb _ && _) eqn:E0; simpl; [done|].
  apply StronglySorted_app in Ho as (Hlr & Hol & Hor).
  apply StronglySorted_cons in Hor as [Hvr Hor].
  destruct (comp key (kov v)) eqn:E; unfold comp in *.
  - apply IHl; auto.
  - apply IHr; auto. unfold keys. simpl. rewrite !map_app. simpl.
    assert (kov v < key) by (simpl in E0; lia).
    apply Forall_app. split; auto. apply Forall_app. split.
    + apply Forall_forall. intros k Hk.
      assert (k ≤ kov v); [|lia].
      apply Hlr; [done | by left].
    + constructor; [lia | constructor].
Qed.

End DescendLemmas.

(** ** Insertion *)

Section Insert.
Context {V : Type}.
Variable kov : V → Z.
Variable dflt : V.
Variable alloc : heap V → option ptr.
Implicit Types (h F : heap V) (t : shape V) (cx : ctx V).

(** What the loops of [find_or_create] and [insert_node] return for the
    result of [descend]. *)
Definition found_at (nl : ptr) (d : ctx V * shape V * bool) : ptr * ptr * bool :=
  (if d.2 then cpar nl d.1.1 else rootp nl d.1.2, rootp nl d.1.2, d.2).

Lemma find_or_create_loop_own fuel : ∀ key u F nl np cx t s cnt o h,
  (tsize t < fuel)%nat →
  own dflt F nl np (plug cx t) s cnt o h →
  find_or_create_loop kov fuel key u (cpar nl cx) (rootp nl t) o h
  = Ok (found_at nl (descend kov key u cx t)) o h.
Proof.
  induction fuel as [|fuel IH]; intros key u F nl np cx t s cnt o h Hfuel Ho; [lia|].
  pose proof (own_obj_eq _ _ _ _ _ _ _ _ _ Ho) as ->.
  pose proof (own_sep_facts _ _ _ _ _ _ _ _ _ _ Ho) as Hsep.
  simpl find_or_create_loop. rewrite bind_this. cbn [nil_].
  destruct t as [|c l a v r].
  - simpl. by rewrite ptr_neb_refl.
  - simpl in Hsep. sep_norm. cbn [rootp]. ptr_dec.
    focus Ho a.
    rewrite (bind_fld val a _ _ _ _ (own_lookup _ _ _ _ _ _ _ _ _ _ _ _ _ _ Ho)).
    cbn [val descend].
    destruct (u && _ && _); [reflexivity|].
    destruct (comp key (kov v)).
    + rewrite (bind_fld left a _ _ _ _ (own_lookup _ _ _ _ _ _ _ _ _ _ _ _ _ _ Ho)).
      cbn [left]. apply (IH key u F nl np (CL c a v cx r) l s cnt); [simpl in Hfuel; lia|done].
    + rewrite (bind_fld right a _ _ _ _ (own_lookup _ _ _ _ _ _ _ _ _ _ _ _ _ _ Ho)).
      cbn [right]. apply (IH key u F nl np (CR c l a v cx) r s cnt); [simpl in Hfuel; lia|done].
Qed.

Lemma bind_fld_ext {X A B} (f : Node V → A) a (k1 k2 : A → M V X B) x h :
  (∀ b, k1 b x h = k2 b x h) →
  bind (fld f a) k1 x h = bind (fld f a) k2 x h.
Proof.
  intros H. unfold bind at 1 2. unfold fld, bind, rd, ret.
  destruct (h !! a); auto.
Qed.

(** [insert_node] descends like [find_or_create], with the key of the
    node. *)
Lemma insert_node_loop_eq fuel : ∀ node n u father cur (o : Rb_tree) h,
  h !! node = Some n →
  insert_node_loop kov fuel node u father cur o h
  = (let* r := find_or_create_loop kov fuel (kov (val n)) u father cur in
     ret (fst (fst r), snd r)) o h.
Proof.
  induction fuel as [|fuel IH]; intros node n u father cur o h Hn; [done|].
  simpl. rewrite !bind_bind, !bind_this.
  destruct (ptr_neb cur (nil_ o)); [|by rewrite bind_ret].
  rewrite (bind_fld val node n _ _ _ Hn), bind_bind.
  apply bind_fld_ext. intros cv.
  destruct (u && _ && _); [by rewrite bind_ret|].
  rewrite bind_bind.
  destruct (comp _ _); apply bind_fld_ext; intros next; by apply IH.
Qed.

Lemma link_new_node_own F nl np cx a n v s cnt o h :
  own dflt F nl np (plug cx Lf) s cnt o h →
  h !! a = Some n → val n = v → color n = Red →
  a ≠ nl → a ∉ cptrs cx → F !! a = None →
  match cx with
  | Top => True
  | CL _ _ pv _ _ => comp (kov v) (kov pv) = true
  | CR _ _ _ pv _ => comp (kov v) (kov pv) = false
  end →
  returns (link_new_node kov (cpar nl cx) a o h) (λ _ o' h',
    own dflt F nl np
      (plug cx (Nd (match cx with Top => Black | _ => Red end) Lf a v Lf))
      s cnt o' h').
Proof.
  intros [Hx Hrep Hn Hf Hs Hns] Ha Hv Hc Hanl Hacx HFa Hside.
  pose proof (rep_not_nil _ _ _ _ Hrep) as Hnn.
  apply rep_plug in Hrep as (Hcx & _ & _).
  rewrite ptrs_plug in Hnn. rewrite ptrs_plug in Hs.
  subst o. unfold link_new_node. rewrite rootp_plug.
  destruct n as [v0 c0 l0 r0 p0]. simpl in Hv, Hc. subst v0 c0.
  destruct cx as [|pc pa pv up pr|pc pl pa pv up];
    simpl in *; sep_norm; msteps; rewrite ?Hside; msteps; unfold sat;
    (constructor;
     [ rewrite ?rootp_plug; reflexivity
     | first [ apply rep_plug | idtac ]; simpl; split_and!; rep_goal
     | hlookup
     | repeat (apply framed_insert; [ | first [ assumption | apply Hs; solve [ in_union ] ] ]); assumption
     | let q := fresh "q" in let Hq := fresh "Hq" in
       intros q Hq; destruct (decide (q = a)) as [->|Hne]; [assumption|];
       apply Hs; rewrite ?ptrs_plug in *; simpl in *; clear -Hq Hne; set_solver
     | assumption ]).
Qed.

Lemma rep_live h nl t par q : rep h nl t par → q ∈ ptrs t → is_Some (h !! q).
Proof.
  revert par. induction t as [|c l IHl a v r IHr]; intros par; simpl.
  - set_solver.
  - intros (Ha & Hal & Har & Hlr & Hh & Hl & Hr) Hq.
    apply elem_of_union in Hq as [Hq|Hq]; [apply elem_of_union in Hq as [Hq|Hq]|]; eauto.
    apply elem_of_singleton in Hq as ->. eauto.
Qed.

Lemma own_live F nl np T s cnt o h q :
  own dflt F nl np T s cnt o h → q ∈ ptrs T → is_Some (h !! q).
Proof. intros [_ Hrep _ _ _ _]. by eapply rep_live. Qed.

(** A freshly allocated cell does not disturb the tree. *)
Lemma own_alloc F nl np T s cnt o h a n :
  own dflt F nl np T s cnt o h → h !! a = None →
  own dflt F nl np T s cnt o (<[a := n]> h)
  ∧ a ≠ nl ∧ a ∉ ptrs T ∧ F !! a = None.
Proof.
  intros Ho Ha.
  assert (a ≠ nl) as Hnl.
  { intros ->. destruct Ho as [_ _ Hn _ _ _]. congruence. }
  assert (a ∉ ptrs T) as HaT.
  { intros Hq. destruct (own_live _ _ _ _ _ _ _ _ _ Ho Hq) as [m Hm]. congruence. }
  assert (F !! a = None) as HF.
  { destruct (F !! a) eqn:E; [|done]. destruct Ho as [_ _ _ Hf _ _].
    apply Hf in E. congruence. }
  split_and!; auto.
  destruct Ho as [Hx Hrep Hn Hf Hs Hns]. constructor; auto.
  - eapply rep_transfer; eauto. intros q Hq.
    rewrite lookup_insert_ne; [done|]. intros <-. done.
  - rewrite lookup_insert_ne; [done|]. done.
  - by apply framed_insert.
Qed.

(** The side of the parent on which [link_new_node] hangs a node of key
    [key], at the position found by [descend]. *)
Definition side (key : Z) (cx : ctx V) : Prop :=
  match cx with
  | Top => True
  | CL _ _ pv _ _ => comp key (kov pv) = true
  | CR _ _ _ pv _ => comp key (kov pv) = false
  end.

Lemma descend_side key u cx t :
  side key cx → (descend kov key u cx t).2 = true →
  side key (descend kov key u cx t).1.1.
Proof.
  revert cx. induction t as [|c l IHl a v r IHr]; intros cx; simpl; auto.
  intros Hs. destruct (u && _ && _); simpl; [done|].
  destruct (comp key (kov v)) eqn:E; [apply IHl | apply IHr]; done.
Qed.

Definition inserted (F : heap V) nl np s cnt (cx : ctx V) (a : ptr) (v : V)
  : unit → Rb_tree → heap V → Prop :=
  λ _ o' h', ∃ T' m',
    own dflt F nl np T' s cnt o' h' ∧ rbt m' T' ∧ tcolor T' = Black
    ∧ elems T' = cleft cx ++ (a, v) :: cright cx
    ∧ ptrs T' = {[a]} ∪ cptrs cx.

Lemma inserted_of_fixed F nl np s cnt cx (a : ptr) (v : V) c u o h :
  fixed dflt F nl np s cnt (plug cx (Nd c Lf a v Lf)) u o h →
  inserted F nl np s cnt cx a v u o h.
Proof.
  intros (T' & m' & Ho & Hrb & Hc & He & Hp). exists T', m'.
  split_and!; auto.
  - rewrite He, elems_plug. done.
  - rewrite Hp, ptrs_plug. simpl. clear. set_solver.
Qed.

Lemma fixup_new_own fuel F nl np cx a v m s cnt o h :
  (cdepth cx < fuel)%nat →
  own dflt F nl np
    (plug cx (Nd (match cx with Top => Black | _ => Red end) Lf a v Lf))
    s cnt o h →
  rbt m (plug cx Lf) → tcolor (plug cx Lf) = Black →
  returns
    ((let* b := needs_fixup a in
      if b then insert_fixup fuel a else ret tt) o h)
    (inserted F nl np s cnt cx a v).
Proof.
  intros Hfuel Ho Hrb Hblk.
  apply rbt_unplug in Hrb as (k & Hrbc & Hk & _). simpl in Hk. subst k.
  pose proof (cblack_top_plug _ _ Hblk) as Hcb.
  pose proof (own_obj_eq _ _ _ _ _ _ _ _ _ Ho) as ->.
  pose proof (own_sep_facts _ _ _ _ _ _ _ _ _ _ Ho) as Hsep.
  unfold needs_fixup.
  destruct cx as [|pc pa pv up pr|pc pl pa pv up]; simpl in Hsep; sep_norm.
  - osteps Ho. unfold sat. eapply inserted_of_fixed.
    exists (Nd Black Lf a v Lf), 1%nat. by split_and!.
  - destruct pc.
    + simpl in Hrbc. destruct Hrbc as (Hpr & Hup & Hrpr & Hrbc).
      destruct up as [|gc g gv up2 u|gc ul g gv up2]; simpl in Hcb; try done;
        cbn [cptrs ptrs sepc sep] in *; sep_norm; osteps Ho;
        (eapply returns_mono;
          [ eapply (insert_fixup_own dflt fuel _ Lf a v Lf 0%nat m); eauto;
            simpl; auto
          | intros; eapply inserted_of_fixed; eauto ]).
    + osteps Ho. unfold sat. eapply inserted_of_fixed.
      eexists _, m. split_and!; eauto.
      * change (rbt m (plug (CL Black pa pv up pr) (Nd Red Lf a v Lf))).
        eapply rbt_plug; eauto. by simpl.
      * change (tcolor (plug (CL Black pa pv up pr) (Nd Red Lf a v Lf)) = Black).
        rewrite tcolor_plug by done. exact Hblk.
  - destruct pc.
    + simpl in Hrbc. destruct Hrbc as (Hpr & Hup & Hrpr & Hrbc).
      destruct up as [|gc g gv up2 u|gc ul g gv up2]; simpl in Hcb; try done;
        cbn [cptrs ptrs sepc sep] in *; sep_norm; osteps Ho;
        (eapply returns_mono;
          [ eapply (insert_fixup_own dflt fuel _ Lf a v Lf 0%nat m); eauto;
            simpl; auto
          | intros; eapply inserted_of_fixed; eauto ]).
    + osteps Ho. unfold sat. eapply inserted_of_fixed.
      eexists _, m. split_and!; eauto.
      * change (rbt m (plug (CR Black pl pa pv up) (Nd Red Lf a v Lf))).
        eapply rbt_plug; eauto. by simpl.
      * change (tcolor (plug (CR Black pl pa pv up) (Nd Red Lf a v Lf)) = Black).
        rewrite tcolor_plug by done. exact Hblk.
Qed.

Lemma own_set_count cnt' F nl np T s cnt o h :
  own dflt F nl np T s cnt o h →
  own dflt F nl np T s cnt' (with_count cnt' o) h.
Proof. intros [-> Hrep Hn Hf Hs Hns]. by constructor. Qed.

Hypothesis alloc_fresh : ∀ h a, alloc h = Some a → h !! a = None.

Lemma create_node_sat {X} v (x : X) h :
  sat (create_node alloc v x h)
    (λ a x' h', x' = x ∧ h !! a = None
                ∧ h' = <[a := mkNode v Red nullptr nullptr nullptr]> h)
    (λ x' h', x' = x ∧ h' = h ∧ alloc h = None).
Proof.
  unfold create_node. destruct (alloc h) as [a|] eqn:E; simpl; auto.
Qed.

Definition insert_post (F : heap V) nl np (T : shape V) s cnt (v : V) (u : bool)
    (o h : _) : ptr * bool → Rb_tree → heap V → Prop :=
  λ res o' h',
    let d := descend kov (kov v) u Top T in
    if d.2 then
      ∃ a T' m', res = (a, true) ∧ h !! a = None
        ∧ own dflt F nl np T' s (wrap (cnt + 1)) o' h'
        ∧ rbt m' T' ∧ tcolor T' = Black
        ∧ elems T' = cleft d.1.1 ++ (a, v) :: cright d.1.1
        ∧ ptrs T' = {[a]} ∪ ptrs T
    else res = (rootp nl d.1.2, false) ∧ o' = o ∧ h' = h.

Lemma insert_own fuel F nl np T m s cnt o h v u :
  (tsize T < fuel)%nat →
  own dflt F nl np T s cnt o h → rbt m T → tcolor T = Black →
  sat (insert kov alloc fuel (kov v) v u o h)
    (insert_post F nl np T s cnt v u o h)
    (λ o' h', o' = o ∧ h' = h
              ∧ (descend kov (kov v) u Top T).2 = true ∧ alloc h = None).
Proof.
  intros Hfuel Ho Hrb Hblk. unfold insert_post.
  pose proof (find_or_create_loop_own fuel (kov v) u F nl np Top T s cnt o h
                Hfuel Ho) as Hloop.
  pose proof (own_obj_eq _ _ _ _ _ _ _ _ _ Ho) as Eo.
  pose proof (descend_plug kov (kov v) u Top T) as Hplug.
  pose proof (descend_created kov (kov v) u Top T) as Hcr.
  pose proof (descend_depth kov (kov v) u Top T) as Hdep.
  pose proof (descend_side (kov v) u Top T I) as Hside.
  destruct (descend kov (kov v) u Top T) as [[cx t] b]. simpl in *.
  unfold insert, find_or_create.
  rewrite !bind_bind, bind_this. rewrite bind_bind, bind_this.
  rewrite bind_bind. rewrite Eo at 1 2. cbn [nil_ root].
  rewrite (bind_ok _ _ _ _ _ _ _ Hloop).
  unfold found_at. cbn [fst snd].
  destruct b.
  - rewrite (Hcr eq_refl) in *. clear Hcr.
    rewrite bind_bind.
    eapply sat_bind_gen; [apply create_node_sat| |].
    2:{ intros o' h' (-> & -> & Hnone). done. }
    intros a o' h' (-> & Ha & ->). cbn beta.
    destruct (own_alloc _ _ _ _ _ _ _ _ a
                (mkNode v Red nullptr nullptr nullptr) Ho Ha)
      as (Ho' & Hanl & HaT & HFa).
    rewrite <- Hplug in Ho', Hrb, Hblk, HaT. rewrite ptrs_plug in HaT.
    rewrite !bind_bind.
    assert (a ∉ cptrs cx) as Hacx by (clear -HaT; set_solver).
    eapply sat_bind_gen;
      [eapply (link_new_node_own F nl np cx a _ v);
         [ exact Ho' | apply lookup_insert_eq | reflexivity | reflexivity
         | exact Hanl | exact Hacx | exact HFa | by apply Hside ]
      | | by intros ? ? []].
    intros [] o1 h1 Ho1. cbn beta.
    rewrite bind_ret. cbn [fst snd]. rewrite !bind_bind.
    rewrite bind_under_assoc.
    eapply sat_bind_gen;
      [eapply fixup_new_own; eauto; lia | | by intros ? ? []].
    intros [] o2 h2 (T' & m' & Ho2 & Hrb2 & Hblk2 & He2 & Hp2). cbn beta.
    rewrite bind_update, ret_ok. simpl.
    exists a, T', m'. split_and!; auto.
    + pose proof (own_obj_eq _ _ _ _ _ _ _ _ _ Ho2) as ->.
      by apply (own_set_count (wrap (cnt + 1))) in Ho2.
    + rewrite Hp2, <- Hplug, ptrs_plug. simpl. clear. set_solver.
  - rewrite !bind_ret. cbn [fst snd]. rewrite bind_ret. simpl. done.
Qed.

Definition insert_node_post (F : heap V) nl np (T : shape V) s cnt (a : ptr)
    (v : V) (u : bool) (o h : _) : bool → Rb_tree → heap V → Prop :=
  λ b o' h',
    let d := descend kov (kov v) u Top T in
    b = d.2 ∧
    if d.2 then
      ∃ T' m', own dflt F nl np T' s cnt o' h'
        ∧ rbt m' T' ∧ tcolor T' = Black
        ∧ elems T' = cleft d.1.1 ++ (a, v) :: cright d.1.1
        ∧ ptrs T' = {[a]} ∪ ptrs T
    else o' = o ∧ h' = h.

Lemma insert_node_own fuel F nl np T m s cnt o h a n v u :
  (tsize T < fuel)%nat →
  own dflt F nl np T s cnt o h → rbt m T → tcolor T = Black →
  h !! a = Some n → val n = v → color n = Red →
  a ≠ nl → a ∉ ptrs T → F !! a = None →
  returns (insert_node kov fuel a u o h)
    (insert_node_post F nl np T s cnt a v u o h).
Proof.
  intros Hfuel Ho Hrb Hblk Ha Hv Hc Hanl HaT HFa. unfold insert_node_post.
  pose proof (find_or_create_loop_own fuel (kov v) u F nl np Top T s cnt o h
                Hfuel Ho) as Hloop.
  pose proof (own_obj_eq _ _ _ _ _ _ _ _ _ Ho) as Eo.
  pose proof (descend_plug kov (kov v) u Top T) as Hplug.
  pose proof (descend_created kov (kov v) u Top T) as Hcr.
  pose proof (descend_depth kov (kov v) u Top T) as Hdep.
  pose proof (descend_side (kov v) u Top T I) as Hside.
  destruct (descend kov (kov v) u Top T) as [[cx t] b]. simpl in *.
  unfold insert_node.
  rewrite bind_this. rewrite bind_this.
  rewrite (bind_congr _ _ _ _ _ (insert_node_loop_eq fuel a n u _ _ o h Ha)), Hv.
  rewrite Eo at 1 2. cbn [nil_ root].
  rewrite bind_bind, (bind_ok _ _ _ _ _ _ _ Hloop), bind_ret.
  unfold found_at. cbn [fst snd].
  destruct b.
  - rewrite (Hcr eq_refl) in *. clear Hcr.
    rewrite <- Hplug in Ho, Hrb, Hblk, HaT. rewrite ptrs_plug in HaT.
    assert (a ∉ cptrs cx) as Hacx by (clear -HaT; set_solver).
    rewrite !bind_bind.
    eapply sat_bind;
      [eapply (link_new_node_own F nl np cx a _ v);
         [ exact Ho | exact Ha | exact Hv | exact Hc
         | exact Hanl | exact Hacx | exact HFa | by apply Hside ] | ].
    intros [] o1 h1 Ho1. cbn beta.
    eapply sat_bind; [eapply fixup_new_own; eauto; lia | ].
    intros [] o2 h2 (T' & m' & Ho2 & Hrb2 & Hblk2 & He2 & Hp2). cbn beta.
    rewrite ret_ok. simpl. split; [done|].
    exists T', m'. split_and!; auto.
    rewrite Hp2, <- Hplug, ptrs_plug. simpl. clear. set_solver.
  - rewrite !bind_ret. rewrite ret_ok. simpl. done.
Qed.

End Insert.

(** ** Deletion fix-up *)

Ltac rb_split := repeat match goal with |- _ ∧ _ => split end.

Ltac rb_solve :=
  simpl in *; destruct_ands; subst; rb_split; simpl; eauto;
  try done; try lia;
  try (rb_split; simpl; eauto; done);
  try match goal with
      | H : match ?u with Top => _ | _ => _ end |- cblack ?u =>
          destruct u; simpl in *; done
      end.

Section ShapeMore.
Context {V : Type}.
Implicit Types (t : shape V) (cx : ctx V).

Lemma rbt_deficit t m : rbt m t → deficit m t.
Proof.
  unfold deficit. destruct t as [|[] l a v r]; simpl; auto.
  intros (_ & _ & Hl & Hr). auto.
Qed.

Lemma deficit_blacken t n : deficit n t → ∃ k, rbt k (blacken t).
Proof.
  unfold deficit. destruct t as [|[] l a v r]; simpl; intros H.
  - by exists n.
  - by exists (S n).
  - by exists n.
Qed.

Lemma cblack_tcolor cx t : cblack cx → cx ≠ Top → tcolor (plug cx t) = Black.
Proof.
  revert t. induction cx as [|c a v up IH r|c l a v up IH]; intros t; simpl.
  - done.
  - intros H _. destruct up; [by subst| |]; apply IH; done.
  - intros H _. destruct up; [by subst| |]; apply IH; done.
Qed.

Lemma plug_nd_ne cx c l a v r : plug cx (Nd c l a v r) ≠ Lf.
Proof.
  revert c l a v r. induction cx as [|c' a' v' up IH r'|c' l' a' v' up IH];
    intros c l a v r; simpl; [done | apply IH | apply IH].
Qed.

Lemma plug_capp (inner outer : ctx V) t :
  plug (capp inner outer) t = plug outer (plug inner t).
Proof.
  revert t. induction inner as [|c a v up IH r|c l a v up IH]; intros t; simpl; auto.
Qed.

End ShapeMore.

Ltac own_zip H :=
  lazymatch type of H with
  | own _ _ _ _ (plug ?cx ?t) _ _ _ _ => let r := zup cx t in refocus H r
  end.

(** The last statement of a block: a field read, or [this root]. *)
Ltac ofld H :=
  lazymatch goal with
  | |- sat (fld ?f ?a ?o ?h) _ _ =>
      first
        [ focus H a;
          rewrite (fld_ok f a _ o h (own_lookup _ _ _ _ _ _ _ _ _ _ _ _ _ _ H))
        | rewrite (fld_ok f a _ o h (own_nil_lookup _ _ _ _ _ _ _ _ _ H)) ]
  | |- sat (this _ _ _) _ _ => rewrite this_ok
  end; own_simpl; unfold sat.

Ltac dpure :=
  lazymatch goal with
  | |- rbc _ _ _ => rb_solve
  | |- deficit _ (plug _ _) =>
      apply rbt_deficit; eapply rbt_plug;
        [ eassumption | rb_solve | rb_solve; congruence ]
  | |- deficit _ _ => unfold deficit; rb_solve
  | |- cblack _ => rb_solve
  | |- _ = Lf → _ =>
      let E := fresh in intros E; first [ discriminate E | by apply plug_nd_ne in E ]
  | |- elems _ = _ => etransitivity; [ | eassumption ]; cbn [plug]; same_elems
  | |- ptrs _ = _ => etransitivity; [ | eassumption ]; cbn [plug]; same_ptrs
  | |- _ => idtac
  end.

(** The loop continues from the parent. *)
Ltac dfin_up H :=
  own_zip H;
  lazymatch type of H with
  | own _ _ _ _ (plug ?up ?t) _ _ _ _ =>
      lazymatch goal with
      | Hr : rbc (S ?n') up ?m' |- _ => exists up, t, n', m'
      end
  end;
  split_and!; [ reflexivity | exact H | dpure .. ].

(** The loop continues from the root. *)
Ltac dfin_top H :=
  own_zip H;
  lazymatch type of H with
  | own _ _ _ _ (plug ?up ?t) _ _ _ _ =>
      lazymatch goal with
      | Hr : rbc _ up ?m' |- _ => exists Top, (plug up t), m', (S m')
      end
  end;
  split_and!; [ rewrite ?rootp_plug; reflexivity | exact H | dpure .. ].

Section DeleteFixup.
Context {V : Type}.
Variable dflt : V.
Implicit Types (h F : heap V) (t : shape V) (cx : ctx V).

(** The state after one round of the loop of [delete_fixup]: a position
    [(cx', s')] from which the loop continues, of smaller measure. *)
Definition bw (t : shape V) : nat :=
  match tcolor t with Black => 1 | Red => 0 end.

Definition dstep (F : heap V) nl np s cnt (k : nat) (T0 : shape V)
  : ptr → Rb_tree → heap V → Prop :=
  λ x' o' h', ∃ cx' s' n' m',
    x' = rootp nl s'
    ∧ own dflt F nl np (plug cx' s') s cnt o' h'
    ∧ rbc (S n') cx' m' ∧ deficit n' s' ∧ cblack cx'
    ∧ (s' = Lf → np = cpar nl cx')
    ∧ (2 * cdepth cx' + bw s' ≤ k)%nat
    ∧ elems (plug cx' s') = elems T0
    ∧ ptrs (plug cx' s') = ptrs T0.

(** The part of [delete_fixup_left] that follows the case of a red
    sibling. *)
Definition dfl_rest (x w : ptr) : M V Rb_tree ptr :=
  let* both :=
    andM (let* wl := fld left w in
          let* wlc := fld color wl in ret (color_eqb wlc Black))
         (let* wr_ := fld right w in
          let* wrc := fld color wr_ in ret (color_eqb wrc Black)) in
  if both then
    wr w (set_color Red) ;;
    fld p x
  else
    let* wr_ := fld right w in
    let* wrc := fld color wr_ in
    let* w :=
      (if color_eqb wrc Black then
         let* wl := fld left w in
         wr wl (set_color Black) ;;
         wr w (set_color Red) ;;
         right_rotate w ;;
         let* xp := fld p x in
         fld right xp
       else ret w) in
    let* xp := fld p x in
    let* xpc := fld color xp in
    wr w (set_color xpc) ;;
    let* wr_ := fld right w in
    wr wr_ (set_color Black) ;;
    let* xp := fld p x in
    wr xp (set_color Black) ;;
    left_rotate xp ;;
    this root.

Lemma delete_fixup_left_rest x :
  delete_fixup_left x =
  (let* xp := fld p x in
   let* w := fld right xp in
   let* wc := fld color w in
   let* w :=
     (if color_eqb wc Red then
        wr w (set_color Black) ;;
        let* xp := fld p x in
        wr xp (set_color Red) ;;
        left_rotate xp ;;
        let* xp := fld p x in
        fld right xp
      else ret w) in
   dfl_rest x w).
Proof. reflexivity. Qed.

Definition dfr_rest (x w : ptr) : M V Rb_tree ptr :=
  let* both :=
    andM (let* wr_ := fld right w in
          let* wrc := fld color wr_ in ret (color_eqb wrc Black))
         (let* wl := fld left w in
          let* wlc := fld color wl in ret (color_eqb wlc Black)) in
  if both then
    wr w (set_color Red) ;;
    fld p x
  else
    let* wl := fld left w in
    let* wlc := fld color wl in
    let* w :=
      (if color_eqb wlc Black then
         let* wr_ := fld right w in
         wr wr_ (set_color Black) ;;
         wr w (set_color Red) ;;
         left_rotate w ;;
         let* xp := fld p x in
         fld left xp
       else ret w) in
    let* xp := fld p x in
    let* xpc := fld color xp in
    wr w (set_color xpc) ;;
    let* wl := fld left w in
    wr wl (set_color Black) ;;
    let* xp := fld p x in
    wr xp (set_color Black) ;;
    right_rotate xp ;;
    this root.

Lemma delete_fixup_right_rest x :
  delete_fixup_right x =
  (let* xp := fld p x in
   let* w := fld left xp in
   let* wc := fld color w in
   let* w :=
     (if color_eqb wc Red then
        wr w (set_color Black) ;;
        let* xp := fld p x in
        wr xp (set_color Red) ;;
        right_rotate xp ;;
        let* xp := fld p x in
        fld left xp
      else ret w) in
   dfr_rest x w).
Proof. reflexivity. Qed.

Lemma bw_le (t : shape V) : (bw t ≤ 1)%nat.
Proof. unfold bw. destruct (tcolor t); lia. Qed.

Lemma dfl_rest_own F nl np pc pa pv up s0 wl wn wv wr_ n m k T0 s cnt o h :
  own dflt F nl np (plug (CL pc pa pv up (Nd Black wl wn wv wr_)) s0) s cnt o h →
  rbc (S n) (CL pc pa pv up (Nd Black wl wn wv wr_)) m →
  rbt n s0 → tcolor s0 = Black →
  cblack (CL pc pa pv up (Nd Black wl wn wv wr_)) →
  (s0 = Lf → np = pa) →
  (2 * cdepth up + match pc with Black => 1 | Red => 0 end ≤ k)%nat →
  elems (plug (CL pc pa pv up (Nd Black wl wn wv wr_)) s0) = elems T0 →
  ptrs (plug (CL pc pa pv up (Nd Black wl wn wv wr_)) s0) = ptrs T0 →
  returns (dfl_rest (rootp nl s0) wn o h) (dstep F nl np s cnt k T0).
Proof.
  intros Ho Hc Hs0 Hcs Hb Hnp Hk He Hp.
  pose proof (own_obj_eq _ _ _ _ _ _ _ _ _ Ho) as ->.
  pose proof (own_sep_facts _ _ _ _ _ _ _ _ _ _ Ho) as Hsep.
  unfold dfl_rest.
  assert (Hk1 : (1 ≤ k)%nat).
  { destruct pc; [destruct up; simpl in *; try done; lia | lia]. }
  destruct pc; simpl in Hc; destruct_ands;
  (destruct s0 as [|sc sl x sv sr];
     [specialize (Hnp eq_refl); subst np | simpl in Hcs; subst sc; clear Hnp]);
  destruct wl as [|[] wll wla wlv wlr]; destruct wr_ as [|[] wrl wra wrv wrr];
  cbn [cptrs ptrs sepc sep] in *; sep_norm; osteps Ho.
  all: lazymatch goal with
       | |- sat (fld p _ _ _) _ _ => ofld Ho; dfin_up Ho
       | |- sat (bind (left_rotate _) _ _ _) _ _ =>
           ocall Ho (left_rotate_own dflt) pa; ofld Ho; dfin_top Ho
       | |- sat (bind (right_rotate _) _ _ _) _ _ =>
           ocall Ho (right_rotate_own dflt) wn; osteps Ho;
           ocall Ho (left_rotate_own dflt) pa; ofld Ho; dfin_top Ho
       end.
  all: clear -Hk Hk1;
       first [ unfold bw; cbn [tcolor cdepth]; lia
             | match goal with |- context [bw ?t] => pose proof (bw_le t) end;
               cbn [cdepth]; lia ].
Qed.

Lemma dfr_rest_own F nl np pc pa pv up s0 wl wn wv wr_ n m k T0 s cnt o h :
  own dflt F nl np (plug (CR pc (Nd Black wl wn wv wr_) pa pv up) s0) s cnt o h →
  rbc (S n) (CR pc (Nd Black wl wn wv wr_) pa pv up) m →
  rbt n s0 → tcolor s0 = Black →
  cblack (CR pc (Nd Black wl wn wv wr_) pa pv up) →
  (s0 = Lf → np = pa) →
  (2 * cdepth up + match pc with Black => 1 | Red => 0 end ≤ k)%nat →
  elems (plug (CR pc (Nd Black wl wn wv wr_) pa pv up) s0) = elems T0 →
  ptrs (plug (CR pc (Nd Black wl wn wv wr_) pa pv up) s0) = ptrs T0 →
  returns (dfr_rest (rootp nl s0) wn o h) (dstep F nl np s cnt k T0).
Proof.
  intros Ho Hc Hs0 Hcs Hb Hnp Hk He Hp.
  pose proof (own_obj_eq _ _ _ _ _ _ _ _ _ Ho) as ->.
  pose proof (own_sep_facts _ _ _ _ _ _ _ _ _ _ Ho) as Hsep.
  unfold dfr_rest.
  assert (Hk1 : (1 ≤ k)%nat).
  { destruct pc; [destruct up; simpl in *; try done; lia | lia]. }
  destruct pc; simpl in Hc; destruct_ands;
  (destruct s0 as [|sc sl x sv sr];
     [specialize (Hnp eq_refl); subst np | simpl in Hcs; subst sc; clear Hnp]);
  destruct wl as [|[] wll wla wlv wlr]; destruct wr_ as [|[] wrl wra wrv wrr];
  cbn [cptrs ptrs sepc sep] in *; sep_norm; osteps Ho.
  all: lazymatch goal with
       | |- sat (fld p _ _ _) _ _ => ofld Ho; dfin_up Ho
       | |- sat (bind (right_rotate _) _ _ _) _ _ =>
           ocall Ho (right_rotate_own dflt) pa; ofld Ho; dfin_top Ho
       | |- sat (bind (left_rotate _) _ _ _) _ _ =>
           ocall Ho (left_rotate_own dflt) wn; osteps Ho;
           ocall Ho (right_rotate_own dflt) pa; ofld Ho; dfin_top Ho
       end.
  all: clear -Hk Hk1;
       first [ unfold bw; cbn [tcolor cdepth]; lia
             | match goal with |- context [bw ?t] => pose proof (bw_le t) end;
               cbn [cdepth]; lia ].
Qed.

End DeleteFixup.

Section DeleteFixupLoop.
Context {V : Type}.
Variable dflt : V.
Implicit Types (h F : heap V) (t : shape V) (cx : ctx V).

Lemma delete_fixup_left_own F nl np pc pa pv up w s0 n m k T0 s cnt o h :
  own dflt F nl np (plug (CL pc pa pv up w) s0) s cnt o h →
  rbc (S n) (CL pc pa pv up w) m →
  rbt n s0 → tcolor s0 = Black →
  cblack (CL pc pa pv up w) →
  (s0 = Lf → np = pa) →
  (2 * S (cdepth up) ≤ k)%nat →
  elems (plug (CL pc pa pv up w) s0) = elems T0 →
  ptrs (plug (CL pc pa pv up w) s0) = ptrs T0 →
  returns (delete_fixup_left (rootp nl s0) o h) (dstep dflt F nl np s cnt k T0).
Proof.
  intros Ho Hc Hs0 Hcs Hb Hnp Hk He Hp.
  rewrite delete_fixup_left_rest.
  destruct w as [|[] wl wn wv wr_].
  - destruct pc; simpl in Hc; destruct_ands; done.
  - (* red sibling *)
    destruct pc; simpl in Hc; destruct_ands; [done|].
    destruct wl as [|[] wll wla wlv wlr]; try done.
    pose proof (own_obj_eq _ _ _ _ _ _ _ _ _ Ho) as ->.
    pose proof (own_sep_facts _ _ _ _ _ _ _ _ _ _ Ho) as Hsep.
    (destruct s0 as [|sc sl x sv sr];
       [pose proof (Hnp eq_refl); subst np | simpl in Hcs; subst sc]);
    cbn [cptrs ptrs sepc sep] in *; sep_norm; own_simpl; osteps Ho;
    ocall Ho (left_rotate_own dflt) pa; osteps Ho;
    own_zip Ho;
    lazymatch type of Ho with
    | own ?d ?F' ?nl' ?np' (plug ?u (Nd ?c (Nd ?c1 ?s0' pa ?v1 ?wl') wn ?v2 ?wr'))
          ?s' ?cnt' ?o' ?h' =>
        change (own d F' nl' np' (plug (CL c1 pa v1 (CL c wn v2 u wr') wl') s0')
                  s' cnt' o' h') in Ho
    end;
    lazymatch type of Ho with
    | own _ ?F' ?nl' ?np' (plug (CL ?c1 _ ?v1 ?u1 (Nd Black ?a ?b ?e ?f)) ?s0')
          _ _ _ _ =>
        apply (dfl_rest_own dflt F' nl' np' c1 pa v1 u1 s0' a b e f n m k T0
                 _ _ _ _ Ho)
    end;
    [ rb_solve | rb_solve | rb_solve | rb_solve | done
    | cbn [cdepth]; lia
    | etransitivity; [ | exact He ]; same_elems
    | etransitivity; [ | exact Hp ]; same_ptrs
    | rb_solve | rb_solve | rb_solve | rb_solve | done
    | cbn [cdepth]; lia
    | etransitivity; [ | exact He ]; same_elems
    | etransitivity; [ | exact Hp ]; same_ptrs ].
  - (* black sibling *)
    pose proof (own_sep_facts _ _ _ _ _ _ _ _ _ _ Ho) as Hsep.
    assert (Hgo : ∀ o1 h1, o1 = o → h1 = h →
      returns (dfl_rest (rootp nl s0) wn o1 h1) (dstep dflt F nl np s cnt k T0)).
    { intros o1 h1 -> ->. eapply dfl_rest_own; eauto.
      destruct pc; lia. }
    pose proof (own_obj_eq _ _ _ _ _ _ _ _ _ Ho) as Eo.
    (destruct s0 as [|sc sl x sv sr];
       [pose proof (Hnp eq_refl); subst np | ]);
    cbn [cptrs ptrs sepc sep] in *; sep_norm; rewrite Eo; own_simpl; osteps Ho;
    apply Hgo; auto.
Qed.

Lemma delete_fixup_right_own F nl np pc pa pv up w s0 n m k T0 s cnt o h :
  own dflt F nl np (plug (CR pc w pa pv up) s0) s cnt o h →
  rbc (S n) (CR pc w pa pv up) m →
  rbt n s0 → tcolor s0 = Black →
  cblack (CR pc w pa pv up) →
  (s0 = Lf → np = pa) →
  (2 * S (cdepth up) ≤ k)%nat →
  elems (plug (CR pc w pa pv up) s0) = elems T0 →
  ptrs (plug (CR pc w pa pv up) s0) = ptrs T0 →
  returns (delete_fixup_right (rootp nl s0) o h) (dstep dflt F nl np s cnt k T0).
Proof.
  intros Ho Hc Hs0 Hcs Hb Hnp Hk He Hp.
  rewrite delete_fixup_right_rest.
  destruct w as [|[] wl wn wv wr_].
  - destruct pc; simpl in Hc; destruct_ands; done.
  - (* red sibling *)
    destruct pc; simpl in Hc; destruct_ands; [done|].
    destruct wr_ as [|[] wrl wra wrv wrr]; try done.
    pose proof (own_obj_eq _ _ _ _ _ _ _ _ _ Ho) as ->.
    pose proof (own_sep_facts _ _ _ _ _ _ _ _ _ _ Ho) as Hsep.
    (destruct s0 as [|sc sl x sv sr];
       [pose proof (Hnp eq_refl); subst np | simpl in Hcs; subst sc]);
    cbn [cptrs ptrs sepc sep] in *; sep_norm; own_simpl; osteps Ho;
    ocall Ho (right_rotate_own dflt) pa; osteps Ho;
    own_zip Ho;
    lazymatch type of Ho with
    | own ?d ?F' ?nl' ?np' (plug ?u (Nd ?c ?wl' wn ?v2 (Nd ?c1 ?wr' pa ?v1 ?s0')))
          ?s' ?cnt' ?o' ?h' =>
        change (own d F' nl' np' (plug (CR c1 wr' pa v1 (CR c wl' wn v2 u)) s0')
                  s' cnt' o' h') in Ho
    end;
    lazymatch type of Ho with
    | own _ ?F' ?nl' ?np' (plug (CR ?c1 (Nd Black ?a ?b ?e ?f) _ ?v1 ?u1) ?s0')
          _ _ _ _ =>
        apply (dfr_rest_own dflt F' nl' np' c1 pa v1 u1 s0' a b e f n m k T0
                 _ _ _ _ Ho)
    end;
    [ rb_solve | rb_solve | rb_solve | rb_solve | done
    | cbn [cdepth]; lia
    | etransitivity; [ | exact He ]; same_elems
    | etransitivity; [ | exact Hp ]; same_ptrs
    | rb_solve | rb_solve | rb_solve | rb_solve | done
    | cbn [cdepth]; lia
    | etransitivity; [ | exact He ]; same_elems
    | etransitivity; [ | exact Hp ]; same_ptrs ].
  - (* black sibling *)
    pose proof (own_sep_facts _ _ _ _ _ _ _ _ _ _ Ho) as Hsep.
    assert (Hgo : ∀ o1 h1, o1 = o → h1 = h →
      returns (dfr_rest (rootp nl s0) wn o1 h1) (dstep dflt F nl np s cnt k T0)).
    { intros o1 h1 -> ->. eapply dfr_rest_own; eauto.
      destruct pc; lia. }
    pose proof (own_obj_eq _ _ _ _ _ _ _ _ _ Ho) as Eo.
    (destruct s0 as [|sc sl x sv sr];
       [pose proof (Hnp eq_refl); subst np | ]);
    cbn [cptrs ptrs sepc sep] in *; sep_norm; rewrite Eo; own_simpl; osteps Ho;
    apply Hgo; auto.
Qed.

Lemma deficit_black (t : shape V) n : tcolor t = Black → deficit n t → rbt n t.
Proof. unfold deficit. by intros ->. Qed.

Lemma bw_black (t : shape V) : tcolor t = Black → bw t = 1%nat.
Proof. unfold bw. by intros ->. Qed.

(** The loop of [delete_fixup]. *)
Lemma delete_fixup_own fuel : ∀ cx s0 n m F nl np s cnt o h,
  (2 * cdepth cx + bw s0 < fuel)%nat →
  own dflt F nl np (plug cx s0) s cnt o h →
  rbc (S n) cx m → deficit n s0 → cblack cx →
  (s0 = Lf → np = cpar nl cx) →
  returns (delete_fixup fuel (rootp nl s0) o h)
    (fixed dflt F nl np s cnt (plug cx s0)).
Proof.
  induction fuel as [|fuel IH]; intros cx s0 n m F nl np s cnt o h Hfuel Ho Hc Hd Hb Hnp;
    [lia|].
  pose proof (own_obj_eq _ _ _ _ _ _ _ _ _ Ho) as Eo. rewrite rootp_plug in Eo. subst o.
  pose proof (own_sep_facts _ _ _ _ _ _ _ _ _ _ Ho) as Hsep.
  cbn [delete_fixup].
  assert (Hexit : ∀ T, T = plug cx s0 → (∃ k, rbt k (plug cx (blacken s0))) →
     tcolor (plug cx (blacken s0)) = Black →
     returns (wr (rootp nl s0) (set_color Black)
                (mkTree s (croot cx (rootp nl s0)) nl cnt) h)
       (fixed dflt F nl np s cnt T)).
  { intros T -> [k Hk] Hcol.
    destruct s0 as [|sc sl x sv sr].
    - simpl. erewrite wr_ok by (eapply own_nil_lookup; eauto). simpl.
      exists (plug cx Lf), k. split_and!; auto.
      destruct Ho as [Hx Hrep Hn Hf Hs Hns]. constructor; auto.
      + eapply rep_transfer; eauto. intros q Hq.
        rewrite lookup_insert_ne; [done|].
        intros <-. by apply rep_not_nil in Hrep.
      + by rewrite lookup_insert_eq.
      + by apply framed_insert.
    - simpl. erewrite wr_ok by (eapply own_lookup; eauto). simpl.
      apply (own_recolor dflt Black) in Ho.
      exists (plug cx (Nd Black sl x sv sr)), k. split_and!; auto.
      + rewrite !elems_plug. done.
      + rewrite !ptrs_plug. done. }
  assert (Hnext : ∀ k x' o' h', (k < fuel)%nat →
     dstep dflt F nl np s cnt k (plug cx s0) x' o' h' →
     returns (delete_fixup fuel x' o' h') (fixed dflt F nl np s cnt (plug cx s0))).
  { intros k x' o' h' Hk (cx' & s' & n' & m' & -> & Ho' & Hc' & Hd' & Hb' & Hnp' & Hm' & He' & Hp').
    eapply returns_mono.
    - eapply IH; eauto. lia.
    - by apply fixed_eq. }
  destruct cx as [|pc pa pv up w|pc w pa pv up].
  - (* the position is the root *)
    osteps Ho.
    apply Hexit; auto.
    + simpl. eapply deficit_blacken; eauto.
    + simpl. apply tcolor_blacken.
  - destruct (tcolor s0) eqn:Hcs.
    + (* a red node absorbs the extra black *)
      destruct s0 as [|sc sl x sv sr]; [done|]. simpl in Hcs. subst sc.
      cbn [cptrs ptrs sepc sep] in *; sep_norm; own_simpl.
      osteps Ho.
      apply Hexit; auto.
      * exists m. eapply rbt_plug; eauto.
      * by apply cblack_tcolor.
    + apply deficit_black in Hd; auto. rewrite bw_black in * by done.
      assert (Hl : returns (delete_fixup_left (rootp nl s0)
                          (mkTree s (croot up pa) nl cnt) h)
                (dstep dflt F nl np s cnt (2 * S (cdepth up)) (plug (CL pc pa pv up w) s0))).
      { eapply delete_fixup_left_own; eauto. }
      destruct s0 as [|sc sl x sv sr];
        [pose proof (Hnp eq_refl); subst np | simpl in Hcs; subst sc].
      all: cbn [cptrs ptrs sepc sep] in *; sep_norm; own_simpl.
      all: osteps Ho.
      all: eapply sat_bind; [ exact Hl | ].
      all: intros x' o' h' Hx'; apply (Hnext (2 * S (cdepth up))%nat).
      all: first [ exact Hx' | simpl in Hfuel; lia ].
  - destruct (tcolor s0) eqn:Hcs.
    + destruct s0 as [|sc sl x sv sr]; [done|]. simpl in Hcs. subst sc.
      cbn [cptrs ptrs sepc sep] in *; sep_norm; own_simpl.
      osteps Ho.
      apply Hexit; auto.
      * exists m. eapply rbt_plug; eauto.
      * by apply cblack_tcolor.
    + apply deficit_black in Hd; auto. rewrite bw_black in * by done.
      assert (Hl : returns (delete_fixup_right (rootp nl s0)
                          (mkTree s (croot up pa) nl cnt) h)
                (dstep dflt F nl np s cnt (2 * S (cdepth up)) (plug (CR pc w pa pv up) s0))).
      { eapply delete_fixup_right_own; eauto. }
      assert (Hw : w ≠ Lf).
      { destruct w; [|done]. destruct pc; simpl in Hc; destruct_ands; done. }
      destruct w as [|wc wl wn wv wr_]; [done|].
      destruct s0 as [|sc sl x sv sr];
        [pose proof (Hnp eq_refl); subst np | simpl in Hcs; subst sc].
      all: cbn [cptrs ptrs sepc sep] in *; sep_norm; own_simpl.
      all: osteps Ho.
      all: eapply sat_bind; [ exact Hl | ].
      all: intros x' o' h' Hx'; apply (Hnext (2 * S (cdepth up))%nat).
      all: first [ exact Hx' | simpl in Hfuel; lia ].
Qed.

End DeleteFixupLoop.

(** ** Unlinking a node *)

Ltac own_goal' Hs :=
  constructor;
  [ rewrite ?rootp_plug; reflexivity
  | first [ apply rep_plug | idtac ]; simpl; split_and?; rep_goal
  | hlookup
  | repeat (apply framed_insert;
            [ | first [ assumption | apply Hs; solve [ in_union ] ] ]);
    try assumption
  | let q := fresh "q" in let Hq := fresh "Hq" in
    intros q Hq; apply Hs; rewrite ?ptrs_plug in *; simpl in *;
    clear -Hq; set_solver
  | assumption ].

Section Unlink.
Context {V : Type}.
Variable dflt : V.
Implicit Types (h F : heap V) (t : shape V) (cx : ctx V).

(** The sentinel's parent link after [transplant u v]: [v]'s new parent
    when [v] is the sentinel. *)
Definition np_after (nl np : ptr) (cx : ctx V) (t : shape V) : ptr :=
  match t with Lf => cpar nl cx | Nd _ _ _ _ _ => np end.

Lemma transplant_right_own F nl np cx c a v r s cnt o h :
  own dflt F nl np (plug cx (Nd c Lf a v r)) s cnt o h →
  returns (transplant a (rootp nl r) o h) (λ _ o' h',
    own dflt F nl (np_after nl np cx r) (plug cx r) s cnt o' h'
    ∧ h' !! a = Some (mkNode v c nl (rootp nl r) (cpar nl cx))).
Proof.
  intros [Hx Hrep Hn Hf Hs Hns].
  pose proof (rep_not_nil _ _ _ _ Hrep) as Hnn.
  apply rep_plug in Hrep as (Hc & Hr & Hd).
  rewrite ptrs_plug in Hnn. rewrite ptrs_plug in Hs.
  subst o. unfold transplant. rewrite rootp_plug.
  destruct r as [|rc rl b rv rr]; destruct cx as [|pc pa pv up pr|pc pl pa pv up];
    simpl in *; sep_norm;
    msteps; unfold sat; (split; [own_goal' Hs | hlookup]).
Qed.

Lemma transplant_left_own F nl np cx c a v l s cnt o h :
  own dflt F nl np (plug cx (Nd c l a v Lf)) s cnt o h →
  returns (transplant a (rootp nl l) o h) (λ _ o' h',
    own dflt F nl (np_after nl np cx l) (plug cx l) s cnt o' h'
    ∧ h' !! a = Some (mkNode v c (rootp nl l) nl (cpar nl cx))).
Proof.
  intros [Hx Hrep Hn Hf Hs Hns].
  pose proof (rep_not_nil _ _ _ _ Hrep) as Hnn.
  apply rep_plug in Hrep as (Hc & Hr & Hd).
  rewrite ptrs_plug in Hnn. rewrite ptrs_plug in Hs.
  subst o. unfold transplant. rewrite rootp_plug.
  destruct l as [|rc rl b rv rr]; destruct cx as [|pc pa pv up pr|pc pl pa pv up];
    simpl in *; sep_norm;
    msteps; unfold sat; (split; [own_goal' Hs | hlookup]).
Qed.

(** The statements of [delete_node] that put the successor [y] in the
    place of [z]. *)
Definition relink_tail (z y x : ptr) (yc : Node_color)
  : M V Rb_tree (ptr * Node_color) :=
  transplant z y ;;
  let* zl := fld left z in
  wr y (set_left zl) ;;
  let* yl := fld left y in
  wr yl (set_p y) ;;
  let* zc := fld color z in
  wr y (set_color zc) ;;
  ret (x, yc).

Definition relink_right (z y : ptr) : M V Rb_tree unit :=
  let* zr := fld right z in
  wr y (set_right zr) ;;
  let* yr := fld right y in
  wr yr (set_p y).

(** The successor is the right child of [z]. *)
Lemma relink_child_own F nl np cx c lc ll la lv lr z v yc y yv yr s cnt o h :
  own dflt F nl np
    (plug cx (Nd c (Nd lc ll la lv lr) z v (Nd yc Lf y yv yr))) s cnt o h →
  returns ((wr (rootp nl yr) (set_p y) ;; relink_tail z y (rootp nl yr) yc) o h)
    (λ xc o' h',
      xc = (rootp nl yr, yc)
      ∧ own dflt F nl (np_after nl np (CR c (Nd lc ll la lv lr) y yv cx) yr)
          (plug cx (Nd c (Nd lc ll la lv lr) y yv yr)) s cnt o' h'
      ∧ is_Some (h' !! z)).
Proof.
  intros [Hx Hrep Hn Hf Hs Hns].
  pose proof (rep_not_nil _ _ _ _ Hrep) as Hnn.
  apply rep_plug in Hrep as (Hc & Hr & Hd).
  rewrite ptrs_plug in Hnn. rewrite ptrs_plug in Hs.
  subst o. unfold relink_tail, transplant. rewrite rootp_plug.
  destruct yr as [|rc rl b rv rr]; destruct cx as [|pc pa pv up pr|pc pl pa pv up];
    simpl in *; sep_norm;
    msteps; unfold sat;
    (split; [reflexivity | split; [own_goal' Hs | eexists; hlookup]]).
Qed.

(** The successor [y], already unlinked, takes the place of [z]. *)
Lemma relink_far_own F nl np cx c lc ll la lv lr z v rc rl ra rv rr
    y yv yc0 yl0 yr0 yp0 x yc s cnt o h :
  own dflt F nl np
    (plug cx (Nd c (Nd lc ll la lv lr) z v (Nd rc rl ra rv rr))) s cnt o h →
  h !! y = Some (mkNode yv yc0 yl0 yr0 yp0) →
  y ≠ nl → F !! y = None →
  y ∉ ptrs (plug cx (Nd c (Nd lc ll la lv lr) z v (Nd rc rl ra rv rr))) →
  returns ((relink_right z y ;; relink_tail z y x yc) o h)
    (λ xc o' h',
      xc = (x, yc)
      ∧ own dflt F nl np
          (plug cx (Nd c (Nd lc ll la lv lr) y yv (Nd rc rl ra rv rr))) s cnt o' h'
      ∧ is_Some (h' !! z)).
Proof.
  intros [Hx Hrep Hn Hf Hs Hns] Hy Hynl HyF Hyt.
  pose proof (rep_not_nil _ _ _ _ Hrep) as Hnn.
  apply rep_plug in Hrep as (Hc & Hr & Hd).
  rewrite ptrs_plug in Hnn, Hyt. rewrite ptrs_plug in Hs.
  subst o. unfold relink_right, relink_tail, transplant. rewrite rootp_plug.
  destruct cx as [|pc pa pv up pr|pc pl pa pv up];
    simpl in *; sep_norm;
    msteps; unfold sat;
    (split; [reflexivity | split; [ | eexists; hlookup]]).
  all: constructor;
    [ rewrite ?rootp_plug; reflexivity
    | first [ apply rep_plug | idtac ]; simpl; split_and?; rep_goal
    | hlookup
    | repeat (apply framed_insert;
              [ | first [ assumption | apply Hs; solve [ in_union ] ] ]);
      try assumption
    | let q := fresh "q" in let Hq := fresh "Hq" in
      intros q Hq; destruct (decide (q = y)) as [->|Hqy]; [assumption|];
      apply Hs; rewrite ?ptrs_plug in *; simpl in *;
      clear -Hq Hqy; set_solver
    | assumption ].
Qed.

End Unlink.

(** ** Leftmost and rightmost positions *)

Section MinMax.
Context {V : Type}.
Variable dflt : V.
Implicit Types (h F : heap V) (t : shape V) (cx : ctx V).

Lemma dmin_plug cx t : plug (dmin cx t).1 (dmin cx t).2 = plug cx t.
Proof.
  revert cx. induction t as [|c l IHl a v r IHr]; intros cx; simpl; auto.
  destruct l; [done|]. by rewrite IHl.
Qed.

Lemma dmax_plug cx t : plug (dmax cx t).1 (dmax cx t).2 = plug cx t.
Proof.
  revert cx. induction t as [|c l IHl a v r IHr]; intros cx; simpl; auto.
  destruct r; [done|]. by rewrite IHr.
Qed.

Lemma dmin_form cx t :
  t ≠ Lf → ∃ c a v r, (dmin cx t).2 = Nd c Lf a v r.
Proof.
  revert cx. induction t as [|c l IHl a v r IHr]; intros cx Ht; [done|]. simpl.
  destruct l as [|lc ll la lv lr]; [by eauto|]. by apply IHl.
Qed.

Lemma dmax_form cx t :
  t ≠ Lf → ∃ c l a v, (dmax cx t).2 = Nd c l a v Lf.
Proof.
  revert cx. induction t as [|c l IHl a v r IHr]; intros cx Ht; [done|]. simpl.
  destruct r as [|lc ll la lv lr]; [by eauto|]. by apply IHr.
Qed.

Lemma dmin_capp cx t :
  (dmin cx t).1 = capp (dmin Top t).1 cx ∧ (dmin cx t).2 = (dmin Top t).2.
Proof.
  revert cx. induction t as [|c l IHl a v r IHr]; intros cx; simpl; auto.
  destruct l as [|lc ll la lv lr]; [done|].
  destruct (IHl (CL c a v cx r)) as [E1 E2].
  destruct (IHl (CL c a v Top r)) as [E3 E4].
  rewrite E1, E2, E3, E4. split; [|done].
  generalize (dmin Top (Nd lc ll la lv lr)).1. intros cy.
  induction cy; simpl; congruence.
Qed.

Lemma dmin_cleft cx t : cleft (dmin cx t).1 = cleft cx.
Proof.
  revert cx. induction t as [|c l IHl a v r IHr]; intros cx; simpl; auto.
  destruct l; [done|]. by rewrite IHl.
Qed.

Lemma dmax_cright cx t : cright (dmax cx t).1 = cright cx.
Proof.
  revert cx. induction t as [|c l IHl a v r IHr]; intros cx; simpl; auto.
  destruct r; [done|]. by rewrite IHr.
Qed.

Lemma dmin_depth cx t : (cdepth (dmin cx t).1 + tsize (dmin cx t).2 ≤ cdepth cx + tsize t)%nat.
Proof.
  revert cx. induction t as [|c l IHl a v r IHr]; intros cx; simpl; [lia|].
  destruct l as [|lc ll la lv lr]; [simpl; lia|].
  specialize (IHl (CL c a v cx r)). simpl in *. lia.
Qed.

Lemma cdepth_capp (cy cx : ctx V) : cdepth (capp cy cx) = (cdepth cy + cdepth cx)%nat.
Proof. induction cy; simpl; lia. Qed.

Lemma cpar_capp_CL nl (cy : ctx V) c a v up up' r :
  cpar nl (capp cy (CL c a v up r)) = cpar nl (capp cy (CL c a v up' r)).
Proof. by destruct cy. Qed.

Lemma rbc_capp_CL (cy : ctx V) c a v up up' r n m :
  ccolor up = ccolor up' → (∀ k, rbc k up m → rbc k up' m) →
  rbc n (capp cy (CL c a v up r)) m → rbc n (capp cy (CL c a v up' r)) m.
Proof.
  intros Hcol Hup. revert n.
  induction cy as [|c1 a1 v1 cy IH r1|c1 l1 a1 v1 cy IH]; intros n; simpl.
  - destruct c; [rewrite Hcol|]; naive_solver.
  - destruct c1.
    + intros (? & Hc & ? & ?). split_and!; auto. by destruct cy.
    + naive_solver.
  - destruct c1.
    + intros (? & Hc & ? & ?). split_and!; auto. by destruct cy.
    + naive_solver.
Qed.

Lemma cblack_capp_CL (cy : ctx V) c a v up up' r :
  up ≠ Top → up' ≠ Top → (cblack up → cblack up') →
  cblack (capp cy (CL c a v up r)) → cblack (capp cy (CL c a v up' r)).
Proof.
  intros H1 H2 Hb.
  induction cy as [|c1 a1 v1 cy IH r1|c1 l1 a1 v1 cy IH]; simpl.
  - destruct up, up'; try done; auto.
  - destruct cy; simpl in *; auto.
  - destruct cy; simpl in *; auto.
Qed.

Lemma rbc_capp_CR (cy : ctx V) c l a v a' v' up n m :
  rbc n (capp cy (CR c l a v up)) m → rbc n (capp cy (CR c l a' v' up)) m.
Proof.
  revert n.
  induction cy as [|c1 a1 v1 cy IH r1|c1 l1 a1 v1 cy IH]; intros n; simpl; auto.
  - destruct c1.
    + intros (? & Hc & ? & ?). split_and!; auto. by destruct cy.
    + naive_solver.
  - destruct c1.
    + intros (? & Hc & ? & ?). split_and!; auto. by destruct cy.
    + naive_solver.
Qed.

Lemma cblack_capp_CR (cy : ctx V) c l a v a' v' up :
  cblack (capp cy (CR c l a v up)) → cblack (capp cy (CR c l a' v' up)).
Proof.
  induction cy as [|c1 a1 v1 cy IH r1|c1 l1 a1 v1 cy IH]; simpl; auto.
  - destruct cy; simpl in *; auto.
  - destruct cy; simpl in *; auto.
Qed.

Lemma sepc_capp (cy cx : ctx V) :
  sepc (capp cy cx) ↔ sepc cy ∧ sepc cx ∧ cptrs cy ## cptrs cx.
Proof.
  induction cy as [|c1 a1 v1 cy IH r1|c1 l1 a1 v1 cy IH]; simpl.
  - split; [intros; split_and!; auto; set_solver | tauto].
  - rewrite IH. assert (E : cptrs (capp cy cx) = cptrs cy ∪ cptrs cx).
    { clear. induction cy; simpl; [set_solver| |]; rewrite IHcy; set_solver. }
    rewrite E. clear. split.
    + intros (? & ? & ? & ? & ? & ? & ?). split_and!; auto; set_solver.
    + intros ((? & ? & ? & ? & ?) & ? & ?). split_and!; auto; set_solver.
  - rewrite IH. assert (E : cptrs (capp cy cx) = cptrs cy ∪ cptrs cx).
    { clear. induction cy; simpl; [set_solver| |]; rewrite IHcy; set_solver. }
    rewrite E. clear. split.
    + intros (? & ? & ? & ? & ? & ? & ?). split_and!; auto; set_solver.
    + intros ((? & ? & ? & ? & ?) & ? & ?). split_and!; auto; set_solver.
Qed.

Lemma cptrs_capp (cy cx : ctx V) : cptrs (capp cy cx) = cptrs cy ∪ cptrs cx.
Proof. induction cy; simpl; [set_solver| |]; rewrite IHcy; set_solver. Qed.

Lemma plug_nd cx c l a v r :
  ∃ c' l' a' v' r', plug cx (Nd c l a v r) = Nd c' l' a' v' r'.
Proof.
  revert c l a v r. induction cx as [|c1 a1 v1 up IH r1|c1 l1 a1 v1 up IH];
    intros c l a v r; simpl; [by eauto 10 | apply IH | apply IH].
Qed.

Lemma rootp_in nl t : t ≠ Lf → rootp nl t ∈ ptrs t.
Proof. destruct t; [done|]. intros _. simpl. set_solver. Qed.

(** A non-empty tree is its leftmost node, plugged into a context that
    only goes left. *)
Lemma dmin_split t :
  t ≠ Lf →
  ∃ cy yc y yv yr,
    t = plug cy (Nd yc Lf y yv yr)
    ∧ (∀ cx, dmin cx t = (capp cy cx, Nd yc Lf y yv yr))
    ∧ cleft cy = [].
Proof.
  intros Ht. destruct (dmin_form Top t Ht) as (yc & y & yv & yr & E).
  exists (dmin Top t).1, yc, y, yv, yr. split_and!.
  - by rewrite <- E, dmin_plug.
  - intros cx. destruct (dmin_capp cx t) as [E1 E2].
    rewrite <- E, <- E2, <- E1. by destruct (dmin cx t).
  - by rewrite dmin_cleft.
Qed.

Lemma cdepth_tsize cx t : (cdepth cx + tsize t ≤ tsize (plug cx t))%nat.
Proof.
  revert t. induction cx as [|c a v up IH r|c l a v up IH]; intros t; simpl; [lia| |].
  - specialize (IH (Nd c t a v r)). simpl in IH. lia.
  - specialize (IH (Nd c l a v t)). simpl in IH. lia.
Qed.

Lemma tsize_plug cx t t' :
  tsize (plug cx t) = (tsize (plug cx t') + tsize t - tsize t')%nat
  ∧ (tsize t' ≤ tsize (plug cx t'))%nat.
Proof.
  revert t t'. induction cx as [|c a v up IH r|c l a v up IH]; intros t t'; simpl; [lia| |].
  - destruct (IH (Nd c t a v r) (Nd c t' a v r)) as [E1 E2]. simpl in *. lia.
  - destruct (IH (Nd c l a v t) (Nd c l a v t')) as [E1 E2]. simpl in *. lia.
Qed.

Lemma minimum_own fuel : ∀ cx c l a v r F nl np s cnt o h,
  own dflt F nl np (plug cx (Nd c l a v r)) s cnt o h →
  (tsize l < fuel)%nat →
  minimum fuel a o h = Ok (rootp nl (dmin cx (Nd c l a v r)).2) o h.
Proof.
  induction fuel as [|fuel IH]; intros cx c l a v r F nl np s cnt o h Ho Hf; [lia|].
  pose proof (own_obj_eq _ _ _ _ _ _ _ _ _ Ho) as ->.
  pose proof (own_sep_facts _ _ _ _ _ _ _ _ _ _ Ho) as Hsep.
  cbn [minimum].
  rewrite (bind_fld _ _ _ _ _ _ (own_lookup _ _ _ _ _ _ _ _ _ _ _ _ _ _ Ho)).
  rewrite bind_this. own_simpl.
  destruct l as [|lc ll la lv lr]; cbn [cptrs ptrs sepc sep] in *; sep_norm; own_simpl.
  - by rewrite ptr_neb_refl.
  - rewrite ptr_neb_ne by sep_solve.
    change (own dflt F nl np (plug (CL c a v cx r) (Nd lc ll la lv lr)) s cnt
              (mkTree s (rootp nl (plug cx (Nd c (Nd lc ll la lv lr) a v r))) nl cnt) h) in Ho.
    rewrite (IH _ _ _ _ _ _ _ _ _ _ _ _ _ Ho); [done | simpl in Hf; lia].
Qed.

Lemma minimum_tree fuel cx t F nl np s cnt o h :
  own dflt F nl np (plug cx t) s cnt o h →
  t ≠ Lf → (tsize t ≤ fuel)%nat →
  minimum fuel (rootp nl t) o h = Ok (rootp nl (dmin cx t).2) o h.
Proof.
  destruct t as [|c l a v r]; [done|]. intros Ho _ Hf.
  eapply minimum_own; eauto. simpl in Hf. lia.
Qed.

Lemma maximum_own fuel : ∀ cx c l a v r F nl np s cnt o h,
  own dflt F nl np (plug cx (Nd c l a v r)) s cnt o h →
  (tsize r < fuel)%nat →
  maximum fuel a o h = Ok (rootp nl (dmax cx (Nd c l a v r)).2) o h.
Proof.
  induction fuel as [|fuel IH]; intros cx c l a v r F nl np s cnt o h Ho Hf; [lia|].
  pose proof (own_obj_eq _ _ _ _ _ _ _ _ _ Ho) as ->.
  pose proof (own_sep_facts _ _ _ _ _ _ _ _ _ _ Ho) as Hsep.
  cbn [maximum].
  rewrite (bind_fld _ _ _ _ _ _ (own_lookup _ _ _ _ _ _ _ _ _ _ _ _ _ _ Ho)).
  rewrite bind_this. own_simpl.
  destruct r as [|lc ll la lv lr]; cbn [cptrs ptrs sepc sep] in *; sep_norm; own_simpl.
  - by rewrite ptr_neb_refl.
  - rewrite ptr_neb_ne by sep_solve.
    change (own dflt F nl np (plug (CR c l a v cx) (Nd lc ll la lv lr)) s cnt
              (mkTree s (rootp nl (plug cx (Nd c l a v (Nd lc ll la lv lr)))) nl cnt) h) in Ho.
    rewrite (IH _ _ _ _ _ _ _ _ _ _ _ _ _ Ho); [done | simpl in Hf; lia].
Qed.

(** Releasing a cell that is not part of the tree. *)
Lemma own_free F nl np T s cnt o h z :
  own dflt F nl np T s cnt o h →
  z ∉ ptrs T → z ≠ nl → F !! z = None →
  own dflt F nl np T s cnt o (delete z h).
Proof.
  intros [Hx Hrep Hn Hf Hs Hns] Hz Hznl HzF. constructor; auto.
  - eapply rep_transfer; eauto. intros q Hq.
    rewrite lookup_delete_ne; [done | by intros ->].
  - by rewrite lookup_delete_ne.
  - by apply framed_delete.
Qed.

End MinMax.

(** ** [delete_node] *)

Ltac keep_about z :=
  repeat match goal with
         | H : ?P |- _ =>
             lazymatch P with
             | z ≠ _ => fail
             | _ ≠ z => fail
             | z ∉ _ => fail
             | _ => clear H
             end
         end.

Section DeleteNode.
Context {V : Type}.
Variable dflt : V.
Implicit Types (h F : heap V) (t : shape V) (cx : ctx V).

(** The state once [z] is unlinked: the tree without [z], and the
    position [x] where a black node may be missing. *)
Definition unlinked (F : heap V) nl s cnt (z : ptr) (m bound : nat)
    (E : list (ptr * V)) (P : gset ptr)
  : ptr * Node_color → Rb_tree → heap V → Prop :=
  λ xc o' h', ∃ cx' s' np',
    xc.1 = rootp nl s'
    ∧ own dflt F nl np' (plug cx' s') s cnt o' h'
    ∧ is_Some (h' !! z)
    ∧ (s' = Lf → np' = cpar nl cx')
    ∧ elems (plug cx' s') = E
    ∧ ptrs (plug cx' s') = P
    ∧ (2 * cdepth cx' + 1 < bound)%nat
    ∧ match xc.2 with
      | Black => ∃ n, rbc (S n) cx' m ∧ deficit n s' ∧ cblack cx'
      | Red => rbt m (plug cx' s') ∧ tcolor (plug cx' s') = Black
      end.

Definition deleted (F : heap V) nl s cnt (E : list (ptr * V)) (P : gset ptr)
  : unit → Rb_tree → heap V → Prop :=
  λ _ o' h', ∃ T' m' np',
    own dflt F nl np' T' s cnt o' h' ∧ rbt m' T' ∧ tcolor T' = Black
    ∧ elems T' = E ∧ ptrs T' = P.

Lemma delete_finish fuel F nl s cnt z m E P xc o h :
  unlinked F nl s cnt z m fuel E P xc o h →
  z ∉ P → z ≠ nl → F !! z = None →
  returns
    ((destroy_node z ;;
      update (λ x, with_count (wrap (node_count x - 1)) x) ;;
      if color_eqb xc.2 Black then delete_fixup fuel xc.1 else ret tt) o h)
    (deleted F nl s (wrap (cnt - 1)) E P).
Proof.
  intros (cx' & s' & np' & Hx & Ho & [nz Hz] & Hnp & He & Hp & Hb & Hsh) HzP Hznl HzF.
  pose proof (own_obj_eq _ _ _ _ _ _ _ _ _ Ho) as ->.
  rewrite <- Hp in HzP.
  apply (own_free dflt _ _ _ _ _ _ _ _ z) in Ho; auto.
  unfold bind at 1. unfold destroy_node. rewrite Hz.
  rewrite bind_update. cbn [with_count node_count].
  apply (own_set_count dflt (wrap (cnt - 1))) in Ho.
  destruct xc as [x yc]. simpl in *. subst x.
  destruct yc; simpl.
  - exists (plug cx' s'), m, np'. destruct Hsh. by split_and!.
  - destruct Hsh as (n & Hc & Hd & Hcb).
    eapply returns_mono.
    + eapply delete_fixup_own; eauto.
      pose proof (bw_le s'). lia.
    + intros [] o' h' (T' & m' & Ho' & Hrb & Hcol & He' & Hp').
      exists T', m', np'. split_and!; auto; congruence.
Qed.

Lemma delete_node_own fuel F nl np cx c l z v r m s cnt o h :
  own dflt F nl np (plug cx (Nd c l z v r)) s cnt o h →
  rbt m (plug cx (Nd c l z v r)) → tcolor (plug cx (Nd c l z v r)) = Black →
  (2 * tsize (plug cx (Nd c l z v r)) < fuel)%nat →
  returns (delete_node fuel z o h)
    (deleted F nl s (wrap (cnt - 1))
       (cleft cx ++ elems l ++ elems r ++ cright cx)
       (ptrs (plug cx (Nd c l z v r)) ∖ {[z]})).
Proof.
  intros Ho Hrb Hcol Hfuel.
  pose proof (own_ne_nil _ _ _ _ _ _ _ _ _ _ _ _ _ _ Ho) as Hznl.
  assert (HzF : F !! z = None).
  { apply (own_sep _ _ _ _ _ _ _ _ _ Ho). rewrite ptrs_plug. simpl. set_solver. }
  pose proof (own_sep_facts _ _ _ _ _ _ _ _ _ _ Ho) as Hsep.
  pose proof (cblack_top_plug _ _ Hcol) as Hcb.
  destruct (rbt_unplug _ _ _ Hrb) as (n0 & Hc & Hz & Hzc).
  pose proof (cdepth_tsize cx (Nd c l z v r)) as Hdep.
  pose proof (own_obj_eq _ _ _ _ _ _ _ _ _ Ho) as Eo. rewrite rootp_plug in Eo. subst o.
  unfold delete_node. cbn [cptrs ptrs sepc sep] in Hsep. sep_norm.
  osteps Ho.
  eapply sat_bind with
    (Q1 := unlinked F nl s cnt z m fuel
             (cleft cx ++ elems l ++ elems r ++ cright cx)
             (ptrs (plug cx (Nd c l z v r)) ∖ {[z]})).
  2: { intros xc o' h' Hu. eapply delete_finish; eauto. clear. set_solver. }
  destruct l as [|lc ll la lv lr].
  - (* no left child *)
    own_simpl. ptr_dec. cbn iota.
    eapply sat_bind; [eapply transplant_right_own; exact Ho|].
    intros [] o' h' [Ho' Hz']. rewrite ret_ok. unfold sat.
    exists cx, r, (np_after nl np cx r). cbn [fst snd]. split_and!; auto.
    + by intros ->.
    + rewrite elems_plug. done.
    + rewrite !ptrs_plug. simpl.
      match goal with H1 : z ∉ ptrs r, H2 : z ∉ cptrs cx |- _ => clear -H1 H2 end.
      set_solver.
    + simpl in Hdep. lia.
    + destruct c; simpl in Hz.
      * destruct Hz as (_ & Hcr & _ & Hr). split.
        -- eapply rbt_plug; eauto.
        -- destruct cx; [done| |]; by apply cblack_tcolor.
      * destruct n0 as [|n0]; [done|]. destruct Hz as [Hl Hr].
        exists n0. split_and!; auto. by apply rbt_deficit.
  - assert (Hr : r = Lf ∨ r ≠ Lf) by (destruct r; auto).
    destruct Hr as [->|Hr].
    + (* no right child *)
      own_simpl. cbn [ptrs] in *. sep_norm. ptr_dec. cbn iota.
      eapply sat_bind;
        [apply (transplant_left_own dflt F nl np cx c z v (Nd lc ll la lv lr) s cnt _ _ Ho)|].
      intros [] o' h' [Ho' Hz']. rewrite ret_ok. unfold sat.
      exists cx, (Nd lc ll la lv lr), np. cbn [fst snd]. split_and!; auto.
      * done.
      * rewrite elems_plug. by rewrite app_nil_l.
      * rewrite !ptrs_plug. simpl.
        match goal with
          H1 : z ≠ la, H2 : z ∉ ptrs ll, H3 : z ∉ ptrs lr, H4 : z ∉ cptrs cx |- _ =>
            clear -H1 H2 H3 H4 end.
        set_solver.
      * simpl in Hdep. lia.
      * destruct c; simpl in Hz.
        -- destruct Hz as (Hcl & _ & Hl & Hr). split.
           ++ eapply rbt_plug; eauto.
           ++ destruct cx; [done| |]; by apply cblack_tcolor.
        -- destruct n0 as [|n0]; [done|]. destruct Hz as [Hl Hr].
           exists n0. split_and!; auto. by apply rbt_deficit.
    + (* two children: the successor takes the place of [z] *)
      destruct (dmin_split r Hr) as (cy & yc & y & yv & yr & -> & Hdm & Hcl).
      clear Hr.
      assert (Hoy := Ho).
      change (plug cx (Nd c (Nd lc ll la lv lr) z v (plug cy (Nd yc Lf y yv yr))))
        with (plug (CR c (Nd lc ll la lv lr) z v cx) (plug cy (Nd yc Lf y yv yr)))
        in Hoy.
      assert (Hmin := minimum_tree dflt fuel _ _ _ _ _ _ _ _ _ Hoy).
      rewrite Hdm in Hmin. cbn [snd rootp] in Hmin.
      rewrite <- plug_capp in Hoy.
      pose proof (own_sep_facts _ _ _ _ _ _ _ _ _ _ Hoy) as Hsy.
      rewrite cptrs_capp, sepc_capp in Hsy.
      cbn [cptrs ptrs sepc sep] in Hsy. sep_norm.
      own_simpl. ptr_dec. cbn iota.
      rewrite rootp_plug. own_simpl. ptr_dec. cbn iota.
      rewrite rootp_plug in Hmin. cbn [rootp] in Hmin.
      assert (Hsz : (tsize (plug cy (Nd yc Lf y yv yr)) ≤ fuel)%nat).
      { simpl in Hdep. lia. }
      rewrite (bind_ok _ _ _ _ _ _ _ (Hmin ltac:(apply plug_nd_ne) Hsz)).
      ostep Hoy. ostep Hoy. ostep Ho.
      assert (Hrby := Hrb). assert (Hcoly := Hcol).
      change (plug cx (Nd c (Nd lc ll la lv lr) z v (plug cy (Nd yc Lf y yv yr))))
        with (plug (CR c (Nd lc ll la lv lr) z v cx) (plug cy (Nd yc Lf y yv yr)))
        in Hrby, Hcoly.
      rewrite <- plug_capp in Hrby, Hcoly.
      destruct (rbt_unplug _ _ _ Hrby) as (ny & Hcy & HY & HYc).
      pose proof (cblack_top_plug _ _ Hcoly) as Hcby.
      pose proof (cdepth_tsize (capp cy (CR c (Nd lc ll la lv lr) z v cx))
                    (Nd yc Lf y yv yr)) as Hdepy.
      rewrite plug_capp in Hdepy. cbn [plug] in Hdepy.
      destruct cy as [|c1 a1 v1 cy1 r1|c1 l1 a1 v1 cy1].
      * (* the successor is the right child of [z] *)
        cbn [plug capp] in *. own_simpl. ptr_dec. cbn iota.
        eapply returns_mono;
          [apply (relink_child_own dflt F nl np cx c lc ll la lv lr z v yc y yv yr
                    s cnt _ _ Ho)|].
        intros xc o' h' (-> & Ho' & Hz').
        exists (CR c (Nd lc ll la lv lr) y yv cx), yr,
          (np_after nl np (CR c (Nd lc ll la lv lr) y yv cx) yr).
        cbn [fst snd]. split_and!; auto.
        -- by intros ->.
        -- rewrite !elems_plug. list_norm. reflexivity.
        -- rewrite !ptrs_plug. simpl. keep_about z. set_solver.
        -- simpl in Hdepy. simpl. lia.
        -- destruct yc; simpl in HY.
           ++ destruct HY as (_ & Hcr & _ & Hyr). split.
              ** eapply rbt_plug; [exact Hcy | exact Hyr | by intros].
              ** by apply cblack_tcolor.
           ++ destruct ny as [|ny]; [done|]. destruct HY as [_ Hyr].
              exists ny. split_and!; auto. by apply rbt_deficit.
      * (* the successor is further down *)
        cbn [plug capp] in *. cbn [cptrs ptrs sepc sep] in *. sep_norm.
        rewrite rootp_plug. own_simpl. ptr_dec. cbn iota.
        ostep Hoy. ostep Hoy.
        rewrite bind_bind.
        eapply sat_bind;
          [apply (transplant_right_own dflt F nl np
                    (CL c1 a1 v1 (capp cy1 (CR c (Nd lc ll la lv lr) z v cx)) r1)
                    yc y yv yr s cnt _ _ Hoy)|].
        intros [] o1 h1 [Ho1 Hy1].
        set (np1 := np_after nl np
                      (CL c1 a1 v1 (capp cy1 (CR c (Nd lc ll la lv lr) z v cx)) r1) yr)
          in *.
        cbn [plug] in Ho1. rewrite plug_capp in Ho1. cbn [plug] in Ho1.
        destruct (plug_nd cy1 c1 yr a1 v1 r1) as (c' & l' & a' & v' & r' & Epl).
        rewrite Epl in Ho1.
        assert (HyF : F !! y = None).
        { apply (own_sep _ _ _ _ _ _ _ _ _ Hoy). rewrite ptrs_plug. simpl.
          clear. set_solver. }
        assert (Hyt : y ∉ ptrs (plug cx (Nd c (Nd lc ll la lv lr) z v (Nd c' l' a' v' r')))).
        { rewrite <- Epl. rewrite !ptrs_plug. simpl. rewrite !ptrs_plug. simpl.
          keep_about y. set_solver. }
        eapply returns_mono;
          [apply (relink_far_own dflt F nl np1 cx c lc ll la lv lr z v c' l' a' v' r'
                    y yv _ _ _ _ (rootp nl yr) yc s cnt _ _ Ho1 Hy1); auto|].
        intros xc o2 h2 (-> & Ho2 & Hz2). rewrite <- Epl in Ho2.
        exists (CL c1 a1 v1 (capp cy1 (CR c (Nd lc ll la lv lr) y yv cx)) r1), yr, np1.
        cbn [fst snd]. split_and!; auto.
        -- cbn [plug]. rewrite plug_capp. exact Ho2.
        -- intros ->. reflexivity.
        -- cbn [plug]. rewrite plug_capp. cbn [plug].
           rewrite !elems_plug. simpl in Hcl. list_norm. rewrite !elems_plug.
           simpl. list_norm. rewrite Hcl. reflexivity.
        -- cbn [plug]. rewrite plug_capp. cbn [plug].
           rewrite !ptrs_plug. simpl. rewrite !ptrs_plug. simpl.
           keep_about z. set_solver.
        -- simpl in Hdepy. simpl. rewrite cdepth_capp in *. simpl in *. lia.
        -- destruct yc; simpl in HY.
           ++ destruct HY as (_ & Hcr & _ & Hyr). split.
              ** eapply rbt_plug; [ | exact Hyr | by intros].
                 apply (rbc_capp_CR (CL c1 a1 v1 cy1 r1)) with (a := z) (v := v).
                 exact Hcy.
              ** apply cblack_tcolor; [|done].
                 apply (cblack_capp_CR (CL c1 a1 v1 cy1 r1)) with (a := z) (v := v).
                 exact Hcby.
           ++ destruct ny as [|ny]; [done|]. destruct HY as [_ Hyr].
              exists ny. split_and!.
              ** apply (rbc_capp_CR (CL c1 a1 v1 cy1 r1)) with (a := z) (v := v).
                 exact Hcy.
              ** by apply rbt_deficit.
              ** apply (cblack_capp_CR (CL c1 a1 v1 cy1 r1)) with (a := z) (v := v).
                 exact Hcby.
      * simpl in Hcl. apply app_eq_nil in Hcl as [_ Hcl].
        apply app_eq_nil in Hcl as [_ Hcl]. discriminate.
Qed.

End DeleteNode.

(** ** Post-order traversal *)

Section PostOrder.
Context {V X : Type}.
Implicit Types (h : heap V) (t : shape V) (cx : ctx V).

(** The order in which [post_order_process] hands out the nodes. *)
Fixpoint post (t : shape V) : list (ptr * V) :=
  match t with
  | Lf => []
  | Nd _ l a v r => post l ++ post r ++ [(a, v)]
  end.

(** What is left to visit above a position. *)
Fixpoint rest_up (cx : ctx V) : list (ptr * V) :=
  match cx with
  | Top => []
  | CL _ a v up r => post r ++ (a, v) :: rest_up up
  | CR _ l a v up => post l ++ (a, v) :: rest_up up
  end.

Lemma tsize_elems t : tsize t = length (elems t).
Proof.
  induction t as [|c l IHl a v r IHr]; simpl; [done|].
  rewrite length_app. simpl. lia.
Qed.

Lemma post_elems t : post t ≡ₚ elems t.
Proof.
  induction t as [|c l IHl a v r IHr]; simpl; [done|].
  rewrite IHl, IHr. apply Permutation_app_head.
  by rewrite <- Permutation_cons_append.
Qed.

Lemma elem_of_elems t q : q ∈ ptrs t → ∃ v, (q, v) ∈ elems t.
Proof.
  induction t as [|c l IHl a v r IHr]; simpl; [set_solver|].
  intros Hq. apply elem_of_union in Hq as [Hq|Hq];
    [apply elem_of_union in Hq as [Hq|Hq]|].
  - apply elem_of_singleton in Hq as ->. exists v.
    apply elem_of_app. right. by left.
  - destruct (IHl Hq) as [w Hw]. exists w. apply elem_of_app. by left.
  - destruct (IHr Hq) as [w Hw]. exists w. apply elem_of_app. right. by right.
Qed.

Lemma elems_ptrs t e : e ∈ elems t → e.1 ∈ ptrs t.
Proof.
  induction t as [|c l IHl a v r IHr]; simpl; [by intros ?%elem_of_nil|].
  intros He. apply elem_of_app in He as [He|He].
  - specialize (IHl He). set_solver.
  - apply elem_of_cons in He as [->|He]; [set_solver|].
    specialize (IHr He). set_solver.
Qed.

Variable nil : ptr.
Variable action : ptr → M V X unit.

(** [P rest done x h]: the invariant of the traversal; [rest] are the
    nodes still to be visited, [done] those handed to [action]. *)
Variable P : gset ptr → list (ptr * V) → X → heap V → Prop.

Hypothesis P_stable : ∀ rest done x h a n,
  P rest done x h → a ∈ rest → P rest done x (<[a := n]> h).

Hypothesis action_ok : ∀ rest done a n x h,
  P ({[a]} ∪ rest) done x h → a ∉ rest → a ≠ nil →
  h !! a = Some n → color n = Red →
  returns (action a x h) (λ _ x' h',
    P rest (done ++ [(a, val n)]) x' h'
    ∧ ∀ q m, q ∈ rest → h !! q = Some m → h' !! q = Some m).

Lemma post_order_loop_sat fuel : ∀ cx t done x h,
  t ≠ Lf ∨ cx = Top →
  rep h nil (plug cx t) nil →
  P (ptrs (plug cx t)) done x h →
  (2 * tsize (plug cx t) < fuel + cdepth cx)%nat →
  returns (post_order_loop fuel nil action (rootp nil t) x h)
    (λ _ x' h', P ∅ (done ++ post t ++ rest_up cx) x' h').
Proof.
  induction fuel as [|fuel IH]; intros cx t done x h Hpos Hrep HP Hfuel.
  { pose proof (cdepth_tsize cx t). lia. }
  cbn [post_order_loop].
  destruct t as [|c l a v r].
  - destruct Hpos as [ ? | -> ]; [done|]. simpl. rewrite ptr_neb_refl.
    simpl. by rewrite app_nil_r.
  - pose proof (rep_not_nil _ _ _ _ Hrep) as Hnn.
    pose proof Hrep as Hrep0.
    apply rep_plug in Hrep as (Hc & Hr & Hd).
    rewrite ptrs_plug in Hnn.
    destruct l as [|lc ll la lv lr].
    + destruct r as [|rc rl ra rv rr].
      * (* a leaf: it is detached and handed over *)
        destruct cx as [|pc pa pv up pr|pc pl pa pv up];
          simpl in Hc, Hr, Hd, Hnn; sep_norm; cbn [rootp]; msteps.
        -- (* the last node *)
           eapply sat_bind.
           { eapply (action_ok ∅ done a);
               [ | clear; set_solver | done | apply lookup_insert_eq | reflexivity ].
             simpl in HP.
             replace ({[a]} ∪ ∅) with ({[a]} ∪ ∅ ∪ ∅ : gset ptr) by (clear; set_solver).
             apply P_stable; [exact HP | clear; set_solver]. }
           intros [] x' h' [HP' _]. cbn beta.
           destruct fuel; [simpl in Hfuel; lia|].
           simpl. rewrite ptr_neb_refl. simpl. exact HP'.
        -- (* a left child *)
           set (h1 := <[a := _]> _).
           assert (Hrep1 : rep h1 nil (plug up (Nd pc Lf pa pv pr)) nil).
           { subst h1. apply rep_plug. simpl. split_and?; rep_goal. }
           assert (HP1 : P ({[a]} ∪ ptrs (plug up (Nd pc Lf pa pv pr))) done x h1).
           { subst h1. simpl in HP. rewrite ptrs_plug in *. simpl in *.
             match goal with
             | |- P ?S _ _ _ =>
                 match type of HP with
                 | P ?S0 _ _ _ => replace S with S0 by (clear; set_solver)
                 end
             end.
             apply P_stable; [apply P_stable|]; [exact HP | clear; set_solver..]. }
           eapply sat_bind.
           { eapply (action_ok _ done a _ x h1 HP1);
               [ | done | subst h1; apply lookup_insert_eq | reflexivity ].
             rewrite ptrs_plug. simpl. sep_solve. }
           intros [] x' h' [HP' Hkeep]. cbn beta.
           eapply returns_mono.
           { apply (IH up (Nd pc Lf pa pv pr) (done ++ [(a, v)]) x' h').
             - by left.
             - eapply rep_transfer; [exact Hrep1|]. intros q Hq.
               destruct (rep_live _ _ _ _ _ Hrep1 Hq) as [m Hm].
               rewrite Hm. by apply Hkeep.
             - exact HP'.
             - pose proof (tsize_plug up (Nd pc (Nd c Lf a v Lf) pa pv pr)
                             (Nd pc Lf pa pv pr)) as [E1 E2].
               simpl in *. lia. }
           intros [] x'' h'' HP''. simpl in *.
           by rewrite <- !app_assoc in HP''.
        -- (* a right child *)
           set (h1 := <[a := _]> _).
           assert (Hrep1 : rep h1 nil (plug up (Nd pc pl pa pv Lf)) nil).
           { subst h1. apply rep_plug. simpl. split_and?; rep_goal. }
           assert (HP1 : P ({[a]} ∪ ptrs (plug up (Nd pc pl pa pv Lf))) done x h1).
           { subst h1. simpl in HP. rewrite ptrs_plug in *. simpl in *.
             match goal with
             | |- P ?S _ _ _ =>
                 match type of HP with
                 | P ?S0 _ _ _ => replace S with S0 by (clear; set_solver)
                 end
             end.
             apply P_stable; [apply P_stable|]; [exact HP | clear; set_solver..]. }
           eapply sat_bind.
           { eapply (action_ok _ done a _ x h1 HP1);
               [ | done | subst h1; apply lookup_insert_eq | reflexivity ].
             rewrite ptrs_plug. simpl. sep_solve. }
           intros [] x' h' [HP' Hkeep]. cbn beta.
           eapply returns_mono.
           { apply (IH up (Nd pc pl pa pv Lf) (done ++ [(a, v)]) x' h').
             - by left.
             - eapply rep_transfer; [exact Hrep1|]. intros q Hq.
               destruct (rep_live _ _ _ _ _ Hrep1 Hq) as [m Hm].
               rewrite Hm. by apply Hkeep.
             - exact HP'.
             - pose proof (tsize_plug up (Nd pc pl pa pv (Nd c Lf a v Lf))
                             (Nd pc pl pa pv Lf)) as [E1 E2].
               simpl in *. lia. }
           intros [] x'' h'' HP''. simpl in *.
           rewrite <- ?app_assoc in *. simpl in *.
           rewrite <- ?app_assoc in *. simpl in *. exact HP''.
      * (* down to the right *)
        simpl in Hr, Hnn. sep_norm. cbn [rootp]. msteps.
        eapply returns_mono.
        { apply (IH (CR c Lf a v cx) (Nd rc rl ra rv rr) done x h).
          - by left.
          - exact Hrep0.
          - exact HP.
          - simpl. simpl in Hfuel. lia. }
        intros [] x'' h'' HP''. simpl in *.
        by rewrite <- !app_assoc in *.
    + (* down to the left *)
      simpl in Hr, Hnn. sep_norm. cbn [rootp]. msteps.
      eapply returns_mono.
      { apply (IH (CL c a v cx r) (Nd lc ll la lv lr) done x h).
        - by left.
        - exact Hrep0.
        - exact HP.
        - simpl. simpl in Hfuel. lia. }
      intros [] x'' h'' HP''. simpl in *.
      by rewrite <- !app_assoc in *.
Qed.

End PostOrder.

(** ** Frames *)

Section Frames.
Context {V : Type}.
Variable dflt : V.
Implicit Types (h F : heap V) (t : shape V) (cx : ctx V) (S : gset ptr).

(** The cells of [h] outside the set [S]. *)
Definition outside (S : gset ptr) (h : heap V) : heap V :=
  filter (λ kv, kv.1 ∉ S) h.

Lemma outside_in S h q : q ∈ S → outside S h !! q = None.
Proof.
  intros Hq. unfold outside. apply map_lookup_filter_None. right.
  intros n _. simpl. tauto.
Qed.

Lemma outside_out S h q : q ∉ S → outside S h !! q = h !! q.
Proof.
  intros Hq. unfold outside. destruct (h !! q) as [n|] eqn:E.
  - apply map_lookup_filter_Some. done.
  - apply map_lookup_filter_None. by left.
Qed.

Lemma framed_outside S h : framed (outside S h) h.
Proof.
  intros q n Hq. unfold outside in Hq.
  by apply map_lookup_filter_Some in Hq as [? _].
Qed.

(** [keeps S h h']: the live cells outside [S] are the same in [h'] as
    in [h]. *)
Definition keeps (S : gset ptr) (h h' : heap V) : Prop :=
  ∀ q n, q ∉ S → h !! q = Some n → h' !! q = Some n.

Lemma framed_keeps S h h' : framed (outside S h) h' → keeps S h h'.
Proof. intros Hf q n Hq Hn. apply Hf. by rewrite outside_out. Qed.

Lemma keeps_refl S h : keeps S h h.
Proof. by intros q n _ ?. Qed.

Lemma keeps_mono S S' h h' : S ⊆ S' → keeps S h h' → keeps S' h h'.
Proof. intros HS Hk q n Hq. apply Hk. set_solver. Qed.

(** The cells a tree is made of. *)
Definition foot (nl : ptr) (T : shape V) : gset ptr := {[nl]} ∪ ptrs T.

Lemma own_forget F nl np T s cnt o h :
  own dflt F nl np T s cnt o h → own dflt ∅ nl np T s cnt o h.
Proof. intros [Hx Hrep Hn Hf Hs Hns]. constructor; auto; done. Qed.

Lemma own_outside S nl np T s cnt o h :
  own dflt ∅ nl np T s cnt o h → foot nl T ⊆ S →
  own dflt (outside S h) nl np T s cnt o h.
Proof.
  intros [Hx Hrep Hn Hf Hs Hns] HS. constructor; auto.
  - apply framed_outside.
  - intros q Hq. apply outside_in. unfold foot in HS. set_solver.
  - apply outside_in. unfold foot in HS. set_solver.
Qed.

Lemma own_framed F nl np T s cnt o h :
  own dflt ∅ nl np T s cnt o h → framed F h →
  (∀ q, q ∈ foot nl T → F !! q = None) →
  own dflt F nl np T s cnt o h.
Proof.
  intros [Hx Hrep Hn Hf Hs Hns] HF Hd. constructor; auto.
  - intros q Hq. apply Hd. unfold foot. set_solver.
  - apply Hd. unfold foot. set_solver.
Qed.

(** A tree is unaffected by changes outside its cells. *)
Lemma own_keeps S nl np T s cnt o h h' :
  own dflt ∅ nl np T s cnt o h → keeps S h h' → foot nl T ## S →
  own dflt ∅ nl np T s cnt o h'.
Proof.
  intros [Hx Hrep Hn Hf Hs Hns] Hk Hd. unfold foot in Hd. constructor; auto.
  - eapply rep_transfer; eauto. intros q Hq.
    destruct (rep_live _ _ _ _ _ Hrep Hq) as [n Hq'].
    rewrite Hq'. apply Hk; [set_solver | done].
  - apply Hk; [set_solver | done].
  - done.
Qed.

Lemma own_foot_live F nl np T s cnt o h q :
  own dflt F nl np T s cnt o h → q ∈ foot nl T → is_Some (h !! q).
Proof.
  intros Ho Hq. unfold foot in Hq. apply elem_of_union in Hq as [Hq|Hq].
  - apply elem_of_singleton in Hq as ->. destruct Ho as [_ _ Hn _ _ _]. eauto.
  - destruct Ho as [_ Hrep _ _ _ _]. by eapply rep_live.
Qed.

End Frames.

(** ** [clear] *)

Section Clear.
Context {V : Type}.
Variable dflt : V.
Implicit Types (h F : heap V) (t : shape V) (cx : ctx V).

Definition clear_action (node : ptr) : M V Rb_tree unit :=
  let* nl := this nil_ in
  if ptr_neb node nl then destroy_node node else ret tt.

Definition clearing (F : heap V) (nl np : ptr) (o : Rb_tree)
  : gset ptr → list (ptr * V) → Rb_tree → heap V → Prop :=
  λ rest done x h,
    x = o ∧ h !! nl = Some (mkNode dflt Black nl nl np) ∧ framed F h
    ∧ nl ∉ rest ∧ (∀ q, q ∈ rest → F !! q = None)
    ∧ (∀ e, e ∈ done → h !! e.1 = None)
    ∧ (∀ e, e ∈ done → e.1 ∉ rest).

Lemma clear_own fuel F nl np T s cnt o h :
  own dflt F nl np T s cnt o h →
  (2 * tsize T < fuel)%nat →
  returns (clear fuel o h) (λ _ o' h',
    own dflt F nl np Lf s 0 o' h'
    ∧ ∀ q, q ∈ ptrs T → h' !! q = None).
Proof.
  intros Ho Hfuel.
  pose proof (own_obj_eq _ _ _ _ _ _ _ _ _ Ho) as Eo.
  destruct Ho as [_ Hrep Hn Hf Hs Hns].
  pose proof (rep_not_nil _ _ _ _ Hrep) as Hnn.
  unfold clear, destroy_subtree, post_order_process.
  subst o. rewrite !bind_this. cbn [root nil_].
  set (o := mkTree s (rootp nl T) nl cnt).
  destruct T as [|c l a v r].
  - simpl. rewrite ptr_eqb_refl. rewrite bind_ret, bind_this, bind_update.
    rewrite update_ok. simpl. split; [by constructor | set_solver].
  - simpl in Hnn. cbn [rootp]. rewrite ptr_eqb_ne by (clear -Hnn; set_solver).
    eapply sat_bind.
    { apply (post_order_loop_sat nl _ (clearing F nl np o))
        with (cx := Top) (t := Nd c l a v r) (done := []).
      - (* writes to nodes still to be visited *)
        intros rest done x h0 a0 n0 (-> & Hn0 & Hf0 & Hnr & Hr0 & Hd0 & Hd1) Ha0.
        split_and!; auto.
        + rewrite lookup_insert_ne; [done|]. by intros ->.
        + apply framed_insert; auto.
        + intros e He. rewrite lookup_insert_ne; [by apply Hd0|].
          intros E. apply (Hd1 e He). by rewrite <- E.
      - (* destroying a node *)
        intros rest done a0 n0 x h0 (-> & Hn0 & Hf0 & Hnr & Hr0 & Hd0 & Hd1)
          Ha0 Hanl Hcell Hcol.
        rewrite bind_this. cbn [nil_ o].
        rewrite ptr_neb_ne by done.
        unfold destroy_node. rewrite Hcell. simpl. split.
        + split_and!; auto.
          * rewrite lookup_delete_ne; [done|]. done.
          * apply framed_delete; auto. apply Hr0. set_solver.
          * set_solver.
          * intros q Hq. apply Hr0. set_solver.
          * intros e He. apply elem_of_app in He as [He|He].
            -- destruct (decide (e.1 = a0)) as [->|Hne].
               ++ apply lookup_delete_eq.
               ++ rewrite lookup_delete_ne; [by apply Hd0 | done].
            -- apply list_elem_of_singleton in He as ->. simpl.
               apply lookup_delete_eq.
          * intros e He. apply elem_of_app in He as [He|He].
            -- specialize (Hd1 e He). set_solver.
            -- apply list_elem_of_singleton in He as ->. done.
        + intros q m Hq Hm. rewrite lookup_delete_ne; [done|]. by intros <-.
      - by left.
      - exact Hrep.
      - split_and!; [ done | exact Hn | exact Hf | exact Hnn | exact Hs
                    | intros e He; by apply elem_of_nil in He .. ].
      - simpl in *. lia. }
    intros [] o' h' (-> & Hn' & Hf' & _ & _ & Hd0 & _). cbn beta.
    rewrite bind_this, bind_update, update_ok. simpl. split.
    + constructor; auto; [exact I | intros q Hq; by apply elem_of_empty in Hq].
    + intros q Hq. destruct (elem_of_elems (Nd c l a v r) q Hq) as [w Hw].
      apply (Hd0 (q, w)). cbn [app rest_up]. rewrite app_nil_r.
      rewrite (post_elems (Nd c l a v r)). exact Hw.
Qed.

End Clear.

(** ** Order of the keys *)

Section Order.
Context {V : Type}.
Variable kov : V → Z.
Implicit Types (t T : shape V) (cx : ctx V) (l : list (ptr * V)).

Lemma keys_app l1 l2 : keys kov (l1 ++ l2) = keys kov l1 ++ keys kov l2.
Proof. unfold keys. apply map_app. Qed.

Lemma keys_perm l1 l2 : l1 ≡ₚ l2 → keys kov l1 ≡ₚ keys kov l2.
Proof. unfold keys. by intros ->. Qed.

Lemma sorted_lt_le (ks : list Z) : StronglySorted Z.lt ks → StronglySorted Z.le ks.
Proof.
  induction 1 as [|k ks Hs IH Hk]; constructor; auto.
  eapply Forall_impl; [exact Hk|]. simpl. intros. lia.
Qed.

Lemma strictly_ordered_ordered T : strictly_ordered kov T → ordered kov T.
Proof. apply sorted_lt_le. Qed.

Lemma sorted_insert (R : Z → Z → Prop) (l1 l2 : list Z) k :
  StronglySorted R (l1 ++ l2) →
  Forall (λ x, R x k) l1 → Forall (λ x, R k x) l2 →
  StronglySorted R (l1 ++ k :: l2).
Proof.
  intros Hs H1 H2. apply StronglySorted_app in Hs as (H12 & Hs1 & Hs2).
  apply StronglySorted_app. split_and!; auto.
  - intros x y Hx Hy. apply elem_of_cons in Hy as [->|Hy]; [|by apply H12].
    by eapply Forall_forall in H1.
  - by constructor.
Qed.

Lemma sorted_remove (R : Z → Z → Prop) (l1 l2 : list Z) k :
  StronglySorted R (l1 ++ k :: l2) → StronglySorted R (l1 ++ l2).
Proof.
  intros Hs. apply StronglySorted_app in Hs as (H12 & Hs1 & Hs2).
  apply StronglySorted_cons in Hs2 as [_ Hs2].
  apply StronglySorted_app. split_and!; auto.
  intros x y Hx Hy. apply H12; auto. by right.
Qed.

(** The elements of the tree around the place where [descend] stops. *)
Lemma descend_elems key u T :
  (descend kov key u Top T).2 = true →
  elems T = cleft (descend kov key u Top T).1.1
            ++ cright (descend kov key u Top T).1.1.
Proof.
  intros Hd. pose proof (descend_plug kov key u Top T) as Hp.
  rewrite (descend_created kov key u Top T Hd) in Hp. simpl in Hp.
  rewrite <- Hp at 1. by rewrite elems_plug.
Qed.

(** Inserting where [descend] stops keeps the keys in order. *)
Lemma insert_ordered key u T (a : ptr) (v : V) l :
  ordered kov T → kov v = key →
  (descend kov key u Top T).2 = true →
  l = cleft (descend kov key u Top T).1.1
      ++ (a, v) :: cright (descend kov key u Top T).1.1 →
  StronglySorted Z.le (keys kov l).
Proof.
  intros Ho Hk Hd ->.
  destruct (descend_bounds kov key u Top T Ho) as [H1 H2]; auto;
    try (by constructor).
  rewrite keys_app. simpl. rewrite Hk.
  apply sorted_insert; auto.
  - rewrite <- keys_app, <- descend_elems; done.
  - eapply Forall_impl; [exact H2|]. simpl. intros. lia.
Qed.

Lemma insert_strictly_ordered key T (a : ptr) (v : V) l :
  strictly_ordered kov T → kov v = key →
  (descend kov key true Top T).2 = true →
  l = cleft (descend kov key true Top T).1.1
      ++ (a, v) :: cright (descend kov key true Top T).1.1 →
  StronglySorted Z.lt (keys kov l).
Proof.
  intros Ho Hk Hd ->.
  pose proof (strictly_ordered_ordered _ Ho) as Ho'.
  destruct (descend_bounds kov key true Top T Ho') as [H1 H2]; auto;
    try (by constructor).
  pose proof (descend_bounds_strict kov key Top T Ho') as H3.
  rewrite keys_app. simpl. rewrite Hk.
  apply sorted_insert; auto.
  rewrite <- keys_app, <- descend_elems; done.
Qed.

(** With unique keys, [descend] finds every key of an ordered tree. *)
Lemma descend_complete key cx t :
  ordered kov t → key ∈ keys kov (elems t) →
  (descend kov key true cx t).2 = false.
Proof.
  revert cx. induction t as [|c l IHl a v r IHr]; intros cx; simpl.
  - intros _ Hk. by apply elem_of_nil in Hk.
  - unfold ordered. simpl. rewrite keys_app. simpl. intros Ho Hk.
    apply StronglySorted_app in Ho as (Hlr & Hol & Hor).
    apply StronglySorted_cons in Hor as [Hvr Hor].
    destruct (negb (comp key (kov v)) && negb (comp (kov v) key)) eqn:E; [done|].
    unfold comp in *.
    apply elem_of_app in Hk as [Hk|Hk]; [|apply elem_of_cons in Hk as [->|Hk]].
    + assert (key ≤ kov v) by (apply Hlr; [done | by left]).
      destruct (key <? kov v) eqn:E1; [by apply IHl|]. simpl in E. lia.
    + simpl in E. lia.
    + assert (kov v ≤ key) by (by eapply Forall_forall in Hvr).
      destruct (key <? kov v) eqn:E1; [lia|]. by apply IHr.
Qed.

Lemma descend_iff key u T :
  ordered kov T →
  (descend kov key u Top T).2 = false ↔ u = true ∧ key ∈ keys kov (elems T).
Proof.
  intros Ho. split.
  - intros Hd. destruct (descend_found kov key u Top T Hd)
      as (-> & c & l & a & v & r & E & Hk). split; [done|].
    pose proof (descend_plug kov key true Top T) as Hp. rewrite E in Hp.
    change (plug Top T) with T in Hp.
    rewrite <- Hp, elems_plug. unfold keys. simpl. rewrite ?map_app. simpl.
    rewrite ?map_app. simpl. rewrite Hk. clear. set_solver.
  - intros [-> Hk]. by apply descend_complete.
Qed.

End Order.

(** ** The operations of the engine on a well-formed tree *)

Section Safe.
Context {V : Type}.
Variable kov : V → Z.
Variable dflt : V.
Implicit Types (h F : heap V) (t T : shape V) (cx : ctx V).

(** [shaped uq T]: a red-black tree with a black root and ordered keys,
    strictly ordered when [uq] is set. *)
Definition shaped (uq : bool) (T : shape V) : Prop :=
  (∃ m, rbt m T) ∧ tcolor T = Black ∧ ordered kov T
  ∧ (uq = true → strictly_ordered kov T).

Lemma shaped_Lf uq : shaped uq Lf.
Proof. split_and!; [by exists 0%nat | done | constructor | intros; constructor]. Qed.

Lemma shaped_weaken uq T : shaped uq T → shaped false T.
Proof. intros (? & ? & ? & ?). by split_and!. Qed.

Lemma shaped_mono uq uq' T :
  (uq' = true → uq = true) → shaped uq T → shaped uq' T.
Proof. intros Hu (? & ? & ? & ?). split_and!; auto. Qed.

(** Every node of a tree is at some position. *)
Lemma locate T z :
  z ∈ ptrs T → ∃ cx c l v r, T = plug cx (Nd c l z v r).
Proof.
  assert (∀ t cx, z ∈ ptrs t → ∃ cx' c l v r, plug cx t = plug cx' (Nd c l z v r))
    as H.
  { induction t as [|c l IHl a v r IHr]; intros cx; simpl; [set_solver|].
    intros Hz. apply elem_of_union in Hz as [Hz|Hz];
      [apply elem_of_union in Hz as [Hz|Hz]|].
    - apply elem_of_singleton in Hz as ->. by exists cx, c, l, v, r.
    - apply (IHl (CL c a v cx r) Hz).
    - apply (IHr (CR c l a v cx) Hz). }
  intros Hz. apply (H T Top Hz).
Qed.

Lemma insert_node_keeps fuel uq nl np T s cnt o h a n u :
  (tsize T < fuel)%nat →
  own dflt ∅ nl np T s cnt o h → shaped uq T →
  h !! a = Some n → color n = Red → a ∉ foot nl T →
  returns (insert_node kov fuel a u o h) (λ b o' h',
    if b then
      ¬ (u = true ∧ kov (val n) ∈ keys kov (elems T))
      ∧ ∃ T' l1 l2,
          own dflt ∅ nl np T' s cnt o' h' ∧ shaped (uq && u) T'
          ∧ elems T = l1 ++ l2 ∧ elems T' = l1 ++ (a, val n) :: l2
          ∧ ptrs T' = {[a]} ∪ ptrs T
          ∧ keeps (foot nl T ∪ {[a]}) h h'
    else u = true ∧ kov (val n) ∈ keys kov (elems T) ∧ o' = o ∧ h' = h).
Proof.
  intros Hfuel Ho ([m Hrb] & Hcol & Hord & Hstr) Hcell Hred Ha.
  set (S := foot nl T ∪ {[a]}).
  pose proof (own_outside dflt S _ _ _ _ _ _ _ Ho ltac:(subst S; set_solver)) as Ho1.
  eapply returns_mono.
  { eapply (insert_node_own kov dflt fuel (outside S h) nl np T m s cnt o h a n (val n) u);
      eauto.
    - unfold foot in Ha. set_solver.
    - unfold foot in Ha. set_solver.
    - apply outside_in. subst S. set_solver. }
  intros b o' h' Hpost. unfold insert_node_post in Hpost. cbn zeta in Hpost.
  destruct Hpost as [-> Hpost].
  pose proof (descend_iff kov (kov (val n)) u T Hord) as Hiff.
  destruct (descend kov (kov (val n)) u Top T).2 eqn:Hd.
  - destruct Hpost as (T' & m' & Ho' & Hrb' & Hcol' & He' & Hp').
    split.
    { intros H. apply Hiff in H. done. }
    exists T', (cleft (descend kov (kov (val n)) u Top T).1.1),
      (cright (descend kov (kov (val n)) u Top T).1.1). split_and!.
    + by eapply own_forget.
    + split_and!; [by eauto | done | |].
      * eapply insert_ordered; eauto.
      * intros Hu. apply andb_true_iff in Hu as [-> ->].
        eapply insert_strictly_ordered; eauto.
    + by apply descend_elems.
    + exact He'.
    + exact Hp'.
    + apply framed_keeps. by destruct Ho'.
  - destruct Hpost as [-> ->]. destruct Hiff as [Hiff _].
    destruct (Hiff eq_refl) as [-> Hk]. done.
Qed.

Lemma delete_node_keeps fuel uq nl np T s cnt o h z :
  (2 * tsize T < fuel)%nat →
  own dflt ∅ nl np T s cnt o h → shaped uq T → z ∈ ptrs T →
  returns (delete_node fuel z o h) (λ _ o' h',
    ∃ T' np' l1 v l2,
      own dflt ∅ nl np' T' s (wrap (cnt - 1)) o' h' ∧ shaped uq T'
      ∧ elems T = l1 ++ (z, v) :: l2 ∧ elems T' = l1 ++ l2
      ∧ ptrs T' = ptrs T ∖ {[z]}
      ∧ keeps (foot nl T) h h').
Proof.
  intros Hfuel Ho ([m Hrb] & Hcol & Hord & Hstr) Hz.
  destruct (locate T z Hz) as (cx & c & l & v & r & ->).
  set (T := plug cx (Nd c l z v r)) in *.
  set (S := foot nl T).
  pose proof (own_outside dflt S _ _ _ _ _ _ _ Ho ltac:(done)) as Ho1.
  assert (HeT : elems T = (cleft cx ++ elems l) ++ (z, v) :: elems r ++ cright cx).
  { subst T. rewrite elems_plug. simpl. by rewrite <- !app_assoc. }
  eapply returns_mono.
  { eapply (delete_node_own dflt fuel (outside S h) nl np cx c l z v r m s cnt o h);
      eauto. }
  intros [] o' h' (T' & m' & np' & Ho' & Hrb' & Hcol' & He' & Hp').
  exists T', np', (cleft cx ++ elems l), v, (elems r ++ cright cx).
  split_and!; auto.
  - by eapply own_forget.
  - assert (HeT' : keys kov (elems T') = keys kov (cleft cx ++ elems l)
                                        ++ keys kov (elems r ++ cright cx)).
    { rewrite He', <- keys_app. by rewrite <- !app_assoc. }
    split_and!; [by eauto | done | |].
    + unfold ordered in *. rewrite HeT' . rewrite HeT, keys_app in Hord.
      simpl in Hord. by eapply sorted_remove.
    + intros Hu. specialize (Hstr Hu). unfold strictly_ordered in *.
      rewrite HeT'. rewrite HeT, keys_app in Hstr.
      simpl in Hstr. by eapply sorted_remove.
  - rewrite He'. by rewrite <- !app_assoc.
  - apply framed_keeps. by destruct Ho'.
Qed.

Lemma clear_keeps fuel nl np T s cnt o h :
  (2 * tsize T < fuel)%nat →
  own dflt ∅ nl np T s cnt o h →
  returns (clear fuel o h) (λ _ o' h',
    own dflt ∅ nl np Lf s 0 o' h'
    ∧ keeps (foot nl T) h h'
    ∧ ∀ q, q ∈ ptrs T → h' !! q = None).
Proof.
  intros Hfuel Ho.
  pose proof (own_outside dflt (foot nl T) _ _ _ _ _ _ _ Ho ltac:(done)) as Ho1.
  eapply returns_mono; [eapply clear_own; eauto|].
  intros [] o' h' [Ho' Hfree]. split_and!; auto.
  - by eapply own_forget.
  - apply framed_keeps. by destruct Ho'.
Qed.

End Safe.

Section SafeInsert.
Context {V : Type}.
Variable kov : V → Z.
Variable dflt : V.
Variable alloc : heap V → option ptr.
Hypothesis alloc_fresh : ∀ h a, alloc h = Some a → h !! a = None.
Implicit Types (h F : heap V) (t T : shape V) (cx : ctx V).

Lemma insert_keeps fuel uq nl np T s cnt o h v u :
  (tsize T < fuel)%nat →
  own dflt ∅ nl np T s cnt o h → shaped kov uq T →
  sat (insert kov alloc fuel (kov v) v u o h)
    (λ res o' h',
      if res.2 then
        ¬ (u = true ∧ kov v ∈ keys kov (elems T))
        ∧ h !! res.1 = None
        ∧ ∃ T' l1 l2,
            own dflt ∅ nl np T' s (wrap (cnt + 1)) o' h' ∧ shaped kov (uq && u) T'
            ∧ elems T = l1 ++ l2 ∧ elems T' = l1 ++ (res.1, v) :: l2
            ∧ ptrs T' = {[res.1]} ∪ ptrs T
            ∧ keeps (foot nl T) h h'
      else
        u = true ∧ (∃ w, (res.1, w) ∈ elems T ∧ kov w = kov v)
        ∧ o' = o ∧ h' = h)
    (λ o' h', o' = o ∧ h' = h ∧ alloc h = None
              ∧ ¬ (u = true ∧ kov v ∈ keys kov (elems T))).
Proof.
  intros Hfuel Ho ([m Hrb] & Hcol & Hord & Hstr).
  set (S := foot nl T).
  pose proof (own_outside dflt S _ _ _ _ _ _ _ Ho ltac:(done)) as Ho1.
  pose proof (descend_iff kov (kov v) u T Hord) as Hiff.
  eapply sat_mono.
  { eapply (insert_own kov dflt alloc alloc_fresh fuel (outside S h)
              nl np T m s cnt o h v u); eauto. }
  - intros res o' h' Hpost. unfold insert_post in Hpost. cbn zeta in Hpost.
    destruct (descend kov (kov v) u Top T).2 eqn:Hd.
    + destruct Hpost as (a & T' & m' & -> & Hfresh & Ho' & Hrb' & Hcol' & He' & Hp').
      cbn [fst snd]. split_and!; auto.
      { intros H. apply Hiff in H. done. }
      exists T', (cleft (descend kov (kov v) u Top T).1.1),
        (cright (descend kov (kov v) u Top T).1.1). split_and!.
      * by eapply own_forget.
      * split_and!; [by eauto | done | |].
        -- eapply insert_ordered; eauto.
        -- intros Hu. apply andb_true_iff in Hu as [-> ->].
           eapply insert_strictly_ordered; eauto.
      * by apply descend_elems.
      * exact He'.
      * exact Hp'.
      * apply framed_keeps. by destruct Ho'.
    + destruct Hpost as (-> & -> & ->). cbn [fst snd].
      destruct (descend_found kov (kov v) u Top T Hd)
        as (-> & c & l & a & w & r & E & Hk).
      split_and!; auto. exists w. split; [|done].
      pose proof (descend_plug kov (kov v) true Top T) as Hp. rewrite E in Hp.
      change (plug Top T) with T in Hp. rewrite E. simpl.
      rewrite <- Hp, elems_plug. simpl. clear. set_solver.
  - intros o' h' (-> & -> & Hd & Hnone). split_and!; auto.
    intros H. apply Hiff in H. congruence.
Qed.

End SafeInsert.

(** ** [merge] *)

Section PairState.
Context {V X Y : Type}.

Lemma returns_on_fst {A} (m : M V X A) (x : X) (y : Y) h Q :
  returns (m x h) Q →
  returns (on_fst m (x, y) h) (λ r xy h', xy.2 = y ∧ Q r xy.1 h').
Proof. unfold on_fst. simpl. destruct (m x h); simpl; auto. Qed.

Lemma returns_on_snd {A} (m : M V Y A) (x : X) (y : Y) h Q :
  returns (m y h) Q →
  returns (on_snd m (x, y) h) (λ r xy h', xy.1 = x ∧ Q r xy.2 h').
Proof. unfold on_snd. simpl. destruct (m y h); simpl; auto. Qed.

End PairState.

Section Merge.
Context {V : Type}.
Variable kov : V → Z.
Variable dflt : V.
Implicit Types (h F : heap V) (t T : shape V) (cx : ctx V).

(** The count after [n] increments. *)
Definition bumped (n : nat) (c : Z) : Z := Nat.iter n (λ c, wrap (c + 1)) c.

(** What [merge] does with the nodes of the source, in the order of the
    traversal: [st.1.1] are the nodes moved to the destination, [st.1.2]
    those put back into the source, [st.2] counts the nodes the
    destination refused. *)
Definition mstep (u : bool) (KA : list Z)
    (st : list (ptr * V) * list (ptr * V) * nat) (e : ptr * V)
  : list (ptr * V) * list (ptr * V) * nat :=
  if u && bool_decide (kov e.2 ∈ KA ++ keys kov st.1.1) then
    (st.1.1,
     if bool_decide (kov e.2 ∈ keys kov st.1.2) then st.1.2 else st.1.2 ++ [e],
     S st.2)
  else (st.1.1 ++ [e], st.1.2, st.2).

Definition msplit (u : bool) (KA : list Z) (l : list (ptr * V))
  : list (ptr * V) * list (ptr * V) * nat :=
  foldl (mstep u KA) ([], [], 0%nat) l.

Lemma msplit_snoc u KA l e :
  msplit u KA (l ++ [e]) = mstep u KA (msplit u KA l) e.
Proof. unfold msplit. by rewrite foldl_app. Qed.

Lemma msplit_length u KA l :
  (length (msplit u KA l).1.1 + length (msplit u KA l).1.2 ≤ length l)%nat.
Proof.
  induction l as [|e l IH] using rev_ind; [simpl; lia|].
  rewrite msplit_snoc, length_app. simpl. unfold mstep.
  destruct (u && _); simpl.
  - destruct (bool_decide _); rewrite ?length_app; simpl; lia.
  - rewrite length_app. simpl. lia.
Qed.

Lemma keeps_trans (S : gset ptr) h1 h2 h3 :
  keeps S h1 h2 → keeps S h2 h3 → keeps S h1 h3.
Proof. intros H1 H2 q n Hq Hn. apply H2; auto. Qed.

Lemma keeps_insert (S : gset ptr) h a n : a ∈ S → keeps S h (<[a := n]> h).
Proof.
  intros Ha q m Hq Hm. rewrite lookup_insert_ne; [done|]. by intros ->.
Qed.

Lemma own_insert_other nl np T s cnt o h a n :
  own dflt ∅ nl np T s cnt o h → a ∉ foot nl T →
  own dflt ∅ nl np T s cnt o (<[a := n]> h).
Proof.
  intros Ho Ha. eapply (own_keeps dflt {[a]}); eauto.
  - apply keeps_insert. set_solver.
  - set_solver.
Qed.

Lemma mstep_moved u KA st e :
  ¬ (u = true ∧ kov e.2 ∈ KA ++ keys kov st.1.1) →
  mstep u KA st e = (st.1.1 ++ [e], st.1.2, st.2).
Proof.
  intros H. unfold mstep. destruct u; [|done]. simpl.
  rewrite bool_decide_eq_false_2; [done|]. tauto.
Qed.

Lemma mstep_back u KA st e :
  u = true →
  kov e.2 ∈ KA ++ keys kov st.1.1 → kov e.2 ∉ keys kov st.1.2 →
  mstep u KA st e = (st.1.1, st.1.2 ++ [e], S st.2).
Proof.
  intros -> H1 H2. unfold mstep. simpl.
  rewrite bool_decide_eq_true_2 by done.
  by rewrite bool_decide_eq_false_2 by done.
Qed.

Lemma mstep_lost u KA st e :
  u = true →
  kov e.2 ∈ KA ++ keys kov st.1.1 → kov e.2 ∈ keys kov st.1.2 →
  mstep u KA st e = (st.1.1, st.1.2, S st.2).
Proof.
  intros -> H1 H2. unfold mstep. simpl.
  rewrite bool_decide_eq_true_2 by done.
  by rewrite bool_decide_eq_true_2 by done.
Qed.

Lemma elems_inserted (l1 l2 : list (ptr * V)) T T' (e : ptr * V) :
  elems T = l1 ++ l2 →
  elems T' = l1 ++ e :: l2 →
  elems T' ≡ₚ elems T ++ [e].
Proof.
  intros -> ->. rewrite <- Permutation_middle.
  by rewrite <- Permutation_cons_append.
Qed.

(** The lambda handed to [post_order_process] by [merge]. *)
Definition merge_action (fuel : nat) (u : bool) (node : ptr)
  : M V (Rb_tree * Rb_tree) unit :=
  let* b := on_fst (insert_node kov fuel node u) in
  if b then
    on_fst (update (λ x, with_count (wrap (node_count x + 1)) x))
  else
    on_snd (insert_node kov fuel node u) ;;
    on_snd (update (λ x, with_count (wrap (node_count x + 1)) x)).

Section Invariant.
Variables (u uqA : bool) (nlA npA : ptr) (TA : shape V) (sA : nat) (cA : Z).
Variables (nlB : ptr) (TB : shape V) (sB : nat) (h0 : heap V).

Definition merging
  : gset ptr → list (ptr * V) → Rb_tree * Rb_tree → heap V → Prop :=
  λ rest done x h, ∃ TA' TB',
    own dflt ∅ nlA npA TA' sA
      (bumped (length (msplit u (keys kov (elems TA)) done).1.1) cA) x.1 h
    ∧ own dflt ∅ nlB nlB TB' sB
        (bumped (msplit u (keys kov (elems TA)) done).2 0) x.2 h
    ∧ (shaped kov (uqA && u) TA' ∧ shaped kov u TB')
    ∧ (elems TA' ≡ₚ elems TA ++ (msplit u (keys kov (elems TA)) done).1.1
       ∧ elems TB' ≡ₚ (msplit u (keys kov (elems TA)) done).1.2)
    ∧ (foot nlA TA' ## foot nlB TB' ∧ foot nlA TA' ## rest
       ∧ foot nlB TB' ## rest
       ∧ ptrs TA' ∪ ptrs TB' ∪ rest ⊆ ptrs TA ∪ ptrs TB)
    ∧ keeps (foot nlA TA ∪ foot nlB TB) h0 h
    ∧ (length done + size rest ≤ tsize TB)%nat.

Lemma merging_stable rest done x h a n :
  merging rest done x h → a ∈ rest → merging rest done x (<[a := n]> h).
Proof.
  intros (TA' & TB' & HoA & HoB & Hsh & Hel & Hd & Hk & Hsz) Ha.
  destruct Hd as (Hd1 & Hd2 & Hd3 & Hd4).
  exists TA', TB'.
  split; [|split; [|split; [exact Hsh|split;
    [exact Hel|split; [by split_and!|split; [|exact Hsz]]]]]].
  - apply own_insert_other; auto. clear -Hd2 Ha. set_solver.
  - apply own_insert_other; auto. clear -Hd3 Ha. set_solver.
  - eapply keeps_trans; [exact Hk|]. apply keeps_insert.
    unfold foot. clear -Hd4 Ha. set_solver.
Qed.

Lemma merge_action_ok fuel rest done a n x h :
  (tsize TA + tsize TB < fuel)%nat →
  merging ({[a]} ∪ rest) done x h → a ∉ rest → a ≠ nlB →
  h !! a = Some n → color n = Red →
  returns (merge_action fuel u a x h) (λ _ x' h',
    merging rest (done ++ [(a, val n)]) x' h'
    ∧ ∀ q m, q ∈ rest → h !! q = Some m → h' !! q = Some m).
Proof.
  intros Hfuel (TA' & TB' & HoA & HoB & (HshA & HshB) & (HeA & HeB)
    & (Hd1 & Hd2 & Hd3 & Hd4) & Hk & Hsz) Har Hanl Hcell Hcol.
  destruct x as [A B]. cbn [fst snd] in HoA, HoB.
  set (KA := keys kov (elems TA)) in *.
  set (st := msplit u KA done) in *.
  pose proof (msplit_length u KA done) as Hlen. fold st in Hlen.
  assert (HszA : tsize TA' = (tsize TA + length st.1.1)%nat).
  { rewrite !tsize_elems, HeA, length_app. done. }
  assert (HszB : tsize TB' = length st.1.2).
  { rewrite !tsize_elems, HeB. done. }
  assert (Hsize : size ({[a]} ∪ rest) = S (size rest)).
  { rewrite size_union by (clear -Har; set_solver). by rewrite size_singleton. }
  assert (HaA : a ∉ foot nlA TA') by (clear -Hd2; set_solver).
  assert (HaB : a ∉ foot nlB TB') by (clear -Hd3; set_solver).
  assert (HkA : ∀ k, k ∈ keys kov (elems TA') ↔ k ∈ KA ++ keys kov st.1.1).
  { intros k. rewrite (keys_perm kov _ _ HeA), keys_app. done. }
  assert (HkB : ∀ k, k ∈ keys kov (elems TB') ↔ k ∈ keys kov st.1.2).
  { intros k. by rewrite (keys_perm kov _ _ HeB). }
  assert (Hrest : ∀ S h', S ## rest → keeps S h h' →
            ∀ q m, q ∈ rest → h !! q = Some m → h' !! q = Some m).
  { intros S h' HS Hkp q m Hq Hm. apply Hkp; [|done]. clear -HS Hq. set_solver. }
  unfold merge_action.
  eapply sat_bind.
  { apply returns_on_fst.
    eapply (insert_node_keeps kov dflt fuel (uqA && u) nlA npA TA' sA _ A h a n u);
      eauto. lia. }
  intros b [A1 B1] h1 [HB1 Hpost]. cbn [fst snd] in HB1, Hpost. subst B1.
  destruct b.
  - (* moved into the destination *)
    destruct Hpost as (Hno & T1 & l1 & l2 & Ho1 & Hsh1 & HE & HE1 & HP1 & Hk1).
    unfold on_fst, update. cbn [fst snd sat].
    assert (Hst : msplit u KA (done ++ [(a, val n)])
                  = (st.1.1 ++ [(a, val n)], st.1.2, st.2)).
    { rewrite msplit_snoc. apply mstep_moved. simpl. rewrite <- HkA. exact Hno. }
    split.
    + exists T1, TB'. subst st KA. rewrite Hst. cbn [fst snd].
      split; [|split; [|split; [|split; [|split; [|split]]]]].
      * rewrite length_app. simpl. rewrite Nat.add_1_r. simpl.
        pose proof (own_obj_eq _ _ _ _ _ _ _ _ _ Ho1) as E. rewrite E at 1.
        cbn [node_count]. exact (own_set_count dflt _ _ _ _ _ _ _ _ _ Ho1).
      * eapply (own_keeps dflt); [exact HoB | exact Hk1 |].
        clear -Hd1 HaB. set_solver.
      * split; [|done]. eapply shaped_mono; [|exact Hsh1].
        by destruct uqA, u.
      * split; [|done]. rewrite app_assoc, <- HeA.
        eapply elems_inserted; eauto.
      * unfold foot in *. rewrite HP1. split_and!.
        -- clear -Hd1 HaB. set_solver.
        -- clear -Hd2 Har. set_solver.
        -- clear -Hd3. set_solver.
        -- clear -Hd4. set_solver.
      * eapply keeps_trans; [exact Hk|]. eapply keeps_mono; [|exact Hk1].
        unfold foot. clear -Hd4. intros q Hq. specialize (Hd4 q). set_solver.
      * rewrite length_app. simpl. lia.
    + apply (Hrest (foot nlA TA' ∪ {[a]}) h1); [|exact Hk1].
      clear -Hd2 Har. set_solver.
  - (* refused by the destination: back into the source *)
    destruct Hpost as (Hu & Hyes & -> & ->).
    eapply sat_bind.
    { apply returns_on_snd.
      eapply (insert_node_keeps kov dflt fuel u nlB nlB TB' sB _ B h a n u);
        eauto. lia. }
    intros b [A2 B2] h2 [HA2 Hpost]. cbn [fst snd] in HA2, Hpost. subst A2.
    unfold on_snd, update. cbn [fst snd sat].
    apply HkA in Hyes.
    destruct b.
    + destruct Hpost as (Hno & T2 & l1 & l2 & Ho2 & Hsh2 & HE & HE2 & HP2 & Hk2).
      assert (Hst : msplit u KA (done ++ [(a, val n)])
                    = (st.1.1, st.1.2 ++ [(a, val n)], S st.2)).
      { rewrite msplit_snoc. apply mstep_back; [exact Hu | exact Hyes|].
        simpl. rewrite <- HkB. tauto. }
      split.
      * exists TA', T2. subst st KA. rewrite Hst. cbn [fst snd].
        split; [|split; [|split; [|split; [|split; [|split]]]]].
        -- eapply (own_keeps dflt); [exact HoA | exact Hk2 |].
           clear -Hd1 HaA. set_solver.
        -- simpl.
           pose proof (own_obj_eq _ _ _ _ _ _ _ _ _ Ho2) as E. rewrite E at 1.
           cbn [node_count]. exact (own_set_count dflt _ _ _ _ _ _ _ _ _ Ho2).
        -- split; [done|]. by rewrite andb_diag in Hsh2.
        -- split; [done|]. rewrite <- HeB. eapply elems_inserted; eauto.
        -- unfold foot in *. rewrite HP2. split_and!.
           ++ clear -Hd1 HaA. set_solver.
           ++ clear -Hd2. set_solver.
           ++ clear -Hd3 Har. set_solver.
           ++ clear -Hd4. set_solver.
        -- eapply keeps_trans; [exact Hk|]. eapply keeps_mono; [|exact Hk2].
           unfold foot. clear -Hd4. intros q Hq. specialize (Hd4 q). set_solver.
        -- rewrite length_app. simpl. lia.
      * apply (Hrest (foot nlB TB' ∪ {[a]}) h2); [|exact Hk2].
        clear -Hd3 Har. set_solver.
    + destruct Hpost as (_ & Hyes2 & -> & ->).
      assert (Hst : msplit u KA (done ++ [(a, val n)])
                    = (st.1.1, st.1.2, S st.2)).
      { rewrite msplit_snoc. apply mstep_lost; [exact Hu | exact Hyes|].
        simpl. by rewrite <- HkB. }
      split.
      * exists TA', TB'. subst st KA. rewrite Hst. cbn [fst snd].
        split; [|split; [|split; [|split; [|split; [|split]]]]].
        -- exact HoA.
        -- simpl.
           pose proof (own_obj_eq _ _ _ _ _ _ _ _ _ HoB) as E. rewrite E at 1.
           cbn [node_count]. exact (own_set_count dflt _ _ _ _ _ _ _ _ _ HoB).
        -- done.
        -- done.
        -- split_and!; auto.
           ++ clear -Hd2. set_solver.
           ++ clear -Hd3. set_solver.
           ++ clear -Hd4. set_solver.
        -- exact Hk.
        -- rewrite length_app. simpl. lia.
      * intros q m _ Hm. exact Hm.
Qed.

End Invariant.

Lemma size_ptrs T : (size (ptrs T) ≤ tsize T)%nat.
Proof.
  induction T as [|c l IHl a v r IHr]; cbn [ptrs tsize].
  - by rewrite size_empty.
  - rewrite !size_union_alt, size_singleton.
    pose proof (subseteq_size (ptrs l ∖ {[a]}) (ptrs l) ltac:(set_solver)).
    pose proof (subseteq_size (ptrs r ∖ ({[a]} ∪ ptrs l)) (ptrs r) ltac:(set_solver)).
    lia.
Qed.

Lemma bind_on_snd_this {X Y A B} (f : Y → A) (k : A → M V (X * Y) B) x y h :
  bind (on_snd (this f)) k (x, y) h = k (f y) (x, y) h.
Proof. reflexivity. Qed.

Lemma bind_on_snd_update {X Y B} (f : Y → Y) (k : unit → M V (X * Y) B) x y h :
  bind (on_snd (update f)) k (x, y) h = k tt (x, f y) h.
Proof. reflexivity. Qed.

Lemma merge_own fuel u uqA nlA npA TA sA cA A nlB npB TB sB cB B h :
  own dflt ∅ nlA npA TA sA cA A h → own dflt ∅ nlB npB TB sB cB B h →
  foot nlA TA ## foot nlB TB → shaped kov uqA TA →
  (2 * (tsize TA + tsize TB) < fuel)%nat →
  returns (merge kov fuel u (A, B) h)
    (λ _ x' h', merging u uqA nlA npA TA sA cA nlB TB sB h ∅ (post TB) x' h').
Proof.
  intros HoA HoB Hdisj HshA Hfuel.
  pose proof (own_obj_eq _ _ _ _ _ _ _ _ _ HoB) as ->.
  destruct HoB as [_ HrepB HnB _ _ _].
  pose proof (rep_not_nil _ _ _ _ HrepB) as HnnB.
  assert (HnA : nlB ∉ foot nlA TA) by (clear -Hdisj; unfold foot in *; set_solver).
  unfold merge.
  rewrite bind_on_snd_this, bind_on_snd_this. cbn [root nil_].
  assert (Hinit : ∀ h1 rest,
            keeps (foot nlA TA ∪ foot nlB TB) h h1 →
            own dflt ∅ nlA npA TA sA cA A h1 →
            h1 !! nlB = Some (mkNode dflt Black nlB nlB nlB) →
            rest ⊆ ptrs TB → (size rest ≤ tsize TB)%nat →
            merging u uqA nlA npA TA sA cA nlB TB sB h rest []
              (A, mkTree sB nlB nlB 0) h1).
  { intros h1 rest Hk HoA1 Hn1 Hrest Hsz. exists TA, Lf. cbn [fst snd msplit foldl].
    split; [|split; [|split; [|split; [|split; [|split]]]]].
    - exact HoA1.
    - constructor; auto; done.
    - split; [|apply shaped_Lf]. eapply shaped_mono; [|exact HshA].
      by destruct uqA, u.
    - split; [by rewrite app_nil_r | done].
    - unfold foot in *. simpl. split_and!.
      + clear -Hdisj. set_solver.
      + clear -Hdisj Hrest. set_solver.
      + clear -HnnB Hrest. set_solver.
      + clear -Hrest. set_solver.
    - exact Hk.
    - simpl. lia. }
  destruct TB as [|c l a v r].
  - (* nothing to move *)
    cbn [rootp]. rewrite (bind_wr _ _ _ _ _ _ HnB). cbn [set_p].
    erewrite bind_wr by apply lookup_insert_eq. cbn [set_p].
    rewrite bind_on_snd_update, bind_on_snd_update. cbn [with_root with_count].
    rewrite ptr_eqb_refl. rewrite ret_ok. cbn [sat post].
    apply Hinit.
    + eapply keeps_trans; apply keeps_insert; unfold foot; clear; set_solver.
    + apply own_insert_other; [apply own_insert_other|]; done.
    + apply lookup_insert_eq.
    + done.
    + rewrite size_empty. lia.
  - simpl in HrepB. destruct HrepB as (Hanl & Hal & Har & Hlr & Hcell & Hl & Hr).
    cbn [rootp]. rewrite (bind_wr _ _ _ _ _ _ Hcell). cbn [set_p].
    erewrite bind_wr by (rewrite lookup_insert_ne by done; exact HnB). cbn [set_p].
    rewrite bind_on_snd_update, bind_on_snd_update. cbn [with_root with_count].
    rewrite ptr_eqb_ne by done. unfold post_order_process.
    rewrite ptr_eqb_ne by done.
    set (h1 := <[nlB := _]> _).
    assert (Hk1 : keeps (foot nlA TA ∪ foot nlB (Nd c l a v r)) h h1).
    { subst h1. eapply keeps_trans; apply keeps_insert; unfold foot; simpl;
        clear; set_solver. }
    assert (Hsame : ∀ q, q ∈ ptrs (Nd c l a v r) → h1 !! q = h !! q).
    { intros q Hq. subst h1. rewrite lookup_insert_ne by (by intros <-).
      destruct (decide (q = a)) as [->|Hne].
      - by rewrite lookup_insert_eq.
      - by rewrite lookup_insert_ne. }
    eapply returns_mono.
    { apply (post_order_loop_sat nlB (merge_action fuel u)
               (merging u uqA nlA npA TA sA cA nlB (Nd c l a v r) sB h))
        with (cx := Top) (t := Nd c l a v r) (done := []).
      - apply merging_stable.
      - intros rest done a0 n0 x0 h2 HP Ha0 Hanl0 Hcell0 Hcol0.
        eapply merge_action_ok; eauto. lia.
      - by left.
      - eapply rep_transfer; [|exact Hsame]. simpl. by split_and!.
      - apply Hinit; auto.
        + subst h1. apply own_insert_other; [apply own_insert_other|]; auto.
          clear -Hdisj. unfold foot in *. simpl in *. set_solver.
        + subst h1. apply lookup_insert_eq.
        + apply size_ptrs.
      - simpl in *. lia. }
    intros [] x' h' HP. simpl in HP. by rewrite app_nil_r in HP.
Qed.

End Merge.

(** ** Searching and iterating *)

Section Iterate.
Context {V : Type}.
Variable kov : V → Z.
Variable dflt : V.
Implicit Types (h F : heap V) (t T : shape V) (cx : ctx V).

(** The pointer of the first entry of a list of elements, the sentinel
    when there is none. *)
Definition hd_ptr (nl : ptr) (l : list (ptr * V)) : ptr :=
  match l with [] => nl | e :: _ => e.1 end.

Definition last_ptr (nl : ptr) (l : list (ptr * V)) : ptr :=
  match last l with None => nl | Some e => e.1 end.

(** The node where [search] stops. *)
Fixpoint sfind (key : Z) (t : shape V) : shape V :=
  match t with
  | Lf => Lf
  | Nd c l a v r =>
      if key =? kov v then t
      else if comp key (kov v) then sfind key l else sfind key r
  end.

Definition root_key (t : shape V) : Z :=
  match t with Lf => kov dflt | Nd _ _ _ v _ => kov v end.

Lemma search_loop_own fuel : ∀ key F nl np cx t s cnt o h,
  (tsize t < fuel)%nat →
  own dflt F nl np (plug cx t) s cnt o h →
  search_loop kov fuel key (rootp nl t) (root_key t) o h
  = Ok (rootp nl (sfind key t)) o h.
Proof.
  induction fuel as [|fuel IH]; intros key F nl np cx t s cnt o h Hfuel Ho; [lia|].
  pose proof (own_obj_eq _ _ _ _ _ _ _ _ _ Ho) as ->.
  pose proof (own_sep_facts _ _ _ _ _ _ _ _ _ _ Ho) as Hsep.
  pose proof (own_nil_lookup _ _ _ _ _ _ _ _ _ Ho) as Hnil.
  cbn [search_loop]. rewrite bind_this. cbn [nil_].
  destruct t as [|c l a v r].
  - simpl. by rewrite ptr_neb_refl.
  - simpl in Hsep. sep_norm. cbn [rootp root_key sfind]. ptr_dec.
    destruct (key =? kov v) eqn:E; cbn [negb andb]; [reflexivity|].
    pose proof (own_lookup _ _ _ _ _ _ _ _ _ _ _ _ _ _ Ho) as Ha.
    destruct (comp key (kov v)).
    + rewrite (bind_fld left a _ _ _ _ Ha). cbn [left].
      change (plug cx (Nd c l a v r)) with (plug (CL c a v cx r) l) in Ho.
      assert (Hv : ∃ n, h !! rootp nl l = Some n ∧ kov (val n) = root_key l).
      { destruct l as [|lc ll la lv lr]; [by eauto|].
        eexists. split; [eapply own_lookup; exact Ho | done]. }
      destruct Hv as (n & Hn & Hk).
      rewrite (bind_fld val _ _ _ _ _ Hn), Hk.
      rewrite rootp_plug. cbn [croot].
      rewrite <- (rootp_plug nl cx (Nd c l a v r)).
      apply (IH key F nl np (CL c a v cx r) l s cnt); [simpl in Hfuel; lia|].
      exact Ho.
    + rewrite (bind_fld right a _ _ _ _ Ha). cbn [right].
      change (plug cx (Nd c l a v r)) with (plug (CR c l a v cx) r) in Ho.
      assert (Hv : ∃ n, h !! rootp nl r = Some n ∧ kov (val n) = root_key r).
      { destruct r as [|lc ll la lv lr]; [by eauto|].
        eexists. split; [eapply own_lookup; exact Ho | done]. }
      destruct Hv as (n & Hn & Hk).
      rewrite (bind_fld val _ _ _ _ _ Hn), Hk.
      rewrite rootp_plug. cbn [croot].
      rewrite <- (rootp_plug nl cx (Nd c l a v r)).
      apply (IH key F nl np (CR c l a v cx) r s cnt); [simpl in Hfuel; lia|].
      exact Ho.
Qed.

Lemma search_own fuel key F nl np T s cnt o h :
  (tsize T < fuel)%nat →
  own dflt F nl np T s cnt o h →
  search kov fuel key o h = Ok (rootp nl (sfind key T)) o h.
Proof.
  intros Hfuel Ho. unfold search.
  pose proof (own_obj_eq _ _ _ _ _ _ _ _ _ Ho) as ->.
  rewrite bind_this. cbn [root].
  assert (Hv : ∃ n, h !! rootp nl T = Some n ∧ kov (val n) = root_key T).
  { destruct T as [|lc ll la lv lr].
    - pose proof (own_nil_lookup _ _ _ _ _ _ _ _ _ Ho). by eauto.
    - eexists. split; [eapply (own_lookup dflt _ _ _ Top); exact Ho | done]. }
  destruct Hv as (n & Hn & Hk).
  rewrite (bind_fld val _ _ _ _ _ Hn), Hk.
  by apply (search_loop_own fuel key F nl np Top T s cnt).
Qed.

(** A key that is in no element is not found. *)
Lemma sfind_absent key t :
  key ∉ keys kov (elems t) → sfind key t = Lf.
Proof.
  induction t as [|c l IHl a v r IHr]; simpl; [done|].
  unfold keys. rewrite map_app. simpl. intros Hk.
  destruct (key =? kov v) eqn:E.
  - exfalso. apply Hk. apply Z.eqb_eq in E. rewrite E. set_solver.
  - destruct (comp key (kov v)); [apply IHl | apply IHr];
      unfold keys; set_solver.
Qed.

(** What is found has the key that was asked for. *)
Lemma sfind_key key t :
  sfind key t = Lf ∨ ∃ c l a v r, sfind key t = Nd c l a v r ∧ kov v = key
                                  ∧ (a, v) ∈ elems t.
Proof.
  induction t as [|c l IHl a v r IHr]; simpl; [by left|].
  destruct (key =? kov v) eqn:E.
  - right. exists c, l, a, v, r. apply Z.eqb_eq in E. split_and!; auto.
    set_solver.
  - destruct (comp key (kov v)).
    + destruct IHl as [?|(c' & l' & a' & v' & r' & ? & ? & ?)]; [by left|].
      right. exists c', l', a', v', r'. split_and!; auto. set_solver.
    + destruct IHr as [?|(c' & l' & a' & v' & r' & ? & ? & ?)]; [by left|].
      right. exists c', l', a', v', r'. split_and!; auto. set_solver.
Qed.

(** In an ordered tree every key that is present is found. *)
Lemma sfind_present key t :
  ordered kov t → key ∈ keys kov (elems t) → sfind key t ≠ Lf.
Proof.
  induction t as [|c l IHl a v r IHr]; simpl.
  - intros _ Hk. by apply elem_of_nil in Hk.
  - unfold ordered. simpl. rewrite keys_app. simpl. intros Ho Hk.
    apply StronglySorted_app in Ho as (Hlr & Hol & Hor).
    apply StronglySorted_cons in Hor as [Hvr Hor].
    destruct (key =? kov v) eqn:E; [done|]. apply Z.eqb_neq in E.
    unfold comp.
    apply elem_of_app in Hk as [Hk|Hk]; [|apply elem_of_cons in Hk as [->|Hk]].
    + assert (key ≤ kov v) by (apply Hlr; [done | by left]).
      destruct (key <? kov v) eqn:E1; [by apply IHl|]. lia.
    + done.
    + assert (kov v ≤ key) by (by eapply Forall_forall in Hvr).
      destruct (key <? kov v) eqn:E1; [lia|]. by apply IHr.
Qed.

(** *** The ends of the sequence *)

Lemma dmin_first nl cx t :
  t ≠ Lf → rootp nl (dmin cx t).2 = hd_ptr nl (elems t).
Proof.
  intros Ht. destruct (dmin_split t Ht) as (cy & yc & y & yv & yr & -> & Hd & Hcl).
  rewrite Hd. rewrite elems_plug, Hcl. done.
Qed.

Lemma dmax_split t :
  t ≠ Lf →
  ∃ cy yc yl y yv,
    t = plug cy (Nd yc yl y yv Lf)
    ∧ (dmax Top t).2 = Nd yc yl y yv Lf
    ∧ cright cy = [].
Proof.
  intros Ht. destruct (dmax_form Top t Ht) as (yc & yl & y & yv & E).
  exists (dmax Top t).1, yc, yl, y, yv. split_and!; auto.
  - by rewrite <- E, dmax_plug.
  - by rewrite dmax_cright.
Qed.

Lemma dmax_top cx t : (dmax cx t).2 = (dmax Top t).2.
Proof.
  revert cx. induction t as [|c l IHl a v r IHr]; intros cx; simpl; auto.
  destruct r as [|rc rl ra rv rr]; [done|].
  rewrite (IHr (CR c l a v cx)), (IHr (CR c l a v Top)). done.
Qed.

Lemma dmax_last nl cx t :
  t ≠ Lf → rootp nl (dmax cx t).2 = last_ptr nl (elems t).
Proof.
  intros Ht. rewrite dmax_top.
  destruct (dmax_split t Ht) as (cy & yc & yl & y & yv & -> & Hd & Hcr).
  rewrite Hd. rewrite elems_plug, Hcr. simpl. unfold last_ptr.
  rewrite app_nil_r, app_assoc, last_snoc. done.
Qed.

Lemma minimum_root fuel F nl np T s cnt o h :
  (tsize T < fuel)%nat →
  own dflt F nl np T s cnt o h →
  minimum fuel (rootp nl T) o h = Ok (hd_ptr nl (elems T)) o h.
Proof.
  intros Hfuel Ho. destruct T as [|c l a v r].
  - destruct fuel; [lia|]. cbn [minimum rootp].
    pose proof (own_nil_lookup _ _ _ _ _ _ _ _ _ Ho) as Hn.
    pose proof (own_obj_eq _ _ _ _ _ _ _ _ _ Ho) as ->.
    rewrite (bind_fld _ _ _ _ _ _ Hn), bind_this. cbn [left nil_].
    by rewrite ptr_neb_refl.
  - rewrite <- (dmin_first nl Top) by done.
    apply (minimum_tree dflt fuel Top _ F nl np s cnt); auto. lia.
Qed.

Lemma maximum_root fuel F nl np T s cnt o h :
  (tsize T < fuel)%nat →
  own dflt F nl np T s cnt o h →
  maximum fuel (rootp nl T) o h = Ok (last_ptr nl (elems T)) o h.
Proof.
  intros Hfuel Ho. destruct T as [|c l a v r].
  - destruct fuel; [lia|]. cbn [maximum rootp].
    pose proof (own_nil_lookup _ _ _ _ _ _ _ _ _ Ho) as Hn.
    pose proof (own_obj_eq _ _ _ _ _ _ _ _ _ Ho) as ->.
    rewrite (bind_fld _ _ _ _ _ _ Hn), bind_this. cbn [right nil_].
    by rewrite ptr_neb_refl.
  - rewrite <- (dmax_last nl Top) by done.
    apply (maximum_own dflt fuel Top _ _ _ _ _ F nl np s cnt); auto.
    simpl in Hfuel. lia.
Qed.

Lemma begin_own fuel F nl np T s cnt o h :
  (tsize T < fuel)%nat →
  own dflt F nl np T s cnt o h →
  begin_ fuel o h = Ok (mkIter (hd_ptr nl (elems T)) s) o h.
Proof.
  intros Hfuel Ho. unfold begin_.
  pose proof (minimum_root fuel _ _ _ _ _ _ _ _ Hfuel Ho) as Hm.
  pose proof (own_obj_eq _ _ _ _ _ _ _ _ _ Ho) as E.
  rewrite bind_this. rewrite E in *. cbn [root].
  rewrite (bind_ok _ _ _ _ _ _ _ Hm). by rewrite bind_this.
Qed.

Lemma end_own F nl np T s cnt o h :
  own dflt F nl np T s cnt o h →
  end_ o h = Ok (mkIter nl s) o h.
Proof.
  intros Ho. pose proof (own_obj_eq _ _ _ _ _ _ _ _ _ Ho) as ->. done.
Qed.

(** At the sentinel, [increment] goes to the first element and
    [decrement] to the last. *)
Lemma increment_end fuel F nl np T s cnt o h s' :
  (tsize T < fuel)%nat →
  own dflt F nl np T s cnt o h →
  increment fuel (mkIter nl s') o h
  = Ok (mkIter (hd_ptr nl (elems T)) s') o h.
Proof.
  intros Hfuel Ho. unfold increment.
  pose proof (minimum_root fuel _ _ _ _ _ _ _ _ Hfuel Ho) as Hm.
  pose proof (own_obj_eq _ _ _ _ _ _ _ _ _ Ho) as E.
  rewrite bind_this. rewrite E in *. cbn [nil_ current].
  rewrite ptr_eqb_refl, bind_this. cbn [root].
  by rewrite (bind_ok _ _ _ _ _ _ _ Hm).
Qed.

Lemma decrement_end fuel F nl np T s cnt o h s' :
  (tsize T < fuel)%nat →
  own dflt F nl np T s cnt o h →
  decrement fuel (mkIter nl s') o h
  = Ok (mkIter (last_ptr nl (elems T)) s') o h.
Proof.
  intros Hfuel Ho. unfold decrement.
  pose proof (maximum_root fuel _ _ _ _ _ _ _ _ Hfuel Ho) as Hm.
  pose proof (own_obj_eq _ _ _ _ _ _ _ _ _ Ho) as E.
  rewrite bind_this. rewrite E in *. cbn [nil_ current].
  rewrite ptr_eqb_refl, bind_this. cbn [root].
  by rewrite (bind_ok _ _ _ _ _ _ _ Hm).
Qed.

(** *** The successor of a node *)

Lemma hd_ptr_app nl (l l' : list (ptr * V)) :
  l ≠ [] → hd_ptr nl (l ++ l') = hd_ptr nl l.
Proof. by destruct l. Qed.

Lemma elems_nd_ne c (l : shape V) a v r : elems (Nd c l a v r) ≠ [].
Proof. simpl. by destruct (elems l). Qed.

Lemma descend_left_own fuel : ∀ cx c l a v r F nl np s cnt o h,
  own dflt F nl np (plug cx (Nd c l a v r)) s cnt o h →
  (tsize l < fuel)%nat →
  descend_left fuel nl a o h = Ok (rootp nl (dmin cx (Nd c l a v r)).2) o h.
Proof.
  induction fuel as [|fuel IH]; intros cx c l a v r F nl np s cnt o h Ho Hf; [lia|].
  pose proof (own_sep_facts _ _ _ _ _ _ _ _ _ _ Ho) as Hsep.
  cbn [descend_left].
  rewrite (bind_fld _ _ _ _ _ _ (own_lookup _ _ _ _ _ _ _ _ _ _ _ _ _ _ Ho)).
  own_simpl.
  destruct l as [|lc ll la lv lr]; cbn [cptrs ptrs sepc sep] in *; sep_norm; own_simpl.
  - by rewrite ptr_neb_refl.
  - rewrite ptr_neb_ne by sep_solve.
    change (plug cx (Nd c (Nd lc ll la lv lr) a v r))
      with (plug (CL c a v cx r) (Nd lc ll la lv lr)) in Ho.
    rewrite (IH _ _ _ _ _ _ _ _ _ _ _ _ _ Ho); [done | simpl in Hf; lia].
Qed.

Lemma climb_from_right_own fuel : ∀ cx c l a v r F nl np s cnt o h,
  own dflt F nl np (plug cx (Nd c l a v r)) s cnt o h →
  (cdepth cx < fuel)%nat →
  climb_from_right fuel nl a (cpar nl cx) o h = Ok (hd_ptr nl (cright cx)) o h.
Proof.
  induction fuel as [|fuel IH]; intros cx c l a v r F nl np s cnt o h Ho Hf; [lia|].
  pose proof (own_sep_facts _ _ _ _ _ _ _ _ _ _ Ho) as Hsep.
  cbn [climb_from_right]. rewrite bind_andM, bind_ret.
  destruct cx as [|pc pa pv up pr|pc pl pa pv up];
    cbn [cptrs ptrs sepc sep cpar] in *; sep_norm.
  - by rewrite ptr_neb_refl.
  - rewrite ptr_neb_ne by sep_solve.
    change (plug (CL pc pa pv up pr) (Nd c l a v r))
      with (plug up (Nd pc (Nd c l a v r) pa pv pr)) in Ho.
    rewrite bind_bind.
    rewrite (bind_fld _ _ _ _ _ _ (own_lookup _ _ _ _ _ _ _ _ _ _ _ _ _ _ Ho)).
    own_simpl. rewrite bind_ret. rewrite ptr_eqb_ne by sep_solve. done.
  - rewrite ptr_neb_ne by sep_solve.
    change (plug (CR pc pl pa pv up) (Nd c l a v r))
      with (plug up (Nd pc pl pa pv (Nd c l a v r))) in Ho.
    rewrite bind_bind.
    rewrite (bind_fld _ _ _ _ _ _ (own_lookup _ _ _ _ _ _ _ _ _ _ _ _ _ _ Ho)).
    own_simpl. rewrite bind_ret. rewrite ptr_eqb_refl.
    rewrite (bind_fld _ _ _ _ _ _ (own_lookup _ _ _ _ _ _ _ _ _ _ _ _ _ _ Ho)).
    own_simpl.
    rewrite (IH _ _ _ _ _ _ _ _ _ _ _ _ _ Ho); [done | simpl in Hf; lia].
Qed.

Lemma increment_node fuel F nl np cx c l a v r s cnt o h s' :
  (tsize (plug cx (Nd c l a v r)) < fuel)%nat →
  own dflt F nl np (plug cx (Nd c l a v r)) s cnt o h →
  increment fuel (mkIter a s') o h
  = Ok (mkIter (hd_ptr nl (elems r ++ cright cx)) s') o h.
Proof.
  intros Hfuel Ho. unfold increment.
  pose proof (own_obj_eq _ _ _ _ _ _ _ _ _ Ho) as ->.
  pose proof (own_sep_facts _ _ _ _ _ _ _ _ _ _ Ho) as Hsep.
  pose proof (cdepth_tsize cx (Nd c l a v r)) as Hdep. simpl in Hdep.
  assert (Hc : (cdepth cx < fuel)%nat) by lia.
  assert (Hr : (tsize r ≤ fuel)%nat) by lia.
  rewrite bind_this. cbn [nil_ current tree].
  cbn [cptrs ptrs sepc sep] in *; sep_norm.
  rewrite ptr_eqb_ne by sep_solve.
  rewrite (bind_fld _ _ _ _ _ _ (own_lookup _ _ _ _ _ _ _ _ _ _ _ _ _ _ Ho)).
  own_simpl.
  destruct r as [|rc rl ra rv rr]; cbn [cptrs ptrs sepc sep] in *; sep_norm; own_simpl.
  - rewrite ptr_neb_refl.
    rewrite (bind_fld _ _ _ _ _ _ (own_lookup _ _ _ _ _ _ _ _ _ _ _ _ _ _ Ho)).
    own_simpl.
    rewrite (bind_ok _ _ _ _ _ _ _
               (climb_from_right_own fuel _ _ _ _ _ _ _ _ _ _ _ _ _ Ho Hc)).
    reflexivity.
  - rewrite ptr_neb_ne by sep_solve.
    change (plug cx (Nd c l a v (Nd rc rl ra rv rr)))
      with (plug (CR c l a v cx) (Nd rc rl ra rv rr)) in Ho.
    assert (Hrl : (tsize rl < fuel)%nat) by (simpl in Hr; lia).
    rewrite (bind_ok _ _ _ _ _ _ _
               (descend_left_own fuel _ _ _ _ _ _ _ _ _ _ _ _ _ Ho Hrl)).
    rewrite (dmin_first nl (CR c l a v cx) (Nd rc rl ra rv rr)) by done.
    rewrite (hd_ptr_app nl (elems (Nd rc rl ra rv rr))) by apply elems_nd_ne.
    reflexivity.
Qed.

(** *** A full iteration *)

Lemma elems_fst_ptrs (t : shape V) q : q ∈ (elems t).*1 ↔ q ∈ ptrs t.
Proof.
  split.
  - intros Hq. apply list_elem_of_fmap in Hq as (e & -> & He).
    by apply elems_ptrs.
  - intros Hq. destruct (elem_of_elems t q Hq) as [v Hv].
    apply list_elem_of_fmap. by exists (q, v).
Qed.

Lemma sep_NoDup (t : shape V) : sep t → NoDup (elems t).*1.
Proof.
  induction t as [|c l IHl a v r IHr]; simpl; [constructor|].
  intros (Hal & Har & Hlr & Hl & Hr). rewrite fmap_app. simpl.
  apply NoDup_app. split_and!; auto.
  - intros q Hq Hq'. apply elems_fst_ptrs in Hq.
    apply elem_of_cons in Hq' as [->|Hq']; [done|].
    apply elems_fst_ptrs in Hq'. by apply (Hlr q).
  - constructor; auto. by rewrite elems_fst_ptrs.
Qed.

Lemma own_NoDup F nl np T s cnt o h :
  own dflt F nl np T s cnt o h → NoDup (elems T).*1.
Proof. intros [_ Hrep _ _ _ _]. by eapply sep_NoDup, rep_sep. Qed.

(** An entry occurs at one place only. *)
Lemma split_unique (l1 l2 l1' l2' : list (ptr * V)) a v v' :
  NoDup (l1 ++ (a, v) :: l2).*1 →
  l1 ++ (a, v) :: l2 = l1' ++ (a, v') :: l2' →
  l1 = l1' ∧ v = v' ∧ l2 = l2'.
Proof.
  revert l1'. induction l1 as [|e l1 IH]; intros l1' Hnd E.
  - destruct l1' as [|e' l1']; simpl in *.
    + by simplify_eq.
    + simplify_eq. apply NoDup_cons in Hnd as [Hnd _]. exfalso. apply Hnd.
      rewrite fmap_app. simpl. set_solver.
  - destruct l1' as [|e' l1']; simpl in *.
    + simplify_eq. apply NoDup_cons in Hnd as [Hnd _]. exfalso. apply Hnd.
      rewrite fmap_app. simpl. set_solver.
    + simplify_eq. apply NoDup_cons in Hnd as [_ Hnd].
      destruct (IH l1' Hnd) as (-> & -> & ->); auto.
Qed.

Lemma iterate_loop_own fuel : ∀ post pre it acc F nl np T s cnt o h,
  own dflt F nl np T s cnt o h →
  elems T = pre ++ post → current it = hd_ptr nl post →
  (tsize T + length post < fuel)%nat →
  iterate_loop fuel it acc o h = Ok (acc ++ post.*2) o h.
Proof.
  induction fuel as [|fuel IH]; intros post pre it acc F nl np T s cnt o h
    Ho HE Hit Hfuel; [lia|].
  cbn [iterate_loop]. rewrite (bind_ok _ _ _ _ _ _ _ (end_own _ _ _ _ _ _ _ _ Ho)).
  cbn [current]. rewrite Hit.
  destruct post as [|[a v] post]; simpl.
  - rewrite ptr_neb_refl. by rewrite app_nil_r.
  - assert (Ha : a ∈ ptrs T).
    { apply elems_fst_ptrs. rewrite HE, fmap_app. simpl. set_solver. }
    destruct (locate T a Ha) as (cx & c & l & v' & r & ET).
    pose proof (own_NoDup _ _ _ _ _ _ _ _ Ho) as Hnd.
    rewrite HE in Hnd.
    assert (HE' : pre ++ (a, v) :: post
                  = (cleft cx ++ elems l) ++ (a, v') :: (elems r ++ cright cx)).
    { rewrite <- HE, ET, elems_plug. simpl. by rewrite <- !app_assoc. }
    destruct (split_unique _ _ _ _ _ _ _ Hnd HE') as (Hpre & <- & Hpost).
    subst T.
    pose proof (own_ne_nil _ _ _ _ _ _ _ _ _ _ _ _ _ _ Ho) as Hanl.
    rewrite ptr_neb_ne by done.
    unfold deref. rewrite Hit. cbn [hd_ptr fst].
    rewrite (bind_fld _ _ _ _ _ _ (own_lookup _ _ _ _ _ _ _ _ _ _ _ _ _ _ Ho)).
    cbn [val].
    destruct it as [cur s']. simpl in Hit. subst cur.
    assert (Hinc : (tsize (plug cx (Nd c l a v r)) < S fuel)%nat)
      by (simpl in Hfuel; lia).
    rewrite (bind_ok _ _ _ _ _ _ _
               (increment_node (S fuel) _ _ _ _ _ _ _ _ _ _ _ _ _ s' Hinc Ho)).
    rewrite <- Hpost.
    rewrite (IH post (pre ++ [(a, v)]) _ (acc ++ [v]) _ _ _ _ _ _ _ _ Ho).
    + by rewrite <- app_assoc.
    + by rewrite HE, <- app_assoc.
    + done.
    + simpl in *. lia.
Qed.

(** Iterating from [begin()] to [end()] visits the elements of the tree
    in the order of [elems]. *)
Lemma iterate_own fuel F nl np T s cnt o h :
  (2 * tsize T < fuel)%nat →
  own dflt F nl np T s cnt o h →
  iterate fuel o h = Ok (elems T).*2 o h.
Proof.
  intros Hfuel Ho. unfold iterate.
  assert (Hb : (tsize T < fuel)%nat) by lia.
  rewrite (bind_ok _ _ _ _ _ _ _ (begin_own fuel _ _ _ _ _ _ _ _ Hb Ho)).
  rewrite (iterate_loop_own fuel (elems T) [] _ [] _ _ _ _ _ _ _ _ Ho); auto.
  rewrite tsize_elems. rewrite tsize_elems in Hfuel. lia.
Qed.

End Iterate.

(** ** Trees in a shared heap *)

Section Basics.
Context {V : Type}.
Variable dflt : V.
Implicit Types (h F : heap V) (t T : shape V) (cx : ctx V).


Lemma size_ptrs_sep T : sep T → size (ptrs T) = tsize T.
Proof.
  induction T as [|c l IHl a v r IHr]; cbn [ptrs tsize sep].
  - intros _. by rewrite size_empty.
  - intros (Hal & Har & Hlr & Hl & Hr).
    rewrite !size_union, size_singleton, IHl, IHr by set_solver. lia.
Qed.

(** A tree has fewer nodes than the heap has cells. *)
Lemma own_size F nl np T s cnt o h :
  own dflt F nl np T s cnt o h → (tsize T < size h)%nat.
Proof.
  intros Ho. pose proof Ho as [_ Hrep Hn _ _ _].
  pose proof (rep_not_nil _ _ _ _ Hrep) as Hnn.
  rewrite <- (size_ptrs_sep T) by (by eapply rep_sep).
  assert (Hsub : {[nl]} ∪ ptrs T ⊆ dom h).
  { intros q Hq. apply elem_of_dom. eapply (own_foot_live dflt); eauto. }
  apply subseteq_size in Hsub.
  rewrite size_union, size_singleton, size_dom in Hsub by set_solver. lia.
Qed.

Lemma own2_size nl np T s cnt o nl' np' T' s' cnt' o' h :
  own dflt ∅ nl np T s cnt o h → own dflt ∅ nl' np' T' s' cnt' o' h →
  foot nl T ## foot nl' T' →
  (tsize T + tsize T' + 1 < size h)%nat.
Proof.
  intros Ho Ho' Hd. pose proof Ho as [_ Hrep Hn _ _ _].
  pose proof Ho' as [_ Hrep' Hn' _ _ _].
  pose proof (rep_not_nil _ _ _ _ Hrep) as Hnn.
  pose proof (rep_not_nil _ _ _ _ Hrep') as Hnn'.
  rewrite <- (size_ptrs_sep T) by (by eapply rep_sep).
  rewrite <- (size_ptrs_sep T') by (by eapply rep_sep).
  assert (Hsub : foot nl T ∪ foot nl' T' ⊆ dom h).
  { intros q Hq. apply elem_of_dom. apply elem_of_union in Hq as [Hq|Hq].
    - exact (own_foot_live dflt _ _ _ _ _ _ _ _ q Ho Hq).
    - exact (own_foot_live dflt _ _ _ _ _ _ _ _ q Ho' Hq). }
  apply subseteq_size in Hsub.
  unfold foot in *.
  rewrite size_union, !size_union, !size_singleton, size_dom in Hsub by set_solver.
  lia.
Qed.

Lemma reach_nodes_rep fuel : ∀ h nl t par,
  rep h nl t par → (tsize t < fuel)%nat →
  reach_nodes fuel h nl (rootp nl t) = (elems t).*1.
Proof.
  induction fuel as [|fuel IH]; intros h nl t par Hrep Hf; [lia|].
  destruct t as [|c l a v r]; simpl.
  - by rewrite ptr_eqb_refl.
  - simpl in Hrep. destruct Hrep as (Ha & Hal & Har & Hlr & Hh & Hl & Hr).
    rewrite ptr_eqb_ne by done. rewrite Hh. simpl.
    rewrite (IH h nl l a), (IH h nl r a); auto; [|simpl in Hf; lia..].
    rewrite fmap_app. done.
Qed.

End Basics.

Section World.
Context {V : Type}.
Variable kov : V → Z.
Variable dflt : V.
Implicit Types (h F : heap V) (t : Rb_tree * bool) (T : shape V).

Lemma oracle_fresh a h p : oracle a h = Some p → h !! p = None.
Proof.
  unfold oracle. destruct a as [q|]; [|done].
  destruct (decide (h !! q = None)); [|done]. by intros [= <-].
Qed.

(** *** The invariant *)

Definition tree_ok (h : heap V) (i : nat) (t : Rb_tree * bool) (T : shape V)
  : Prop :=
  (∃ np, own dflt ∅ (nil_ t.1) np T i (node_count t.1) t.1 h)
  ∧ shaped kov t.2 T
  ∧ 0 ≤ node_count t.1 < size_max.

Definition inv_with (Ts : list (shape V)) (w : world) : Prop :=
  length Ts = length (wtrees w)
  ∧ (∀ i t T, wtrees w !! i = Some t → Ts !! i = Some T →
       tree_ok (wheap w) i t T)
  ∧ (∀ i j ti tj Ti Tj, i ≠ j →
       wtrees w !! i = Some ti → wtrees w !! j = Some tj →
       Ts !! i = Some Ti → Ts !! j = Some Tj →
       foot (nil_ ti.1) Ti ## foot (nil_ tj.1) Tj).

Definition inv (w : world) : Prop := ∃ Ts, inv_with Ts w.

Lemma wrap_range z : 0 ≤ wrap z < size_max.
Proof. unfold wrap. apply Z.mod_pos_bound. done. Qed.

Lemma tree_ok_keeps S h h' i t T :
  tree_ok h i t T → keeps S h h' → foot (nil_ t.1) T ## S → tree_ok h' i t T.
Proof.
  intros ([np Ho] & Hsh & Hc) Hk Hd. split; [|by split].
  exists np. by eapply (own_keeps dflt).
Qed.

Lemma tree_ok_live h i t T q :
  tree_ok h i t T → q ∈ foot (nil_ t.1) T → is_Some (h !! q).
Proof. intros ([np Ho] & _) Hq. by eapply (own_foot_live dflt). Qed.

(** One tree changes, inside its own cells and cells that were free. *)
Lemma inv_update Ts w i t T t' T' h' :
  inv_with Ts w →
  wtrees w !! i = Some t → Ts !! i = Some T →
  tree_ok h' i t' T' →
  keeps (foot (nil_ t.1) T) (wheap w) h' →
  (∀ q, q ∈ foot (nil_ t'.1) T' → q ∈ foot (nil_ t.1) T ∨ wheap w !! q = None) →
  inv_with (<[i := T']> Ts) (mkWorld h' (<[i := t']> (wtrees w))).
Proof.
  intros (Hlen & Hok & Hdisj) Hi HTi Hok' Hk Hfoot.
  assert (Hother : ∀ j tj Tj q, j ≠ i → wtrees w !! j = Some tj →
            Ts !! j = Some Tj → q ∈ foot (nil_ tj.1) Tj →
            q ∉ foot (nil_ t'.1) T').
  { intros j tj Tj q Hj Htj HTj Hq Hq'.
    destruct (Hfoot q Hq') as [Hq''|Hq''].
    - by apply (Hdisj j i tj t Tj T Hj Htj Hi HTj HTi q).
    - destruct (tree_ok_live _ _ _ _ q (Hok j tj Tj Htj HTj) Hq) as [n Hn].
      congruence. }
  split_and!; cbn [wheap wtrees].
  - by rewrite !length_insert.
  - intros j tj Tj Htj HTj. destruct (decide (j = i)) as [->|Hj].
    + rewrite list_lookup_insert_eq in Htj by (by eapply lookup_lt_Some).
      rewrite list_lookup_insert_eq in HTj by (by eapply lookup_lt_Some).
      by simplify_eq.
    + rewrite list_lookup_insert_ne in Htj by done.
      rewrite list_lookup_insert_ne in HTj by done.
      eapply tree_ok_keeps; [by apply Hok | exact Hk |].
      by apply (Hdisj j i tj t Tj T).
  - intros j k tj tk Tj Tk Hjk Htj Htk HTj HTk.
    destruct (decide (j = i)) as [->|Hj]; destruct (decide (k = i)) as [->|Hk'];
      try done.
    + rewrite list_lookup_insert_eq in Htj by (by eapply lookup_lt_Some).
      rewrite list_lookup_insert_eq in HTj by (by eapply lookup_lt_Some).
      rewrite list_lookup_insert_ne in Htk by done.
      rewrite list_lookup_insert_ne in HTk by done. simplify_eq.
      intros q Hq Hq'. by eapply (Hother k tk Tk q).
    + rewrite list_lookup_insert_eq in Htk by (by eapply lookup_lt_Some).
      rewrite list_lookup_insert_eq in HTk by (by eapply lookup_lt_Some).
      rewrite list_lookup_insert_ne in Htj by done.
      rewrite list_lookup_insert_ne in HTj by done. simplify_eq.
      intros q Hq Hq'. by eapply (Hother j tj Tj q).
    + rewrite list_lookup_insert_ne in Htj by done.
      rewrite list_lookup_insert_ne in HTj by done.
      rewrite list_lookup_insert_ne in Htk by done.
      rewrite list_lookup_insert_ne in HTk by done.
      by eapply (Hdisj j k).
Qed.

Lemma inv_update2 Ts w i j ti tj Ti Tj ti' tj' Ti' Tj' h' :
  inv_with Ts w → i ≠ j →
  wtrees w !! i = Some ti → Ts !! i = Some Ti →
  wtrees w !! j = Some tj → Ts !! j = Some Tj →
  tree_ok h' i ti' Ti' → tree_ok h' j tj' Tj' →
  foot (nil_ ti'.1) Ti' ## foot (nil_ tj'.1) Tj' →
  keeps (foot (nil_ ti.1) Ti ∪ foot (nil_ tj.1) Tj) (wheap w) h' →
  foot (nil_ ti'.1) Ti' ∪ foot (nil_ tj'.1) Tj'
    ⊆ foot (nil_ ti.1) Ti ∪ foot (nil_ tj.1) Tj →
  inv_with (<[j := Tj']> (<[i := Ti']> Ts))
    (mkWorld h' (<[j := tj']> (<[i := ti']> (wtrees w)))).
Proof.
  intros (Hlen & Hok & Hdisj) Hij Hi HTi Hj HTj Hoki Hokj Hd' Hk Hsub.
  pose proof (lookup_lt_Some _ _ _ Hi) as Hli.
  pose proof (lookup_lt_Some _ _ _ Hj) as Hlj.
  pose proof (lookup_lt_Some _ _ _ HTi) as HlTi.
  pose proof (lookup_lt_Some _ _ _ HTj) as HlTj.
  assert (Hget : ∀ k tk Tk,
            <[j := tj']> (<[i := ti']> (wtrees w)) !! k = Some tk →
            <[j := Tj']> (<[i := Ti']> Ts) !! k = Some Tk →
            (k = i ∧ tk = ti' ∧ Tk = Ti') ∨ (k = j ∧ tk = tj' ∧ Tk = Tj')
            ∨ (k ≠ i ∧ k ≠ j ∧ wtrees w !! k = Some tk ∧ Ts !! k = Some Tk)).
  { intros k tk Tk Htk HTk.
    destruct (decide (k = j)) as [->|Hkj].
    - rewrite list_lookup_insert_eq in Htk by (by rewrite length_insert).
      rewrite list_lookup_insert_eq in HTk by (by rewrite length_insert).
      simplify_eq. right. by left.
    - rewrite list_lookup_insert_ne in Htk by done.
      rewrite list_lookup_insert_ne in HTk by done.
      destruct (decide (k = i)) as [->|Hki].
      + rewrite list_lookup_insert_eq in Htk by done.
        rewrite list_lookup_insert_eq in HTk by done.
        simplify_eq. by left.
      + rewrite list_lookup_insert_ne in Htk by done.
        rewrite list_lookup_insert_ne in HTk by done.
        right. right. done. }
  assert (Hother : ∀ k tk Tk, k ≠ i → k ≠ j → wtrees w !! k = Some tk →
            Ts !! k = Some Tk →
            foot (nil_ tk.1) Tk ## foot (nil_ ti.1) Ti ∪ foot (nil_ tj.1) Tj).
  { intros k tk Tk Hki Hkj Htk HTk.
    pose proof (Hdisj k i tk ti Tk Ti Hki Htk Hi HTk HTi) as H1.
    pose proof (Hdisj k j tk tj Tk Tj Hkj Htk Hj HTk HTj) as H2.
    clear -H1 H2. set_solver. }
  split_and!; cbn [wheap wtrees].
  - by rewrite !length_insert.
  - intros k tk Tk Htk HTk.
    destruct (Hget k tk Tk Htk HTk)
      as [(-> & -> & ->)|[(-> & -> & ->)|(Hki & Hkj & Htk' & HTk')]]; auto.
    eapply tree_ok_keeps; [by apply Hok | exact Hk | by eapply Hother].
  - intros k l tk tl Tk Tl Hkl Htk Htl HTk HTl.
    destruct (Hget k tk Tk Htk HTk)
      as [(-> & -> & ->)|[(-> & -> & ->)|(Hki & Hkj & Htk' & HTk')]];
    destruct (Hget l tl Tl Htl HTl)
      as [(-> & -> & ->)|[(-> & -> & ->)|(Hli' & Hlj' & Htl' & HTl')]];
      try done.
    + pose proof (Hother l tl Tl Hli' Hlj' Htl' HTl') as Ho.
      clear -Ho Hsub. set_solver.
    + pose proof (Hother l tl Tl Hli' Hlj' Htl' HTl') as Ho.
      clear -Ho Hsub. set_solver.
    + pose proof (Hother k tk Tk Hki Hkj Htk' HTk') as Ho.
      clear -Ho Hsub. set_solver.
    + pose proof (Hother k tk Tk Hki Hkj Htk' HTk') as Ho.
      clear -Ho Hsub. set_solver.
    + by eapply (Hdisj k l).
Qed.

Lemma inv_append Ts w t T h' :
  inv_with Ts w →
  tree_ok h' (length (wtrees w)) t T →
  keeps ∅ (wheap w) h' →
  (∀ q, q ∈ foot (nil_ t.1) T → wheap w !! q = None) →
  inv_with (Ts ++ [T]) (mkWorld h' (wtrees w ++ [t])).
Proof.
  intros (Hlen & Hok & Hdisj) Hok' Hk Hfresh.
  assert (Hget : ∀ k tk Tk,
            (wtrees w ++ [t]) !! k = Some tk → (Ts ++ [T]) !! k = Some Tk →
            (k = length (wtrees w) ∧ tk = t ∧ Tk = T)
            ∨ (k ≠ length (wtrees w) ∧ wtrees w !! k = Some tk ∧ Ts !! k = Some Tk)).
  { intros k tk Tk Htk HTk.
    apply lookup_app_Some in Htk as [Htk|[Hge Htk]].
    - pose proof (lookup_lt_Some _ _ _ Htk).
      apply lookup_app_Some in HTk as [HTk|[Hge HTk]]; [|lia].
      right. split_and!; auto. lia.
    - apply list_lookup_singleton_Some in Htk as [Hz ->].
      apply lookup_app_Some in HTk as [HTk|[Hge' HTk]].
      + pose proof (lookup_lt_Some _ _ _ HTk). lia.
      + apply list_lookup_singleton_Some in HTk as [Hz' ->].
        left. split_and!; auto. lia. }
  assert (Hother : ∀ k tk Tk, wtrees w !! k = Some tk → Ts !! k = Some Tk →
            foot (nil_ tk.1) Tk ## foot (nil_ t.1) T).
  { intros k tk Tk Htk HTk q Hq Hq'.
    destruct (tree_ok_live _ _ _ _ q (Hok k tk Tk Htk HTk) Hq) as [n Hn].
    rewrite (Hfresh q Hq') in Hn. done. }
  split_and!; cbn [wheap wtrees].
  - rewrite !length_app. simpl. lia.
  - intros k tk Tk Htk HTk.
    destruct (Hget k tk Tk Htk HTk) as [(-> & -> & ->)|(Hne & Htk' & HTk')]; auto.
    eapply tree_ok_keeps; [by apply Hok | exact Hk | set_solver].
  - intros k l tk tl Tk Tl Hkl Htk Htl HTk HTl.
    destruct (Hget k tk Tk Htk HTk) as [(-> & -> & ->)|(Hne & Htk' & HTk')];
    destruct (Hget l tl Tl Htl HTl) as [(-> & -> & ->)|(Hne' & Htl' & HTl')];
      try done.
    + symmetry. by eapply Hother.
    + by eapply Hother.
    + by eapply (Hdisj k l).
Qed.

(** [Rb_tree()]: a sentinel linked to itself. *)
Lemma Rb_tree_default_own alloc addr o h :
  (∀ h a, alloc h = Some a → h !! a = None) →
  sat (Rb_tree_default dflt alloc addr o h)
    (λ _ o' h', ∃ a, h !! a = None
       ∧ own dflt ∅ a a Lf addr 0 o' h'
       ∧ keeps ∅ h h')
    (λ o' h', h' = h).
Proof.
  intros Hfresh. unfold Rb_tree_default. rewrite bind_update.
  eapply sat_bind_gen; [apply create_node_sat; exact Hfresh | | ].
  - intros a o' h' (-> & Ha & ->). cbn beta.
    rewrite bind_update. msteps. unfold sat.
    exists a. split; [done|]. split.
    + constructor; simpl; auto.
      * by rewrite lookup_insert_eq.
      * intros q n Hq. by rewrite lookup_empty in Hq.
    + intros q n _ Hq. rewrite !lookup_insert_ne; [done|..]; congruence.
  - intros o' h' (_ & -> & _). done.
Qed.

Lemma own_tree_ok nl np T i cnt o h b :
  own dflt ∅ nl np T i cnt o h → shaped kov b T → 0 ≤ cnt < size_max →
  tree_ok h i (o, b) T ∧ nil_ o = nl.
Proof.
  intros Ho Hsh Hc. pose proof (own_obj_eq dflt _ _ _ _ _ _ _ _ Ho) as ->.
  split; [|done]. split; [|by split]. by exists np.
Qed.

Lemma bumped_range n c : 0 ≤ c < size_max → 0 ≤ bumped n c < size_max.
Proof. intros Hc. destruct n; [done|]. simpl. apply wrap_range. Qed.

Lemma delete_node_nil fuel (o : Rb_tree) h :
  delete_node fuel (nil_ o) o h = Ok tt o h.
Proof. unfold delete_node. by msteps. Qed.

(** *** Every mutation runs to its end and keeps the invariant *)

Lemma inv_New w a : inv w → ∃ w', exec kov dflt (New a) w = Some w' ∧ inv w'.
Proof.
  intros [Ts Hinv]. unfold exec. cbn zeta.
  pose proof (Rb_tree_default_own (oracle a) (length (wtrees w))
                (mkTree 0%nat nullptr nullptr 0) (wheap w) (oracle_fresh a)) as Hs.
  destruct (Rb_tree_default _ _ _ _ _) as [[] o' h'|o' h'| |]; simpl in Hs;
    try done.
  - destruct Hs as (p & Hp & Ho & Hk).
    eexists. split; [done|]. exists (Ts ++ [Lf]).
    assert (H0 : 0 ≤ 0 < size_max) by done.
    destruct (own_tree_ok _ _ _ _ _ _ _ true Ho (shaped_Lf kov true) H0)
      as [Hok Hnil].
    apply inv_append; auto.
    intros q Hq. cbn [fst] in Hq. rewrite Hnil in Hq. unfold foot in Hq.
    cbn [ptrs] in Hq. assert (q = p) as -> by set_solver. done.
  - eexists. split; [done|]. by exists Ts.
Qed.

Lemma inv_same Ts w i t T b :
  inv_with Ts w → wtrees w !! i = Some t → Ts !! i = Some T →
  (b = true → t.2 = true) →
  inv_with Ts (mkWorld (wheap w) (<[i := (t.1, b)]> (wtrees w))).
Proof.
  intros Hinv Ht HT Hb. pose proof Hinv as (Hlen & Hok & Hdisj).
  rewrite <- (list_insert_id Ts i T HT).
  eapply inv_update; eauto.
  - destruct (Hok i t T Ht HT) as (Ho & Hsh & Hc).
    split; [exact Ho|]. split; [|exact Hc]. by eapply shaped_mono.
  - apply keeps_refl.
Qed.

Lemma inv_Insert w i v u a :
  inv w → (i < length (wtrees w))%nat →
  ∃ w', exec kov dflt (Insert i v u a) w = Some w' ∧ inv w'.
Proof.
  intros [Ts Hinv] Hi. pose proof Hinv as (Hlen & Hok & Hdisj).
  destruct (lookup_lt_is_Some_2 _ _ Hi) as [t Ht].
  destruct (lookup_lt_is_Some_2 Ts i ltac:(lia)) as [T HT].
  destruct (Hok i t T Ht HT) as ([np Ho] & Hsh & Hc).
  pose proof (own_size dflt _ _ _ _ _ _ _ _ Ho) as Hsz.
  assert (Hf : (tsize T < fuel_of (wheap w))%nat) by (unfold fuel_of; lia).
  pose proof (insert_keeps kov dflt (oracle a) (oracle_fresh a) _ _ _ _ _ _ _ _ _
                v u Hf Ho Hsh) as Hins.
  assert (Hsame : inv (mkWorld (wheap w) (<[i := (t.1, t.2 && u)]> (wtrees w)))).
  { exists Ts. eapply inv_same; eauto. by intros [? ?]%andb_true_iff. }
  unfold exec. cbn zeta. rewrite Ht.
  destruct (insert _ _ _ _ _ _ _ _) as [[p b] o' h'|o' h'| |]; simpl in Hins;
    try done.
  - eexists. split; [done|]. destruct b.
    + destruct Hins as (_ & Hfresh & T' & l1 & l2 & Ho' & Hsh' & _ & _ & Hp' & Hk).
      destruct (own_tree_ok _ _ _ _ _ _ _ _ Ho' Hsh' (wrap_range _)) as [Hok' Hnil].
      exists (<[i := T']> Ts). eapply inv_update; eauto.
      intros q Hq. cbn [fst] in Hq. rewrite Hnil in Hq. unfold foot in *.
      rewrite Hp' in Hq. clear -Hq Hfresh.
      destruct (decide (q = p)) as [->|]; [by right|left; set_solver].
    + destruct Hins as (_ & _ & -> & ->). exact Hsame.
  - destruct Hins as (-> & -> & _). eexists. split; [done|]. exact Hsame.
Qed.

Lemma inv_Delete w i z :
  inv w → valid_op w (Delete i z) →
  ∃ w', exec kov dflt (Delete i z) w = Some w' ∧ inv w'.
Proof.
  intros [Ts Hinv] (t & Ht & Hz). pose proof Hinv as (Hlen & Hok & Hdisj).
  pose proof (lookup_lt_Some _ _ _ Ht) as Hi.
  destruct (lookup_lt_is_Some_2 Ts i ltac:(lia)) as [T HT].
  destruct (Hok i t T Ht HT) as ([np Ho] & Hsh & Hc).
  pose proof (own_size dflt _ _ _ _ _ _ _ _ Ho) as Hsz.
  unfold exec. cbn zeta. rewrite Ht.
  destruct Hz as [->|Hz].
  - rewrite delete_node_nil. eexists. split; [done|].
    exists Ts. destruct t as [o b]. eapply (inv_same Ts w i (o, b)); eauto.
  - pose proof Ho as [Hobj Hrep _ _ _ _].
    assert (Hroot : root t.1 = rootp (nil_ t.1) T) by (by rewrite Hobj at 1).
    rewrite Hroot, (reach_nodes_rep _ _ _ _ _ Hrep) in Hz
      by (unfold fuel_of; lia).
    apply elems_fst_ptrs in Hz.
    assert (Hf : (2 * tsize T < fuel_of (wheap w))%nat) by (unfold fuel_of; lia).
    pose proof (delete_node_keeps kov dflt (fuel_of (wheap w)) _ _ _ _ _ _ _ _ z
                  Hf Ho Hsh Hz) as Hdel.
    destruct (delete_node _ _ _ _) as [[] o' h'|o' h'| |]; simpl in Hdel;
      try done.
    destruct Hdel as (T' & np' & l1 & v & l2 & Ho' & Hsh' & _ & _ & Hp' & Hk).
    destruct (own_tree_ok _ _ _ _ _ _ _ _ Ho' Hsh' (wrap_range _)) as [Hok' Hnil].
    eexists. split; [done|].
    exists (<[i := T']> Ts). eapply inv_update; eauto.
    intros q Hq. cbn [fst] in Hq. rewrite Hnil in Hq. unfold foot in *.
    rewrite Hp' in Hq. left. clear -Hq. set_solver.
Qed.

Lemma inv_Clear w i :
  inv w → (i < length (wtrees w))%nat →
  ∃ w', exec kov dflt (Clear i) w = Some w' ∧ inv w'.
Proof.
  intros [Ts Hinv] Hi. pose proof Hinv as (Hlen & Hok & Hdisj).
  destruct (lookup_lt_is_Some_2 _ _ Hi) as [t Ht].
  destruct (lookup_lt_is_Some_2 Ts i ltac:(lia)) as [T HT].
  destruct (Hok i t T Ht HT) as ([np Ho] & Hsh & Hc).
  pose proof (own_size dflt _ _ _ _ _ _ _ _ Ho) as Hsz.
  assert (Hf : (2 * tsize T < fuel_of (wheap w))%nat) by (unfold fuel_of; lia).
  pose proof (clear_keeps dflt (fuel_of (wheap w)) _ _ _ _ _ _ _ Hf Ho) as Hcl.
  unfold exec. cbn zeta. rewrite Ht.
  destruct (clear _ _ _) as [[] o' h'|o' h'| |]; simpl in Hcl; try done.
  destruct Hcl as (Ho' & Hk & _).
  assert (H0 : 0 ≤ 0 < size_max) by done.
  destruct (own_tree_ok _ _ _ _ _ _ _ t.2 Ho' (shaped_Lf kov _) H0)
    as [Hok' Hnil].
  eexists. split; [done|].
  exists (<[i := Lf]> Ts). eapply inv_update; eauto.
  intros q Hq. cbn [fst] in Hq. rewrite Hnil in Hq. unfold foot in *.
  left. clear -Hq. set_solver.
Qed.

Lemma inv_Merge w i j u :
  inv w → i ≠ j → (i < length (wtrees w))%nat → (j < length (wtrees w))%nat →
  ∃ w', exec kov dflt (Merge i j u) w = Some w' ∧ inv w'.
Proof.
  intros [Ts Hinv] Hij Hi Hj. pose proof Hinv as (Hlen & Hok & Hdisj).
  destruct (lookup_lt_is_Some_2 _ _ Hi) as [ti Hti].
  destruct (lookup_lt_is_Some_2 _ _ Hj) as [tj Htj].
  destruct (lookup_lt_is_Some_2 Ts i ltac:(lia)) as [Ti HTi].
  destruct (lookup_lt_is_Some_2 Ts j ltac:(lia)) as [Tj HTj].
  destruct (Hok i ti Ti Hti HTi) as ([npi Hoi] & Hshi & Hci).
  destruct (Hok j tj Tj Htj HTj) as ([npj Hoj] & Hshj & Hcj).
  pose proof (Hdisj i j ti tj Ti Tj Hij Hti Htj HTi HTj) as Hd.
  pose proof (own2_size dflt _ _ _ _ _ _ _ _ _ _ _ _ _ Hoi Hoj Hd) as Hsz.
  assert (Hf : (2 * (tsize Ti + tsize Tj) < fuel_of (wheap w))%nat)
    by (unfold fuel_of; lia).
  pose proof (merge_own kov dflt (fuel_of (wheap w)) u ti.2 _ _ _ _ _ _ _ _ _ _ _ _ _
                Hoi Hoj Hd Hshi Hf) as Hm.
  unfold exec. cbn zeta. rewrite Hti, Htj.
  destruct (merge _ _ _ _ _) as [[] x h'|x h'| |]; simpl in Hm; try done.
  destruct Hm as (TA' & TB' & HoA & HoB & [HshA HshB] & _ & Hfd & Hk & _).
  destruct Hfd as (Hd1 & _ & _ & Hd4).
  destruct (own_tree_ok _ _ _ _ _ _ _ _ HoA HshA (bumped_range _ _ Hci))
    as [HokA HnilA].
  assert (HshB' : shaped kov (tj.2 && u) TB').
  { eapply shaped_mono; [|exact HshB]. by intros [? ?]%andb_true_iff. }
  assert (H0 : 0 ≤ 0 < size_max) by done.
  destruct (own_tree_ok _ _ _ _ _ _ _ _ HoB HshB' (bumped_range _ 0 H0))
    as [HokB HnilB].
  eexists. split; [done|].
  exists (<[j := TB']> (<[i := TA']> Ts)).
  eapply inv_update2; eauto; cbn [fst]; rewrite HnilA, HnilB; [done|].
  unfold foot in *. clear -Hd4. set_solver.
Qed.

(** Each valid mutation of a state satisfying the invariant ends, without
    fault, in a state satisfying the invariant. *)
Lemma inv_step w o :
  inv w → valid_op w o → ∃ w', exec kov dflt o w = Some w' ∧ inv w'.
Proof.
  intros Hinv Hv. destruct o as [a|i v u a|i z|i j u|i]; simpl in Hv.
  - by apply inv_New.
  - by apply inv_Insert.
  - by apply inv_Delete.
  - destruct Hv as (? & ? & ?). by apply inv_Merge.
  - by apply inv_Clear.
Qed.

Lemma inv_init : inv (mkWorld ∅ []).
Proof.
  exists []. split_and!; [done|intros i t T Ht; cbn [wtrees] in Ht; by rewrite lookup_nil in Ht|].
  intros i j ti tj Ti Tj _ Ht. cbn [wtrees] in Ht. by rewrite lookup_nil in Ht.
Qed.

Lemma reachable_inv w : reachable kov dflt w → inv w.
Proof.
  induction 1 as [|w o w' Hr IH Hv He]; [apply inv_init|].
  destruct (inv_step w o IH Hv) as (w'' & He' & Hinv). congruence.
Qed.

End World.

(** ** Batches of insertions and their roll-back *)

Section Blocks.
Context {V X : Type}.

Lemma sat_on_fst {Y A} (m : M V X A) (x : X) (y : Y) h Q E :
  sat (m x h) Q E →
  sat (on_fst m (x, y) h) (λ r xy h', xy.2 = y ∧ Q r xy.1 h')
    (λ xy h', xy.2 = y ∧ E xy.1 h').
Proof. unfold on_fst. simpl. destruct (m x h); simpl; auto. Qed.

Lemma sat_try_catch {A} (body handler : M V X A) x h Q1 E1 Q E :
  sat (body x h) Q1 E1 →
  (∀ a x' h', Q1 a x' h' → Q a x' h') →
  (∀ x' h', E1 x' h' → sat (handler x' h') Q E) →
  sat (try_catch body handler x h) Q E.
Proof. unfold try_catch. destruct (body x h); simpl; auto. Qed.

Lemma sat_with_local {L A} (init : L) (m : M V (X * L) A) x h Q E :
  sat (m (x, init) h) (λ a xl h', Q a xl.1 h') (λ xl h', E xl.1 h') →
  sat (with_local init m x h) Q E.
Proof. unfold with_local. destruct (m (x, init) h); simpl; auto. Qed.

End Blocks.

Lemma wrap_succ c n : wrap (wrap (c + n) + 1) = wrap (c + (n + 1)).
Proof. unfold wrap. rewrite Zplus_mod_idemp_l. f_equal. lia. Qed.

Lemma wrap_pred c n : wrap (wrap (c + (n + 1)) - 1) = wrap (c + n).
Proof. unfold wrap. rewrite Zminus_mod_idemp_l. f_equal. lia. Qed.

Lemma wrap_small c : 0 ≤ c < size_max → wrap c = c.
Proof. apply Z.mod_small. Qed.

(** The nodes a batch added: the positions recorded with [true]. *)
Definition added (res : list (iter * bool)) : list ptr :=
  omap (λ r : iter * bool, if r.2 then Some (current r.1) else None) res.

Lemma added_snoc res r :
  added (res ++ [r]) = added res ++ (if r.2 then [current r.1] else []).
Proof. unfold added. rewrite omap_app. simpl. by destruct r.2. Qed.

Section Filter.
Context {V : Type}.
Implicit Types (l : list (ptr * V)) (B : list ptr).

Lemma filter_agree B B' l :
  (∀ e, e ∈ l → e.1 ∈ B ↔ e.1 ∈ B') →
  filter (λ e, e.1 ∉ B) l = filter (λ e, e.1 ∉ B') l.
Proof.
  induction l as [|e l IH]; intros H; [done|].
  assert (He : e.1 ∈ B ↔ e.1 ∈ B') by (apply H; left).
  assert (Hl : filter (λ e, e.1 ∉ B) l = filter (λ e, e.1 ∉ B') l).
  { apply IH. intros e' He'. apply H. by right. }
  destruct (decide (e.1 ∈ B)) as [Hin|Hout].
  - rewrite !filter_cons_False; [done|..]; intros Hn; apply Hn; tauto.
  - rewrite !filter_cons_True; [by f_equal|..]; tauto.
Qed.

Lemma filter_drop B B' p v l1 l2 :
  p ∈ B → p ∉ (l1 ++ l2).*1 → (∀ q, q ≠ p → q ∈ B ↔ q ∈ B') →
  filter (λ e, e.1 ∉ B) (l1 ++ (p, v) :: l2)
  = filter (λ e, e.1 ∉ B') (l1 ++ l2).
Proof.
  intros Hp Hnp HB.
  assert (Hag : ∀ e, e ∈ l1 ++ l2 → e.1 ∈ B ↔ e.1 ∈ B').
  { intros e He. apply HB. intros Heq. apply Hnp.
    apply list_elem_of_fmap. by exists e. }
  rewrite (filter_app _ l1 ((p, v) :: l2)), filter_cons_False by (simpl; tauto).
  rewrite <- filter_app. by apply filter_agree.
Qed.

Lemma filter_none l : filter (λ e, e.1 ∉ ([] : list ptr)) l = l.
Proof.
  induction l as [|e l IH]; [done|].
  rewrite filter_cons_True by apply not_elem_of_nil. by f_equal.
Qed.

End Filter.

Section Batch.
Context {V : Type}.
Variable kov : V → Z.
Variable dflt : V.
Variables (nl : ptr) (s : nat) (T0 : shape V) (c0 : Z) (h0 : heap V).
Variables (uq u : bool).
Implicit Types (h : heap V) (T : shape V) (A : list ptr).

(** The state of a batch that added the nodes [A], none of them removed
    yet, to the tree [T0] found in heap [h0]: without the nodes of [A]
    the tree has the contents of [T0]. *)
Definition batch A (o : Rb_tree) h : Prop :=
  ∃ T' np,
    own dflt ∅ nl np T' s (wrap (c0 + Z.of_nat (length A))) o h
    ∧ shaped kov (uq && u) T'
    ∧ NoDup A ∧ (∀ p, p ∈ A → p ∈ ptrs T')
    ∧ filter (λ e, e.1 ∉ A) (elems T') = elems T0
    ∧ tsize T' = (tsize T0 + length A)%nat
    ∧ keeps (foot nl T0) h0 h
    ∧ (∀ q, q ∈ ptrs T' → q ∈ ptrs T0 ∨ h0 !! q = None).

Lemma batch_self A o h : batch A o h → self o = s ∧ nil_ o = nl.
Proof.
  intros (T' & np & Ho & _). by rewrite (own_obj_eq dflt _ _ _ _ _ _ _ _ Ho).
Qed.

Lemma batch_start np o :
  own dflt ∅ nl np T0 s c0 o h0 → shaped kov uq T0 → 0 ≤ c0 < size_max →
  batch [] o h0.
Proof.
  intros Ho Hsh Hc. exists T0, np. simpl. rewrite Z.add_0_r, wrap_small by done.
  split_and!; auto.
  - eapply shaped_mono; [|exact Hsh]. by intros [? ?]%andb_true_iff.
  - constructor.
  - intros p Hp. by apply not_elem_of_nil in Hp.
  - apply filter_none.
  - apply keeps_refl.
Qed.

Lemma batch_end o h :
  shaped kov uq T0 → 0 ≤ c0 < size_max → batch [] o h →
  ∃ T' np, own dflt ∅ nl np T' s c0 o h ∧ shaped kov uq T'
           ∧ elems T' = elems T0 ∧ keeps (foot nl T0) h0 h.
Proof.
  intros (_ & _ & Hord & Hstr) Hc (T' & np & Ho & Hsh & _ & _ & He & _ & Hk & _).
  simpl in Ho. rewrite Z.add_0_r, wrap_small in Ho by done.
  rewrite filter_none in He. exists T', np. split_and!; auto.
  destruct Hsh as (Hrb & Hcol & _ & _). split_and!; auto.
  - unfold ordered. by rewrite He.
  - intros Hu. unfold strictly_ordered. rewrite He. by apply Hstr.
Qed.

Lemma batch_delete fuel p A o h :
  batch (p :: A) o h → (2 * (tsize T0 + S (length A)) < fuel)%nat →
  returns (delete_node fuel p o h) (λ _ o' h', batch A o' h').
Proof.
  intros (T' & np & Ho & Hsh & Hnd & Hin & He & Hsz & Hk & Hfr) Hfuel.
  apply NoDup_cons in Hnd as [HpA Hnd].
  assert (Hp : p ∈ ptrs T') by (apply Hin; left).
  assert (Hf : (2 * tsize T' < fuel)%nat) by (rewrite Hsz; simpl; lia).
  eapply returns_mono;
    [exact (delete_node_keeps kov dflt fuel _ _ _ _ _ _ _ _ p Hf Ho Hsh Hp)|].
  intros [] o' h' (T'' & np' & l1 & v & l2 & Ho' & Hsh' & HeT & HeT' & Hp' & Hk').
  pose proof (own_NoDup dflt _ _ _ _ _ _ _ _ Ho) as Hnd'.
  rewrite HeT, fmap_app, fmap_cons in Hnd'. simpl in Hnd'.
  apply NoDup_app in Hnd' as (Hnd1 & Hnd2 & Hnd3).
  apply NoDup_cons in Hnd3 as [Hnd3 Hnd4].
  assert (Hnp : p ∉ (l1 ++ l2).*1).
  { rewrite fmap_app, elem_of_app. intros [H1|H2]; [|done].
    apply (Hnd2 p H1). left. }
  exists T'', np'. split_and!; auto.
  - cbn [length] in Ho'. rewrite Nat2Z.inj_succ in Ho'.
    replace (Z.succ (Z.of_nat (length A))) with (Z.of_nat (length A) + 1) in Ho' by lia.
    by rewrite wrap_pred in Ho'.
  - intros q Hq. rewrite Hp'. apply elem_of_difference. split.
    + apply Hin. by right.
    + intros ->%elem_of_singleton. done.
  - rewrite HeT', <- He, HeT. symmetry. apply filter_drop; [left|done|].
    intros q Hq. rewrite elem_of_cons. tauto.
  - rewrite !tsize_elems, HeT' in *. rewrite HeT in Hsz.
    rewrite length_app in *. simpl in Hsz. lia.
  - intros q n Hq Hn. apply Hk'; [|by apply Hk].
    intros Hq'. apply Hq. unfold foot in *.
    apply elem_of_union in Hq' as [Hq'|Hq']; [set_solver|].
    destruct (Hfr q Hq') as [?|Hnone]; [set_solver|congruence].
  - intros q Hq. apply Hfr. rewrite Hp' in Hq. set_solver.
Qed.

End Batch.

Section BatchInsert.
Context {V : Type}.
Variable kov : V → Z.
Variable dflt : V.
Variable alloc : heap V → option ptr.
Hypothesis alloc_fresh : ∀ h a, alloc h = Some a → h !! a = None.
Variables (nl : ptr) (s : nat) (T0 : shape V) (c0 : Z) (h0 : heap V).
Variables (uq u : bool).
Implicit Types (h : heap V) (T : shape V) (A : list ptr).

Lemma batch_insert fuel A o h v :
  batch kov dflt nl s T0 c0 h0 uq u A o h →
  (tsize T0 + length A < fuel)%nat →
  sat (insert kov alloc fuel (kov v) v u o h)
    (λ res o' h',
       batch kov dflt nl s T0 c0 h0 uq u
         (A ++ (if res.2 then [res.1] else [])) o' h'
       ∧ (u = false → res.2 = true))
    (λ o' h', o' = o ∧ h' = h).
Proof.
  intros HB Hfuel. pose proof HB as
    (T' & np & Ho & Hsh & Hnd & Hin & He & Hsz & Hk & Hfr).
  assert (Hf : (tsize T' < fuel)%nat) by (rewrite Hsz; lia).
  eapply sat_mono;
    [exact (insert_keeps kov dflt alloc alloc_fresh fuel _ _ _ _ _ _ _ _ v u
              Hf Ho Hsh)| |].
  2: { intros o' h' (-> & -> & _). done. }
  intros [p b] o' h' Hpost. cbn [fst snd] in *. destruct b.
  2: { destruct Hpost as (Hu & _ & -> & ->). rewrite app_nil_r.
       split; [done|]. congruence. }
  split; [|done].
  destruct Hpost as (_ & Hfresh & T'' & l1 & l2 & Ho' & Hsh' & HeT & HeT' & Hp' & Hk').
  assert (Hlive : ∀ q, q ∈ foot nl T' → is_Some (h !! q)).
  { intros q Hq. by eapply (own_foot_live dflt). }
  assert (HpT : p ∉ foot nl T').
  { intros Hq. destruct (Hlive p Hq) as [n Hn]. congruence. }
  assert (HpA : p ∉ A).
  { intros Hq. apply HpT. unfold foot. apply Hin in Hq. set_solver. }
  assert (Hnp : p ∉ (l1 ++ l2).*1).
  { rewrite <- HeT. rewrite elems_fst_ptrs. unfold foot in HpT. set_solver. }
  exists T'', np. split_and!; auto.
  - rewrite wrap_succ in Ho'. rewrite length_app, Nat2Z.inj_add. exact Ho'.
  - eapply shaped_mono; [|exact Hsh']. intros Hu. rewrite Hu.
    apply andb_true_iff in Hu as [_ Hu]. by rewrite Hu.
  - apply NoDup_app. split_and!; [done| |apply NoDup_singleton].
    intros q Hq ->%list_elem_of_singleton. done.
  - intros q [Hq|Hq]%elem_of_app; rewrite Hp'.
    + apply Hin in Hq. set_solver.
    + apply list_elem_of_singleton in Hq as ->. set_solver.
  - rewrite HeT', <- He, HeT. apply filter_drop; [|done|].
    + apply elem_of_app. right. left.
    + intros q Hq. rewrite elem_of_app, list_elem_of_singleton. tauto.
  - rewrite !tsize_elems, HeT' in *. rewrite HeT in Hsz.
    rewrite !length_app in *. simpl. lia.
  - intros q n Hq Hn. apply Hk'; [|by apply Hk].
    intros Hq'. apply Hq. unfold foot in *.
    apply elem_of_union in Hq' as [Hq'|Hq']; [set_solver|].
    destruct (Hfr q Hq') as [?|Hnone]; [set_solver|congruence].
  - intros q Hq. rewrite Hp' in Hq.
    apply elem_of_union in Hq as [->%elem_of_singleton|Hq]; [|by apply Hfr].
    destruct (decide (p ∈ ptrs T0)) as [?|Hout]; [by left|right].
    destruct (h0 !! p) as [n|] eqn:E; [|done].
    assert (Hpn : p ∉ foot nl T0).
    { unfold foot. intros [->%elem_of_singleton|?]%elem_of_union; [|done].
      apply HpT. unfold foot. set_solver. }
    pose proof (Hk p n Hpn E). congruence.
Qed.

End BatchInsert.

(** *** [set::insert_many] *)

Section SetBatch.
Variable dflt : Z.
Variable alloc : heap Z → option ptr.
Hypothesis alloc_fresh : ∀ h a, alloc h = Some a → h !! a = None.
Variables (nl : ptr) (s : nat) (T0 : shape Z) (c0 : Z) (h0 : heap Z).
Variable uq : bool.

Definition set_batch := batch s21_set.kov dflt nl s T0 c0 h0 uq true.

Lemma set_insert_batch fuel A o h v :
  set_batch A o h → (tsize T0 + length A < fuel)%nat →
  sat (s21_set.insert alloc fuel v o h)
    (λ r o' h', tree r.1 = s
                ∧ set_batch (A ++ (if r.2 then [current r.1] else [])) o' h')
    (λ o' h', o' = o ∧ h' = h).
Proof.
  intros HB Hfuel. unfold s21_set.insert.
  eapply sat_bind_gen;
    [exact (batch_insert s21_set.kov dflt alloc alloc_fresh nl s T0 c0 h0 uq true
              fuel A o h v HB Hfuel)| |done].
  intros [p b] o' h' [HB' _]. cbn beta in HB'. msteps. simpl.
  split; [|exact HB']. by destruct (batch_self _ _ _ _ _ _ _ _ _ _ _ _ HB').
Qed.

Lemma set_insert_each_sat fuel args : ∀ res o h,
  set_batch (added res) o h → Forall (λ r, tree r.1 = s) res →
  (tsize T0 + length (added res) + length args ≤ fuel)%nat →
  sat (s21_set.insert_each alloc fuel args (o, res) h)
    (λ _ x' h', set_batch (added x'.2) x'.1 h'
                ∧ Forall (λ r, tree r.1 = s) x'.2
                ∧ length x'.2 = (length res + length args)%nat)
    (λ x' h', set_batch (added x'.2) x'.1 h'
              ∧ Forall (λ r, tree r.1 = s) x'.2
              ∧ (length (added x'.2) ≤ length (added res) + length args)%nat).
Proof.
  induction args as [|a args IH]; intros res o h HB Hall Hfuel.
  - simpl. split_and!; auto.
  - cbn [s21_set.insert_each]. cbn [length] in Hfuel.
    eapply sat_bind_gen;
      [apply sat_on_fst, (set_insert_batch fuel (added res) o h a HB); lia| |].
    + intros r [o' res'] h' [Hres [Htree HB']]. cbn [fst snd] in *. subst res'.
      rewrite bind_on_snd_update. rewrite <- added_snoc in HB'.
      assert (Hlen : (length (added (res ++ [r])) ≤ S (length (added res)))%nat).
      { rewrite added_snoc, length_app. destruct r.2; simpl; lia. }
      eapply sat_mono; [apply (IH (res ++ [r]) o' h' HB')| |].
      * apply Forall_app. split; [done|]. by constructor.
      * lia.
      * intros [] x' h'' (? & ? & Hl). split_and!; auto.
        rewrite Hl, length_app. simpl. lia.
      * intros x' h'' (? & ? & Hl). split_and!; auto. cbn [length]. lia.
    + intros [o' res'] h' [Hres [-> ->]]. cbn [fst snd] in *. subst res'.
      split_and!; auto. cbn [length]. lia.
Qed.

Lemma set_rollback_sat fuel : ∀ res o h L,
  set_batch (added res) o h → Forall (λ r, tree r.1 = s) res →
  (2 * (tsize T0 + length (added res)) < fuel)%nat →
  returns (s21_set.rollback fuel res (o, L) h)
    (λ _ x' h', set_batch [] x'.1 h' ∧ x'.2 = L).
Proof.
  induction res as [|[it b] res IH]; intros o h L HB Hall Hfuel.
  - simpl. auto.
  - cbn [s21_set.rollback snd fst]. apply Forall_cons in Hall as [Hit Hall].
    cbn [fst] in Hit. destruct b.
    + change (added ((it, true) :: res)) with (current it :: added res) in *.
      cbn [length] in Hfuel.
      destruct (batch_self _ _ _ _ _ _ _ _ _ _ _ _ HB) as [Hself Hnil].
      eapply sat_bind; [apply returns_on_fst|].
      * unfold s21_set.erase, is_same_iterator. msteps.
        rewrite Hit, Hself, Nat.eqb_refl.
        exact (batch_delete s21_set.kov dflt nl s T0 c0 h0 uq true fuel
                 (current it) (added res) o h HB Hfuel).
      * intros [] [o' L'] h' [HL HB']. cbn [fst snd] in *. subst L'.
        apply IH; auto. lia.
    + rewrite bind_ret. apply IH; auto.
Qed.

Lemma set_insert_many_sat fuel args np o :
  own dflt ∅ nl np T0 s c0 o h0 → shaped s21_set.kov uq T0 →
  0 ≤ c0 < size_max →
  (2 * (tsize T0 + length args) < fuel)%nat →
  sat (s21_set.insert_many alloc fuel args o h0)
    (λ res o' h', set_batch (added res) o' h' ∧ length res = length args)
    (λ o' h', set_batch [] o' h').
Proof.
  intros Ho Hsh Hc Hfuel. unfold s21_set.insert_many.
  apply sat_with_local.
  pose proof (batch_start s21_set.kov dflt nl s T0 c0 h0 uq true np o Ho Hsh Hc)
    as HB.
  eapply (sat_try_catch _ _ _ _
            (λ res x' h', set_batch (added res) x'.1 h' ∧ length res = length args)
            (λ x' h', set_batch (added x'.2) x'.1 h'
                      ∧ Forall (λ r, tree r.1 = s) x'.2
                      ∧ (length (added x'.2) ≤ length args)%nat)).
  - eapply sat_bind_gen;
      [apply (set_insert_each_sat fuel args [] o h0 HB); [constructor|simpl; lia]| |].
    + intros [] [o' res] h' (HB' & _ & Hl). unfold this. simpl in *. by split.
    + intros x' h' H. exact H.
  - intros res [o' res'] h' H. exact H.
  - intros [o' res] h' (HB' & Hall & Hl). cbn [fst snd] in *.
    rewrite bind_this. cbn [snd].
    eapply sat_bind_gen;
      [apply (set_rollback_sat fuel res o' h' res HB' Hall); lia| |].
    + intros [] [o'' L] h'' [HB'' _]. exact HB''.
    + intros x' h'' [].
Qed.

End SetBatch.

(** *** [multiset::insert_many] *)

Section MultisetBatch.
Variable dflt : Z.
Variable alloc : heap Z → option ptr.
Hypothesis alloc_fresh : ∀ h a, alloc h = Some a → h !! a = None.
Variables (nl : ptr) (s : nat) (T0 : shape Z) (c0 : Z) (h0 : heap Z).
Variable uq : bool.

Definition multiset_batch := batch s21_multiset.kov dflt nl s T0 c0 h0 uq false.

Lemma multiset_insert_batch fuel A o h v :
  multiset_batch A o h → (tsize T0 + length A < fuel)%nat →
  sat (s21_multiset.insert alloc fuel v o h)
    (λ r o' h', tree r = s ∧ multiset_batch (A ++ [current r]) o' h')
    (λ o' h', o' = o ∧ h' = h).
Proof.
  intros HB Hfuel. unfold s21_multiset.insert.
  eapply sat_bind_gen;
    [exact (batch_insert s21_multiset.kov dflt alloc alloc_fresh nl s T0 c0 h0 uq
              false fuel A o h v HB Hfuel)| |done].
  intros [p b] o' h' [HB' Hb]. cbn [fst snd] in *. rewrite (Hb eq_refl) in HB'.
  msteps. simpl.
  split; [|exact HB']. by destruct (batch_self _ _ _ _ _ _ _ _ _ _ _ _ HB').
Qed.

Lemma multiset_insert_each_sat fuel args : ∀ res o h,
  multiset_batch (added res) o h →
  Forall (λ r, tree r.1 = s ∧ r.2 = true) res →
  (tsize T0 + length (added res) + length args ≤ fuel)%nat →
  sat (s21_multiset.insert_each alloc fuel args (o, res) h)
    (λ _ x' h', multiset_batch (added x'.2) x'.1 h'
                ∧ Forall (λ r, tree r.1 = s ∧ r.2 = true) x'.2
                ∧ length x'.2 = (length res + length args)%nat)
    (λ x' h', multiset_batch (added x'.2) x'.1 h'
              ∧ Forall (λ r, tree r.1 = s ∧ r.2 = true) x'.2
              ∧ (length (added x'.2) ≤ length (added res) + length args)%nat).
Proof.
  induction args as [|a args IH]; intros res o h HB Hall Hfuel.
  - simpl. split_and!; auto.
  - cbn [s21_multiset.insert_each]. cbn [length] in Hfuel.
    eapply sat_bind_gen;
      [apply sat_on_fst, (multiset_insert_batch fuel (added res) o h a HB); lia| |].
    + intros r [o' res'] h' [Hres [Htree HB']]. cbn [fst snd] in *. subst res'.
      rewrite bind_on_snd_update.
      change [current r] with (if (r, true).2 then [current (r, true).1] else [])
        in HB'.
      rewrite <- added_snoc in HB'.
      assert (Hlen : (length (added (res ++ [(r, true)])) ≤ S (length (added res)))%nat).
      { rewrite added_snoc, length_app. simpl. lia. }
      eapply sat_mono; [apply (IH (res ++ [(r, true)]) o' h' HB')| |].
      * apply Forall_app. split; [done|]. by constructor.
      * lia.
      * intros [] x' h'' (? & ? & Hl). split_and!; auto.
        rewrite Hl, length_app. simpl. lia.
      * intros x' h'' (? & ? & Hl). split_and!; auto. cbn [length]. lia.
    + intros [o' res'] h' [Hres [-> ->]]. cbn [fst snd] in *. subst res'.
      split_and!; auto. cbn [length]. lia.
Qed.

(** The roll-back erases every recorded position: it is right for the
    lists [insert_each] builds, whose entries all carry [true]. *)
Lemma multiset_rollback_sat fuel : ∀ res o h L,
  multiset_batch (added res) o h →
  Forall (λ r, tree r.1 = s ∧ r.2 = true) res →
  (2 * (tsize T0 + length (added res)) < fuel)%nat →
  returns (s21_multiset.rollback fuel res (o, L) h)
    (λ _ x' h', multiset_batch [] x'.1 h' ∧ x'.2 = L).
Proof.
  induction res as [|[it b] res IH]; intros o h L HB Hall Hfuel.
  - simpl. auto.
  - cbn [s21_multiset.rollback snd fst].
    apply Forall_cons in Hall as [[Hit Hb] Hall]. cbn [fst snd] in Hit, Hb.
    subst b.
    change (added ((it, true) :: res)) with (current it :: added res) in *.
    cbn [length] in Hfuel.
    destruct (batch_self _ _ _ _ _ _ _ _ _ _ _ _ HB) as [Hself Hnil].
    eapply sat_bind; [apply returns_on_fst|].
    + unfold s21_multiset.erase, is_same_iterator. msteps.
      rewrite Hit, Hself, Nat.eqb_refl.
      exact (batch_delete s21_multiset.kov dflt nl s T0 c0 h0 uq false fuel
               (current it) (added res) o h HB Hfuel).
    + intros [] [o' L'] h' [HL HB']. cbn [fst snd] in *. subst L'.
      apply IH; auto. lia.
Qed.

Lemma multiset_insert_many_sat fuel args np o :
  own dflt ∅ nl np T0 s c0 o h0 → shaped s21_multiset.kov uq T0 →
  0 ≤ c0 < size_max →
  (2 * (tsize T0 + length args) < fuel)%nat →
  sat (s21_multiset.insert_many alloc fuel args o h0)
    (λ res o' h', multiset_batch (added res) o' h' ∧ length res = length args)
    (λ o' h', multiset_batch [] o' h').
Proof.
  intros Ho Hsh Hc Hfuel. unfold s21_multiset.insert_many.
  apply sat_with_local.
  pose proof (batch_start s21_multiset.kov dflt nl s T0 c0 h0 uq false np o
                Ho Hsh Hc) as HB.
  eapply (sat_try_catch _ _ _ _
            (λ res x' h', multiset_batch (added res) x'.1 h'
                          ∧ length res = length args)
            (λ x' h', multiset_batch (added x'.2) x'.1 h'
                      ∧ Forall (λ r, tree r.1 = s ∧ r.2 = true) x'.2
                      ∧ (length (added x'.2) ≤ length args)%nat)).
  - eapply sat_bind_gen;
      [apply (multiset_insert_each_sat fuel args [] o h0 HB);
         [constructor|simpl; lia]| |].
    + intros [] [o' res] h' (HB' & _ & Hl). unfold this. simpl in *. by split.
    + intros x' h' H. exact H.
  - intros res [o' res'] h' H. exact H.
  - intros [o' res] h' (HB' & Hall & Hl). cbn [fst snd] in *.
    rewrite bind_this. cbn [snd].
    eapply sat_bind_gen;
      [apply (multiset_rollback_sat fuel res o' h' res HB' Hall); lia| |].
    + intros [] [o'' L] h'' [HB'' _]. exact HB''.
    + intros x' h'' [].
Qed.

End MultisetBatch.

(** *** [map::insert_many] *)

Section MapBatch.
Context {T : Type}.
Variable dflt : Z * T.
Variable alloc : heap (Z * T) → option ptr.
Hypothesis alloc_fresh : ∀ h a, alloc h = Some a → h !! a = None.
Variables (nl : ptr) (s : nat) (T0 : shape (Z * T)) (c0 : Z) (h0 : heap (Z * T)).
Variable uq : bool.

Definition map_batch := batch s21_map.kov dflt nl s T0 c0 h0 uq true.

Lemma map_insert_batch fuel A o h v :
  map_batch A o h → (tsize T0 + length A < fuel)%nat →
  sat (s21_map.insert alloc fuel v o h)
    (λ r o' h', tree r.1 = s
                ∧ map_batch (A ++ (if r.2 then [current r.1] else [])) o' h')
    (λ o' h', o' = o ∧ h' = h).
Proof.
  intros HB Hfuel. unfold s21_map.insert.
  eapply sat_bind_gen;
    [exact (batch_insert s21_map.kov dflt alloc alloc_fresh nl s T0 c0 h0 uq true
              fuel A o h v HB Hfuel)| |done].
  intros [p b] o' h' [HB' _]. cbn beta in HB'. msteps. simpl.
  split; [|exact HB']. by destruct (batch_self _ _ _ _ _ _ _ _ _ _ _ _ HB').
Qed.

Lemma map_insert_each_sat fuel args : ∀ res o h,
  map_batch (added res) o h → Forall (λ r, tree r.1 = s) res →
  (tsize T0 + length (added res) + length args ≤ fuel)%nat →
  sat (s21_map.insert_each alloc fuel args (o, res) h)
    (λ _ x' h', map_batch (added x'.2) x'.1 h'
                ∧ Forall (λ r, tree r.1 = s) x'.2
                ∧ length x'.2 = (length res + length args)%nat)
    (λ x' h', map_batch (added x'.2) x'.1 h'
              ∧ Forall (λ r, tree r.1 = s) x'.2
              ∧ (length (added x'.2) ≤ length (added res) + length args)%nat).
Proof.
  induction args as [|a args IH]; intros res o h HB Hall Hfuel.
  - simpl. split_and!; auto.
  - cbn [s21_map.insert_each]. cbn [length] in Hfuel.
    eapply sat_bind_gen;
      [apply sat_on_fst, (map_insert_batch fuel (added res) o h a HB); lia| |].
    + intros r [o' res'] h' [Hres [Htree HB']]. cbn [fst snd] in *. subst res'.
      rewrite bind_on_snd_update. rewrite <- added_snoc in HB'.
      assert (Hlen : (length (added (res ++ [r])) ≤ S (length (added res)))%nat).
      { rewrite added_snoc, length_app. destruct r.2; simpl; lia. }
      eapply sat_mono; [apply (IH (res ++ [r]) o' h' HB')| |].
      * apply Forall_app. split; [done|]. by constructor.
      * lia.
      * intros [] x' h'' (? & ? & Hl). split_and!; auto.
        rewrite Hl, length_app. simpl. lia.
      * intros x' h'' (? & ? & Hl). split_and!; auto. cbn [length]. lia.
    + intros [o' res'] h' [Hres [-> ->]]. cbn [fst snd] in *. subst res'.
      split_and!; auto. cbn [length]. lia.
Qed.

Lemma map_rollback_sat fuel : ∀ res o h L,
  map_batch (added res) o h → Forall (λ r, tree r.1 = s) res →
  (2 * (tsize T0 + length (added res)) < fuel)%nat →
  returns (s21_map.rollback fuel res (o, L) h)
    (λ _ x' h', map_batch [] x'.1 h' ∧ x'.2 = L).
Proof.
  induction res as [|[it b] res IH]; intros o h L HB Hall Hfuel.
  - simpl. auto.
  - cbn [s21_map.rollback snd fst]. apply Forall_cons in Hall as [Hit Hall].
    cbn [fst] in Hit. destruct b.
    + change (added ((it, true) :: res)) with (current it :: added res) in *.
      cbn [length] in Hfuel.
      destruct (batch_self _ _ _ _ _ _ _ _ _ _ _ _ HB) as [Hself Hnil].
      eapply sat_bind; [apply returns_on_fst|].
      * unfold s21_map.erase, is_same_iterator. msteps.
        rewrite Hit, Hself, Nat.eqb_refl.
        exact (batch_delete s21_map.kov dflt nl s T0 c0 h0 uq true fuel
                 (current it) (added res) o h HB Hfuel).
      * intros [] [o' L'] h' [HL HB']. cbn [fst snd] in *. subst L'.
        apply IH; auto. lia.
    + rewrite bind_ret. apply IH; auto.
Qed.

Lemma map_insert_many_sat fuel args np o :
  own dflt ∅ nl np T0 s c0 o h0 → shaped s21_map.kov uq T0 →
  0 ≤ c0 < size_max →
  (2 * (tsize T0 + length args) < fuel)%nat →
  sat (s21_map.insert_many alloc fuel args o h0)
    (λ res o' h', map_batch (added res) o' h' ∧ length res = length args)
    (λ o' h', map_batch [] o' h').
Proof.
  intros Ho Hsh Hc Hfuel. unfold s21_map.insert_many.
  apply sat_with_local.
  pose proof (batch_start s21_map.kov dflt nl s T0 c0 h0 uq true np o Ho Hsh Hc)
    as HB.
  eapply (sat_try_catch _ _ _ _
            (λ res x' h', map_batch (added res) x'.1 h' ∧ length res = length args)
            (λ x' h', map_batch (added x'.2) x'.1 h'
                      ∧ Forall (λ r, tree r.1 = s) x'.2
                      ∧ (length (added x'.2) ≤ length args)%nat)).
  - eapply sat_bind_gen;
      [apply (map_insert_each_sat fuel args [] o h0 HB); [constructor|simpl; lia]| |].
    + intros [] [o' res] h' (HB' & _ & Hl). unfold this. simpl in *. by split.
    + intros x' h' H. exact H.
  - intros res [o' res'] h' H. exact H.
  - intros [o' res] h' (HB' & Hall & Hl). cbn [fst snd] in *.
    rewrite bind_this. cbn [snd].
    eapply sat_bind_gen;
      [apply (map_rollback_sat fuel res o' h' res HB' Hall); lia| |].
    + intros [] [o'' L] h'' [HB'' _]. exact HB''.
    + intros x' h'' [].
Qed.

End MapBatch.

(** ** Running the model *)

Section Run.
Context {V : Type}.
Variable kov : V → Z.
Variable dflt : V.

Lemma pool_fresh l (h : heap V) a : pool l h = Some a → h !! a = None.
Proof.
  unfold pool. intros H. apply find_some in H as [_ H].
  by apply bool_decide_eq_true in H.
Qed.

Lemma valid_opb_ok (w : world (V := V)) o :
  valid_opb w o = true → valid_op w o.
Proof.
  destruct o as [a|i v u a|i z|i j u|i]; simpl.
  - done.
  - apply bool_decide_eq_true.
  - destruct (wtrees w !! i) as [t|]; [|done]. intros H. exists t.
    split; [done|]. apply orb_true_iff in H as [H|H];
      apply bool_decide_eq_true in H; auto.
  - intros H. apply andb_true_iff in H as [H H3].
    apply andb_true_iff in H as [H1 H2].
    apply bool_decide_eq_true in H1, H2, H3. done.
  - apply bool_decide_eq_true.
Qed.

Lemma run_reachable ops : ∀ w w',
  reachable kov dflt w → run kov dflt ops w = Some w' → reachable kov dflt w'.
Proof.
  induction ops as [|o ops IH]; intros w w' Hr; simpl.
  - by intros [= <-].
  - destruct (valid_opb w o) eqn:Hv; [|done].
    destruct (exec kov dflt o w) as [w1|] eqn:He; [|done].
    apply IH. eapply reach_step; eauto. by apply valid_opb_ok.
Qed.

Lemma after_reachable ops :
  is_Some (run kov dflt ops (mkWorld ∅ [])) → reachable kov dflt (after kov dflt ops).
Proof.
  intros [w Hw]. unfold after. rewrite Hw. simpl.
  eapply run_reachable; [apply reach_init|exact Hw].
Qed.

End Run.

Section Reify.
Context {V : Type}.
Variable kov : V → Z.
Variable dflt : V.
Implicit Types (h : heap V) (T : shape V).

(** The shape found in a heap below a pointer. *)
Fixpoint shape_of (fuel : nat) (h : heap V) (nl x : ptr) : shape V :=
  match fuel with
  | O => Lf
  | S fuel =>
      if ptr_eqb x nl then Lf
      else match h !! x with
           | Some n =>
               Nd (color n) (shape_of fuel h nl (left n)) x (val n)
                  (shape_of fuel h nl (right n))
           | None => Lf
           end
  end.

Lemma rep_shape_of fuel : ∀ h nl T par,
  rep h nl T par → (tsize T < fuel)%nat →
  shape_of fuel h nl (rootp nl T) = T.
Proof.
  induction fuel as [|fuel IH]; intros h nl T par Hrep Hf; [lia|].
  destruct T as [|c l a v r]; simpl.
  - by rewrite ptr_eqb_refl.
  - simpl in Hrep. destruct Hrep as (Ha & Hal & Har & Hlr & Hh & Hl & Hr).
    rewrite ptr_eqb_ne by done. rewrite Hh. simpl.
    rewrite (IH h nl l a), (IH h nl r a); auto; simpl in Hf; lia.
Qed.

Lemma reachable_tree w i t :
  reachable kov dflt w → wtrees w !! i = Some t →
  ∃ T, tree_ok kov dflt (wheap w) i t T.
Proof.
  intros Hr Ht. destruct (reachable_inv kov dflt w Hr) as (Ts & Hlen & Hok & _).
  pose proof (lookup_lt_Some _ _ _ Ht) as Hi.
  destruct (lookup_lt_is_Some_2 Ts i ltac:(lia)) as [T HT].
  exists T. by apply Hok.
Qed.

(** The trees of a reachable state are owned, with the shape the heap
    shows. *)
Lemma reachable_own w i t :
  reachable kov dflt w → wtrees w !! i = Some t →
  own dflt ∅ (nil_ t.1) (nil_parent (wheap w) (nil_ t.1))
    (shape_of (fuel_of (wheap w)) (wheap w) (nil_ t.1) (root t.1))
    i (node_count t.1) t.1 (wheap w)
  ∧ shaped kov t.2
      (shape_of (fuel_of (wheap w)) (wheap w) (nil_ t.1) (root t.1))
  ∧ 0 ≤ node_count t.1 < size_max.
Proof.
  intros Hr Ht. destruct (reachable_tree w i t Hr Ht) as (T & [np Ho] & Hsh & Hc).
  pose proof (own_size dflt _ _ _ _ _ _ _ _ Ho) as Hsz.
  pose proof Ho as [Hobj Hrep Hnil _ _ _].
  assert (Hroot : root t.1 = rootp (nil_ t.1) T) by (by rewrite Hobj at 1).
  rewrite Hroot, (rep_shape_of _ _ _ _ _ Hrep) by (unfold fuel_of; lia).
  unfold nil_parent. rewrite Hnil. simpl. done.
Qed.

End Reify.

(** ** The properties of the specification *)

(** Two trees of integers, built by mutations of every kind: unique and
    duplicate insertions, a deletion, a merge and a clear. *)
Definition demo_ops : list (op (V := Z)) :=
  [ New (Some 1%nat); New (Some 2%nat);
    Insert 0 5 true (Some 3%nat); Insert 0 3 false (Some 4%nat);
    Insert 0 3 false (Some 5%nat); Insert 0 8 true (Some 6%nat);
    Insert 1 7 true (Some 7%nat); Insert 1 5 true (Some 8%nat);
    Insert 1 9 true (Some 9%nat);
    Merge 0 1 true; Delete 0 3%nat;
    New (Some 10%nat); Insert 2 4 true (Some 11%nat); Clear 2 ].

Definition demo_world : world (V := Z) := after s21_multiset.kov 0 demo_ops.

Lemma keys_vals {V} (kov : V → Z) (l : list (ptr * V)) :
  keys kov l = map kov l.*2.
Proof. unfold keys. induction l as [|e l IH]; simpl; by f_equal. Qed.



(** The set [{1, 2}]. *)
Definition set_ops : list (op (V := Z)) :=
  [ New (Some 1%nat); Insert 0 1 true (Some 2%nat);
    Insert 0 2 true (Some 3%nat) ].

Definition set_world : world (V := Z) := after s21_set.kov 0 set_ops.

(** The set [{5, 10, 15}], built with 10 first. *)
Definition three_ops : list (op (V := Z)) :=
  [ New (Some 1%nat); Insert 0 10 true (Some 2%nat);
    Insert 0 5 true (Some 3%nat); Insert 0 15 true (Some 4%nat) ].

Definition three_world : world (V := Z) := after s21_set.kov 0 three_ops.

(** C2, amended.  In every state reached from the empty world by
    [Rb_tree()], [insert] called with the key of the inserted value,
    [delete_node], [merge] of two distinct trees and [clear], the full
    forward iteration over a tree, from [begin()] up to [end()], ends
    and yields exactly the values of the nodes of the tree, which are
    the nodes found from the root through the child links, in their
    order; the keys are non-decreasing, and strictly increasing when
    every mutation of the tree asked for unique keys. *)
Theorem C2_iteration_sorted {V} (kov : V → Z) (dflt : V) (w : world) i t :
  reachable kov dflt w → wtrees w !! i = Some t →
  ∃ T np,
    own dflt ∅ (nil_ t.1) np T i (node_count t.1) t.1 (wheap w)
    ∧ (elems T).*1
      = reach_nodes (fuel_of (wheap w)) (wheap w) (nil_ t.1) (root t.1)
    ∧ iterate (fuel_of (wheap w)) t.1 (wheap w)
      = Ok (elems T).*2 t.1 (wheap w)
    ∧ StronglySorted Z.le (map kov (elems T).*2)
    ∧ (t.2 = true → StronglySorted Z.lt (map kov (elems T).*2)).
Proof.
  intros Hr Ht.
  destruct (reachable_tree kov dflt w i t Hr Ht)
    as (T & [np Ho] & (_ & _ & Hord & Hstr) & _).
  pose proof (own_size dflt _ _ _ _ _ _ _ _ Ho) as Hsz.
  exists T, np. rewrite <- keys_vals. split_and!; auto.
  - pose proof Ho as [Hobj Hrep _ _ _ _].
    assert (Hroot : root t.1 = rootp (nil_ t.1) T) by (by rewrite Hobj at 1).
    rewrite Hroot. symmetry. eapply reach_nodes_rep; [exact Hrep|].
    unfold fuel_of. lia.
  - eapply (iterate_own kov dflt); [|exact Ho]. unfold fuel_of. lia.
Qed.

Lemma C2_witness :
  iterate (fuel_of (wheap set_world)) (mkTree 0 2%nat 1%nat 2)
    (wheap set_world)
  = Ok [1; 2] (mkTree 0 2%nat 1%nat 2) (wheap set_world)
  ∧ StronglySorted Z.lt (map s21_set.kov [1; 2]).
Proof.
  destruct (C2_iteration_sorted s21_set.kov 0 set_world 0
              (mkTree 0 2%nat 1%nat 2, true))
    as (T & np & _ & _ & Hit & _ & Hlt).
  - apply after_reachable. vm_compute. eexists. reflexivity.
  - vm_compute. reflexivity.
  - assert (E : iterate (fuel_of (wheap set_world)) (mkTree 0 2%nat 1%nat 2)
                  (wheap set_world)
                = Ok [1; 2] (mkTree 0 2%nat 1%nat 2) (wheap set_world))
      by (vm_compute; reflexivity).
    cbn [fst snd] in Hit, Hlt. rewrite E in Hit. injection Hit as Hv.
    rewrite <- Hv in Hlt. split; [exact E|exact (Hlt eq_refl)].
Defined.

(** C2 as stated fails for two public operations of the tree.  In the
    set [{5, 10, 15}], [insert(3, 12, true)] looks for the place of the
    key 3 and hangs the value 12 to the right of 5: the iteration then
    yields 5, 12, 10, 15.  And after [Rb_tree(Rb_tree &&)] the
    moved-from object has a sentinel whose links are null, so [begin()]
    and the iteration load through a null pointer. *)
Lemma C2_counterexample :
  reachable s21_set.kov 0 three_world
  ∧ wtrees three_world !! 0%nat = Some (mkTree 0 2%nat 1%nat 3, true)
  ∧ (∃ o' h',
       (insert s21_set.kov (pool [5%nat]) 20 3 12 true ;; iterate 20)
         (mkTree 0 2%nat 1%nat 3) (wheap three_world)
       = Ok [5; 12; 10; 15] o' h')
  ∧ ¬ StronglySorted Z.le (map s21_set.kov [5; 12; 10; 15])
  ∧ (∃ x' h',
       Rb_tree_move 0 (pool [5%nat]) 1
         (mkTree 0%nat 0%nat 0%nat 0, mkTree 0 2%nat 1%nat 3)
         (wheap three_world)
       = Ok tt x' h'
       ∧ x'.1 = mkTree 1 2%nat 1%nat 3
       ∧ x'.2 = mkTree 0 5%nat 5%nat 0
       ∧ begin_ 20 x'.2 h' = Fault
       ∧ iterate 20 x'.2 h' = Fault).
Proof.
  split_and!.
  - apply after_reachable. vm_compute. eexists. reflexivity.
  - vm_compute. reflexivity.
  - eexists _, _. vm_compute. reflexivity.
  - intros Hs. apply StronglySorted_inv in Hs as [Hs _].
    apply StronglySorted_inv in Hs as [_ Hall].
    apply Forall_inv in Hall. unfold s21_set.kov in Hall. lia.
  - eexists _, _. split; [vm_compute; reflexivity|].
    split_and!; vm_compute; reflexivity.
Qed.





Lemma sorted_bounds (x y : Z) (l1 l2 : list Z) :
  StronglySorted Z.le (x :: l1) → x :: l1 = l2 ++ [y] →
  ∀ z, z ∈ x :: l1 → x ≤ z ≤ y.
Proof.
  intros Hs He z Hz. split.
  - apply StronglySorted_inv in Hs as [_ Hall].
    apply elem_of_cons in Hz as [->|Hz]; [lia|].
    by apply (proj1 (Forall_forall _ _) Hall).
  - rewrite He in Hs, Hz. clear He.
    induction l2 as [|a l2 IH]; simpl in *.
    + apply list_elem_of_singleton in Hz as ->. lia.
    + apply StronglySorted_inv in Hs as [Hs Hall].
      apply elem_of_cons in Hz as [->|Hz]; [|by apply IH].
      apply (proj1 (Forall_forall _ _) Hall). apply elem_of_app. right. left.
Qed.

(** C9.  In a non-empty tree, incrementing the iterator at the sentinel
    ([end()]) gives the iterator at the first node in iteration order,
    which is [begin()] and the node [minimum(root)] finds; decrementing
    it gives the last node, the one [maximum(root)] finds.  Where the
    tree is ordered these hold the smallest and the largest key. *)
Theorem C9_iterator_wraps {V} (dflt : V) fuel nl np T s cnt o h :
  own dflt ∅ nl np T s cnt o h → T ≠ Lf → (tsize T < fuel)%nat →
  ∃ first last front back,
    elems T = first :: back ∧ elems T = front ++ [last]
    ∧ end_ o h = Ok (mkIter nl s) o h
    ∧ begin_ fuel o h = Ok (mkIter first.1 s) o h
    ∧ increment fuel (mkIter nl s) o h = Ok (mkIter first.1 s) o h
    ∧ decrement fuel (mkIter nl s) o h = Ok (mkIter last.1 s) o h
    ∧ minimum fuel (root o) o h = Ok first.1 o h
    ∧ maximum fuel (root o) o h = Ok last.1 o h
    ∧ ∀ kov, ordered kov T →
        ∀ e, e ∈ elems T → kov first.2 ≤ kov e.2 ≤ kov last.2.
Proof.
  intros Ho HT Hf.
  assert (Hne : elems T ≠ []).
  { destruct T; [done|]. apply elems_nd_ne. }
  assert (∃ first back, elems T = first :: back) as (first & back & E1).
  { destruct (elems T) as [|e l]; [done|]. by exists e, l. }
  destruct (exists_last Hne) as (front & last & E2).
  assert (Hroot : root o = rootp nl T)
    by (by rewrite (own_obj_eq dflt _ _ _ _ _ _ _ _ Ho)).
  assert (Hhd : hd_ptr nl (elems T) = first.1) by (by rewrite E1).
  assert (Hlast : last_ptr nl (elems T) = last.1).
  { unfold last_ptr. by rewrite E2, last_snoc. }
  exists first, last, front, back.
  split; [exact E1|]. split; [exact E2|].
  rewrite Hroot, <- Hhd, <- Hlast. split_and!.
  - by eapply end_own.
  - by eapply begin_own.
  - by eapply increment_end.
  - by eapply decrement_end.
  - by eapply minimum_root.
  - by eapply maximum_root.
  - intros kov Hord e He. unfold ordered in Hord. rewrite E1 in Hord, He.
    rewrite E1 in E2.
    assert (Hk : kov first.2 :: keys kov back = keys kov front ++ [kov last.2]).
    { transitivity (keys kov (first :: back)); [done|].
      by rewrite E2, keys_app. }
    apply (sorted_bounds _ _ _ _ Hord Hk).
    change (kov e.2 ∈ keys kov (first :: back)). unfold keys.
    apply list_elem_of_fmap. by exists e.
Qed.

Lemma C9_witness :
  increment (fuel_of (wheap demo_world)) (mkIter 1%nat 0%nat)
    (mkTree 0 5%nat 1%nat 5) (wheap demo_world)
  = Ok (mkIter 4%nat 0%nat) (mkTree 0 5%nat 1%nat 5) (wheap demo_world)
  ∧ decrement (fuel_of (wheap demo_world)) (mkIter 1%nat 0%nat)
      (mkTree 0 5%nat 1%nat 5) (wheap demo_world)
    = Ok (mkIter 9%nat 0%nat) (mkTree 0 5%nat 1%nat 5) (wheap demo_world).
Proof.
  assert (Hr : reachable s21_multiset.kov 0 demo_world).
  { apply after_reachable. vm_compute. eexists. reflexivity. }
  assert (Ht : wtrees demo_world !! 0%nat = Some (mkTree 0 5%nat 1%nat 5, false)).
  { vm_compute. reflexivity. }
  destruct (reachable_own s21_multiset.kov 0 demo_world 0 _ Hr Ht) as (Ho & _ & _).
  cbn [fst snd nil_ root node_count] in Ho.
  destruct (C9_iterator_wraps 0 (fuel_of (wheap demo_world)) _ _ _ _ _ _ _ Ho)
    as (first & last & front & back & E1 & E2 & _ & _ & Hinc & Hdec & _).
  - vm_compute. discriminate.
  - vm_compute. lia.
  - vm_compute in E1, E2. inversion E1; subst first back.
    change ([(4%nat, 3); (5%nat, 3); (7%nat, 7); (6%nat, 8)] ++ [(9%nat, 9)]
            = front ++ [last]) in E2.
    apply app_inj_tail in E2 as [_ <-]. split; [exact Hinc|exact Hdec].
Defined.

(** C10.  Erasing what designates no element changes nothing, neither
    the object nor the heap: [erase(key)] in a set or multiset with no
    element of that key, [delete_node] applied to the sentinel, and
    [erase(pos)] in a set, multiset or map with [pos] at the sentinel
    ([end()]). *)
Theorem C10_erase_nothing :
  (∀ (dflt : Z) fuel key nl np T s cnt o h,
     own dflt ∅ nl np T s cnt o h → (tsize T < fuel)%nat →
     key ∉ keys s21_set.kov (elems T) →
     s21_set.erase_key fuel key o h = Ok tt o h)
  ∧ (∀ (dflt : Z) fuel key nl np T s cnt o h,
       own dflt ∅ nl np T s cnt o h → (tsize T < fuel)%nat →
       key ∉ keys s21_multiset.kov (elems T) →
       s21_multiset.erase_key fuel key o h = Ok tt o h)
  ∧ (∀ V (dflt : V) fuel nl np T s cnt o h,
       own dflt ∅ nl np T s cnt o h →
       delete_node fuel nl o h = Ok tt o h)
  ∧ (∀ (dflt : Z) fuel nl np T s cnt o h it,
       own dflt ∅ nl np T s cnt o h → current it = nl →
       s21_set.erase fuel it o h = Ok tt o h
       ∧ s21_multiset.erase fuel it o h = Ok tt o h)
  ∧ (∀ U (dflt : Z * U) fuel nl np T s cnt o h it,
       own dflt ∅ nl np T s cnt o h → current it = nl →
       s21_map.erase fuel it o h = Ok tt o h).
Proof.
  assert (Hnil : ∀ V (dflt : V) fuel nl np T s cnt o h,
            own dflt ∅ nl np T s cnt o h →
            delete_node fuel nl o h = Ok tt o h).
  { intros V dflt fuel nl np T s cnt o h Ho.
    rewrite (own_obj_eq dflt _ _ _ _ _ _ _ _ Ho). apply delete_node_nil. }
  assert (Hkey : ∀ (kov : Z → Z) (dflt : Z) fuel key nl np T s cnt o h,
            own dflt ∅ nl np T s cnt o h → (tsize T < fuel)%nat →
            key ∉ keys kov (elems T) →
            (let* n := search kov fuel key in delete_node fuel n) o h
            = Ok tt o h).
  { intros kov dflt fuel key nl np T s cnt o h Ho Hf Hk. unfold bind.
    rewrite (search_own kov dflt fuel key _ _ _ _ _ _ _ _ Hf Ho).
    rewrite (sfind_absent kov key T Hk). simpl. by eapply Hnil. }
  split_and!.
  - intros. by eapply Hkey.
  - intros. by eapply Hkey.
  - exact Hnil.
  - intros dflt fuel nl np T s cnt o h it Ho Hit.
    unfold s21_set.erase, s21_multiset.erase, is_same_iterator, bind, this, ret.
    rewrite Hit. destruct (Nat.eqb _ _); rewrite ?(Hnil _ _ _ _ _ _ _ _ _ _ Ho); done.
  - intros U dflt fuel nl np T s cnt o h it Ho Hit.
    unfold s21_map.erase, is_same_iterator, bind, this, ret.
    rewrite Hit. destruct (Nat.eqb _ _); rewrite ?(Hnil _ _ _ _ _ _ _ _ _ _ Ho); done.
Qed.

Lemma C10_witness :
  s21_multiset.erase_key (fuel_of (wheap demo_world)) 6
    (mkTree 0 5%nat 1%nat 5) (wheap demo_world)
  = Ok tt (mkTree 0 5%nat 1%nat 5) (wheap demo_world)
  ∧ s21_multiset.erase (fuel_of (wheap demo_world)) (mkIter 1%nat 0%nat)
      (mkTree 0 5%nat 1%nat 5) (wheap demo_world)
    = Ok tt (mkTree 0 5%nat 1%nat 5) (wheap demo_world).
Proof.
  assert (Hr : reachable s21_multiset.kov 0 demo_world).
  { apply after_reachable. vm_compute. eexists. reflexivity. }
  assert (Ht : wtrees demo_world !! 0%nat = Some (mkTree 0 5%nat 1%nat 5, false)).
  { vm_compute. reflexivity. }
  destruct (reachable_own s21_multiset.kov 0 demo_world 0 _ Hr Ht) as (Ho & _ & _).
  cbn [fst snd nil_ root node_count] in Ho.
  destruct C10_erase_nothing as (_ & Hkey & _ & Hend & _).
  split.
  - apply (Hkey 0 _ 6 _ _ _ _ _ _ _ Ho).
    + vm_compute. lia.
    + refine (bool_decide_unpack _ _). vm_compute. exact I.
  - apply (Hend 0 _ _ _ _ _ _ _ _ (mkIter 1%nat 0%nat) Ho). reflexivity.
Defined.

Section MergeSplit.
Context {V : Type}.
Variable kov : V → Z.
Implicit Types (l : list (ptr * V)) (KA : list Z).

Lemma sorted_lt_NoDup (l : list Z) : StronglySorted Z.lt l → NoDup l.
Proof.
  induction 1 as [|x l Hs IH Hall]; constructor; [|done].
  intros Hx. pose proof (proj1 (Forall_forall _ _) Hall x Hx). lia.
Qed.

Lemma filter_keys_subseteq (P : ptr * V → Prop) `{∀ e, Decision (P e)} l k :
  k ∈ keys kov (filter P l) → k ∈ keys kov l.
Proof.
  unfold keys. intros (e & -> & He)%list_elem_of_fmap.
  apply list_elem_of_filter in He as [_ He].
  apply list_elem_of_fmap. by exists e.
Qed.

(** With unique keys on both sides [merge] moves the nodes whose key the
    destination lacks, and puts the others back. *)
Lemma msplit_unique KA l :
  NoDup (keys kov l) →
  msplit kov true KA l
  = (filter (λ e, kov e.2 ∉ KA) l, filter (λ e, kov e.2 ∈ KA) l,
     length (filter (λ e, kov e.2 ∈ KA) l)).
Proof.
  induction l as [|e l IH] using rev_ind; intros Hnd; [done|].
  rewrite keys_app in Hnd. apply NoDup_app in Hnd as (Hnd & Hne & _).
  assert (Hel : kov e.2 ∉ keys kov l).
  { intros Hin. apply (Hne _ Hin). left. }
  rewrite msplit_snoc, (IH Hnd), !filter_app. clear IH.
  destruct (decide (kov e.2 ∈ KA)) as [Hin|Hout].
  - rewrite mstep_back; cbn [fst snd]; [|done|apply elem_of_app; by left|].
    + rewrite (filter_cons_False (λ e, kov e.2 ∉ KA)) by tauto.
      rewrite (filter_cons_True (λ e, kov e.2 ∈ KA)) by done.
      rewrite !filter_nil, app_nil_r, length_app. simpl.
      do 2 f_equal. lia.
    + intros Hk. by apply filter_keys_subseteq in Hk.
  - rewrite mstep_moved; cbn [fst snd].
    + rewrite (filter_cons_True (λ e, kov e.2 ∉ KA)) by done.
      rewrite (filter_cons_False (λ e, kov e.2 ∈ KA)) by done.
      by rewrite !filter_nil, app_nil_r.
    + intros [_ [Hk|Hk]%elem_of_app]; [done|].
      by apply filter_keys_subseteq in Hk.
Qed.

Lemma filter_partition KA l :
  filter (λ e, kov e.2 ∉ KA) l ++ filter (λ e, kov e.2 ∈ KA) l ≡ₚ l.
Proof.
  induction l as [|e l IH]; [done|].
  destruct (decide (kov e.2 ∈ KA)) as [Hin|Hout].
  - rewrite (filter_cons_False (λ e, kov e.2 ∉ KA)) by tauto.
    rewrite (filter_cons_True (λ e, kov e.2 ∈ KA)) by done.
    rewrite <- Permutation_middle. by constructor.
  - rewrite (filter_cons_True (λ e, kov e.2 ∉ KA)) by done.
    rewrite (filter_cons_False (λ e, kov e.2 ∈ KA)) by done.
    simpl. by constructor.
Qed.

Lemma bumped_wrap n c : 0 ≤ c < size_max → bumped n c = wrap (c + Z.of_nat n).
Proof.
  intros Hc. induction n as [|n IH].
  - simpl. by rewrite Z.add_0_r, wrap_small.
  - change (bumped (S n) c) with (wrap (bumped n c + 1)).
    rewrite IH, wrap_succ. f_equal. lia.
Qed.

End MergeSplit.

(** C3.  Merging a unique-key tree [B] into a distinct unique-key tree
    [A], with unique keys required: [A] ends with its own entries and
    the entries of [B] whose key it lacked, [B] with the entries whose
    key [A] had; together they hold what the two held, node for node;
    the count of [A] grows by the number of entries moved and the count
    of [B] is the number of entries left (counts are [size_t] values,
    so modulo 2^64).  Both trees stay red-black and strictly ordered. *)
Theorem C3_merge_partition {V} (kov : V → Z) (dflt : V) fuel
    nlA npA TA sA cA A nlB npB TB sB cB B h :
  own dflt ∅ nlA npA TA sA cA A h → own dflt ∅ nlB npB TB sB cB B h →
  foot nlA TA ## foot nlB TB →
  shaped kov true TA → shaped kov true TB →
  0 ≤ cA < size_max →
  (2 * (tsize TA + tsize TB) < fuel)%nat →
  returns (merge kov fuel true (A, B) h) (λ _ x' h',
    let moved := filter (λ e, kov e.2 ∉ keys kov (elems TA)) (elems TB) in
    let kept := filter (λ e, kov e.2 ∈ keys kov (elems TA)) (elems TB) in
    ∃ TA' TB',
      own dflt ∅ nlA npA TA' sA (wrap (cA + Z.of_nat (length moved))) x'.1 h'
      ∧ own dflt ∅ nlB nlB TB' sB (wrap (Z.of_nat (length kept))) x'.2 h'
      ∧ shaped kov true TA' ∧ shaped kov true TB'
      ∧ elems TA' ≡ₚ elems TA ++ moved
      ∧ elems TB' ≡ₚ kept
      ∧ elems TA' ++ elems TB' ≡ₚ elems TA ++ elems TB).
Proof.
  intros HoA HoB Hd HshA HshB HcA Hfuel.
  eapply returns_mono;
    [exact (merge_own kov dflt fuel true true _ _ _ _ _ _ _ _ _ _ _ _ _
              HoA HoB Hd HshA Hfuel)|].
  intros [] x' h' (TA' & TB' & HoA' & HoB' & [HshA' HshB'] & [HeA HeB] & _).
  cbn zeta.
  assert (Hnd : NoDup (keys kov (post TB))).
  { rewrite (keys_perm kov _ _ (post_elems TB)).
    apply sorted_lt_NoDup. by apply HshB. }
  rewrite (msplit_unique kov _ _ Hnd) in HoA', HoB', HeA, HeB.
  cbn [fst snd] in HoA', HoB', HeA, HeB.
  assert (Hm : filter (λ e, kov e.2 ∉ keys kov (elems TA)) (post TB)
               ≡ₚ filter (λ e, kov e.2 ∉ keys kov (elems TA)) (elems TB))
    by (by rewrite (post_elems TB)).
  assert (Hk : filter (λ e, kov e.2 ∈ keys kov (elems TA)) (post TB)
               ≡ₚ filter (λ e, kov e.2 ∈ keys kov (elems TA)) (elems TB))
    by (by rewrite (post_elems TB)).
  rewrite (bumped_wrap _ _ HcA), (Permutation_length Hm) in HoA'.
  assert (H0 : 0 ≤ 0 < size_max) by done.
  rewrite (bumped_wrap _ 0 H0), Z.add_0_l, (Permutation_length Hk) in HoB'.
  rewrite Hm in HeA. rewrite Hk in HeB.
  exists TA', TB'. split_and!; auto.
  rewrite HeA, HeB, <- app_assoc. apply Permutation_app_head, filter_partition.
Qed.

(** Two sets sharing the key 5: [{3, 5}] and [{5, 7}]. *)
Definition merge_ops : list (op (V := Z)) :=
  [ New (Some 1%nat); New (Some 2%nat);
    Insert 0 5 true (Some 3%nat); Insert 0 3 true (Some 4%nat);
    Insert 1 5 true (Some 5%nat); Insert 1 7 true (Some 6%nat) ].

Definition merge_world : world (V := Z) := after s21_set.kov 0 merge_ops.

Lemma C3_witness :
  returns
    (merge s21_set.kov (fuel_of (wheap merge_world)) true
       (mkTree 0 3%nat 1%nat 2, mkTree 1 5%nat 2%nat 2) (wheap merge_world))
    (λ _ x' _, node_count x'.1 = 3 ∧ node_count x'.2 = 1).
Proof.
  assert (Hr : reachable s21_set.kov 0 merge_world).
  { apply after_reachable. vm_compute. eexists. reflexivity. }
  assert (HtA : wtrees merge_world !! 0%nat = Some (mkTree 0 3%nat 1%nat 2, true)).
  { vm_compute. reflexivity. }
  assert (HtB : wtrees merge_world !! 1%nat = Some (mkTree 1 5%nat 2%nat 2, true)).
  { vm_compute. reflexivity. }
  destruct (reachable_own s21_set.kov 0 merge_world 0 _ Hr HtA) as (HoA & HshA & HcA).
  destruct (reachable_own s21_set.kov 0 merge_world 1 _ Hr HtB) as (HoB & HshB & _).
  cbn [fst snd nil_ root node_count] in HoA, HoB, HshA, HshB, HcA.
  eapply returns_mono.
  - apply (C3_merge_partition s21_set.kov 0 (fuel_of (wheap merge_world))
             _ _ _ _ _ _ _ _ _ _ _ _ _ HoA HoB); [|exact HshA|exact HshB|exact HcA|].
    + refine (bool_decide_unpack _ _). vm_compute. exact I.
    + vm_compute. lia.
  - intros [] x' h' (TA' & TB' & HoA' & HoB' & _). cbn zeta in HoA', HoB'.
    rewrite (own_obj_eq _ _ _ _ _ _ _ _ _ HoA'), (own_obj_eq _ _ _ _ _ _ _ _ _ HoB').
    split; vm_compute; reflexivity.
Defined.

(** The state of a container after a batch that was rolled back: the
    tree is well formed, holds the nodes it held, in the same order,
    has the count it had, and no cell outside the tree has changed. *)
Definition rolled_back {V} (kov : V → Z) (dflt : V) (nl : ptr) (s : nat)
    (T0 : shape V) (c0 : Z) (uq : bool) (h0 : heap V)
  : Rb_tree → heap V → Prop :=
  λ o' h', ∃ T' np',
    own dflt ∅ nl np' T' s c0 o' h' ∧ shaped kov uq T'
    ∧ elems T' = elems T0 ∧ keeps (foot nl T0) h0 h'.

(** C4.  [insert_many] of a set, a multiset and a map, on any well-formed
    container and with any allocator: the call neither faults nor runs
    forever; if it returns, it returns one result per argument; if it
    throws, whichever insertion of the batch failed, the container holds
    the nodes it held before the call, in the same order, with the same
    count. *)
Theorem C4_insert_many_rolls_back :
  (∀ (dflt : Z) alloc nl np s T0 c0 h0 uq fuel args o,
     (∀ h a, alloc h = Some a → h !! a = None) →
     own dflt ∅ nl np T0 s c0 o h0 → shaped s21_set.kov uq T0 →
     0 ≤ c0 < size_max → (2 * (tsize T0 + length args) < fuel)%nat →
     sat (s21_set.insert_many alloc fuel args o h0)
       (λ res _ _, length res = length args)
       (rolled_back s21_set.kov dflt nl s T0 c0 uq h0))
  ∧ (∀ (dflt : Z) alloc nl np s T0 c0 h0 uq fuel args o,
       (∀ h a, alloc h = Some a → h !! a = None) →
       own dflt ∅ nl np T0 s c0 o h0 → shaped s21_multiset.kov uq T0 →
       0 ≤ c0 < size_max → (2 * (tsize T0 + length args) < fuel)%nat →
       sat (s21_multiset.insert_many alloc fuel args o h0)
         (λ res _ _, length res = length args)
         (rolled_back s21_multiset.kov dflt nl s T0 c0 uq h0))
  ∧ (∀ U (dflt : Z * U) alloc nl np s T0 c0 h0 uq fuel args o,
       (∀ h a, alloc h = Some a → h !! a = None) →
       own dflt ∅ nl np T0 s c0 o h0 → shaped s21_map.kov uq T0 →
       0 ≤ c0 < size_max → (2 * (tsize T0 + length args) < fuel)%nat →
       sat (s21_map.insert_many alloc fuel args o h0)
         (λ res _ _, length res = length args)
         (rolled_back s21_map.kov dflt nl s T0 c0 uq h0)).
Proof.
  split_and!.
  - intros dflt alloc nl np s T0 c0 h0 uq fuel args o Hfresh Ho Hsh Hc Hf.
    eapply sat_mono;
      [exact (set_insert_many_sat dflt alloc Hfresh nl s T0 c0 h0 uq fuel args
                np o Ho Hsh Hc Hf)| |].
    + intros res o' h' [_ Hl]. exact Hl.
    + intros o' h' HB. by apply (batch_end _ _ _ _ _ _ _ _ _ _ _ Hsh Hc HB).
  - intros dflt alloc nl np s T0 c0 h0 uq fuel args o Hfresh Ho Hsh Hc Hf.
    eapply sat_mono;
      [exact (multiset_insert_many_sat dflt alloc Hfresh nl s T0 c0 h0 uq fuel
                args np o Ho Hsh Hc Hf)| |].
    + intros res o' h' [_ Hl]. exact Hl.
    + intros o' h' HB. by apply (batch_end _ _ _ _ _ _ _ _ _ _ _ Hsh Hc HB).
  - intros U dflt alloc nl np s T0 c0 h0 uq fuel args o Hfresh Ho Hsh Hc Hf.
    eapply sat_mono;
      [exact (map_insert_many_sat dflt alloc Hfresh nl s T0 c0 h0 uq fuel args
                np o Ho Hsh Hc Hf)| |].
    + intros res o' h' [_ Hl]. exact Hl.
    + intros o' h' HB. by apply (batch_end _ _ _ _ _ _ _ _ _ _ _ Hsh Hc HB).
Qed.

(** With room for two nodes, [insert_many(3, 2, 4, 5)] adds 3 and 4,
    fails on 5 and takes 3 and 4 out again. *)
Lemma C4_witness :
  ∃ o' h',
    s21_set.insert_many (pool [4%nat; 5%nat]) 20 [3; 2; 4; 5]
      (mkTree 0 2%nat 1%nat 2) (wheap set_world) = Throw o' h'
    ∧ rolled_back s21_set.kov 0 1%nat 0%nat
        (Nd Black Lf 2%nat 1 (Nd Red Lf 3%nat 2 Lf)) 2 true
        (wheap set_world) o' h'.
Proof.
  assert (Hr : reachable s21_set.kov 0 set_world).
  { apply after_reachable. vm_compute. eexists. reflexivity. }
  assert (Ht : wtrees set_world !! 0%nat = Some (mkTree 0 2%nat 1%nat 2, true)).
  { vm_compute. reflexivity. }
  destruct (reachable_own s21_set.kov 0 set_world 0 _ Hr Ht) as (Ho & Hsh & Hc).
  cbn [fst snd nil_ root node_count] in Ho, Hsh, Hc.
  change (shape_of (fuel_of (wheap set_world)) (wheap set_world) 1%nat 2%nat)
    with (Nd Black Lf 2%nat 1 (Nd Red Lf 3%nat 2 Lf)) in Ho, Hsh.
  destruct C4_insert_many_rolls_back as (Hset & _ & _).
  pose proof (Hset 0 (pool [4%nat; 5%nat]) _ _ _ _ _ _ _ 20%nat [3; 2; 4; 5] _
                (pool_fresh _) Ho Hsh Hc ltac:(simpl; lia)) as Hsat.
  assert (∃ o' h',
            s21_set.insert_many (pool [4%nat; 5%nat]) 20 [3; 2; 4; 5]
              (mkTree 0 2%nat 1%nat 2) (wheap set_world) = Throw o' h')
    as (o' & h' & E).
  { vm_compute. eexists _, _. reflexivity. }
  rewrite E in Hsat. exists o', h'. split; [exact E|exact Hsat].
Defined.

(** C5 fails.  Copying the set [{1, 2}] (object at address 0) into a new
    object when the allocator has room for one node only: the sentinel
    of the copy is created at address 4, the copy of the root cannot be
    created, and the exception leaves the constructor with the sentinel
    still allocated.  With room for two nodes the handler runs [clear]
    on a root whose links are still null, and the run faults. *)
Example C5_copy_failure_leaks :
  reachable s21_set.kov 0 set_world
  ∧ wtrees set_world !! 0%nat = Some (mkTree 0 2%nat 1%nat 2, true)
  ∧ wheap set_world !! 4%nat = None
  ∧ (∃ o' h',
       Rb_tree_copy 0 (pool [4%nat]) 20 (mkTree 0 2%nat 1%nat 2)
         (mkTree 1 0%nat 0%nat 0) (wheap set_world) = Throw o' h'
       ∧ h' !! 4%nat = Some (mkNode 0 Black 4%nat 4%nat 4%nat))
  ∧ Rb_tree_copy 0 (pool [4%nat; 5%nat]) 20 (mkTree 0 2%nat 1%nat 2)
      (mkTree 1 0%nat 0%nat 0) (wheap set_world) = Fault.
Proof.
  split_and!.
  - apply after_reachable. vm_compute. eexists. reflexivity.
  - vm_compute. reflexivity.
  - vm_compute. reflexivity.
  - eexists _, _. split; vm_compute; reflexivity.
  - vm_compute. reflexivity.
Qed.

(** The multisets [{5, 3, 8}], [{3, 3, 3}] and the empty one. *)
Definition bag_ops : list (op (V := Z)) :=
  [ New (Some 1%nat); Insert 0 5 false (Some 2%nat);
    Insert 0 3 false (Some 3%nat); Insert 0 8 false (Some 4%nat) ].
Definition triple_ops : list (op (V := Z)) :=
  [ New (Some 1%nat); Insert 0 3 false (Some 2%nat);
    Insert 0 3 false (Some 3%nat); Insert 0 3 false (Some 4%nat) ].

Definition bag_world : world (V := Z) := after s21_multiset.kov 0 bag_ops.
Definition triple_world : world (V := Z) := after s21_multiset.kov 0 triple_ops.
Definition empty_world : world (V := Z) :=
  after s21_multiset.kov 0 [New (Some 1%nat)].

(** C7 fails.  In the multiset [{3, 5, 8}], [lower_bound(4)] is [end()]
    although 5 is stored; in [{3, 3, 3}], [lower_bound(3)] is the root,
    the second node in iteration order, not the first. *)
Example C7_lower_bound_misses :
  (reachable s21_multiset.kov 0 bag_world
   ∧ wtrees bag_world !! 0%nat = Some (mkTree 0 2%nat 1%nat 3, false)
   ∧ iterate 20 (mkTree 0 2%nat 1%nat 3) (wheap bag_world)
     = Ok [3; 5; 8] (mkTree 0 2%nat 1%nat 3) (wheap bag_world)
   ∧ end_ (mkTree 0 2%nat 1%nat 3) (wheap bag_world)
     = Ok (mkIter 1%nat 0%nat) (mkTree 0 2%nat 1%nat 3) (wheap bag_world)
   ∧ s21_multiset.lower_bound 20 4 (mkTree 0 2%nat 1%nat 3) (wheap bag_world)
     = Ok (mkIter 1%nat 0%nat) (mkTree 0 2%nat 1%nat 3) (wheap bag_world))
  ∧ (reachable s21_multiset.kov 0 triple_world
     ∧ wtrees triple_world !! 0%nat = Some (mkTree 0 3%nat 1%nat 3, false)
     ∧ iterate 20 (mkTree 0 3%nat 1%nat 3) (wheap triple_world)
       = Ok [3; 3; 3] (mkTree 0 3%nat 1%nat 3) (wheap triple_world)
     ∧ begin_ 20 (mkTree 0 3%nat 1%nat 3) (wheap triple_world)
       = Ok (mkIter 2%nat 0%nat) (mkTree 0 3%nat 1%nat 3) (wheap triple_world)
     ∧ s21_multiset.lower_bound 20 3 (mkTree 0 3%nat 1%nat 3) (wheap triple_world)
       = Ok (mkIter 3%nat 0%nat) (mkTree 0 3%nat 1%nat 3) (wheap triple_world)).
Proof.
  split; split_and!; try (vm_compute; reflexivity);
    apply after_reachable; vm_compute; eexists; reflexivity.
Qed.

Lemma count_loop_empty fuel : ∀ c,
  s21_multiset.count_loop fuel 0 (mkIter 1%nat 0%nat) c
    (mkTree 0 1%nat 1%nat 0) (wheap empty_world) = OutOfFuel.
Proof.
  assert (Hr : reachable s21_multiset.kov 0 empty_world).
  { apply after_reachable. vm_compute. eexists. reflexivity. }
  assert (Ht : wtrees empty_world !! 0%nat = Some (mkTree 0 1%nat 1%nat 0, true)).
  { vm_compute. reflexivity. }
  destruct (reachable_own s21_multiset.kov 0 empty_world 0 _ Hr Ht) as (Ho & _ & _).
  cbn [fst snd nil_ root node_count] in Ho.
  change (shape_of (fuel_of (wheap empty_world)) (wheap empty_world) 1%nat 1%nat)
    with (@Lf Z) in Ho.
  induction fuel as [|fuel IH]; intros c; [done|].
  cbn [s21_multiset.count_loop]. unfold deref, bind at 1.
  assert (Hv : fld val 1%nat (mkTree 0 1%nat 1%nat 0) (wheap empty_world)
               = Ok 0 (mkTree 0 1%nat 1%nat 0) (wheap empty_world))
    by (vm_compute; reflexivity).
  cbn [current]. rewrite Hv. cbn [Z.eqb]. unfold bind.
  assert (Hlt : (tsize (@Lf Z) < S fuel)%nat) by (simpl; lia).
  rewrite (increment_end 0 (S fuel) _ _ _ _ _ _ _ _ 0%nat Hlt Ho).
  cbn [elems hd_ptr]. apply IH.
Qed.

(** C8 fails.  In the multiset [{3, 3, 3}], [count(3)] is 2; in
    [{3, 5, 8}], [count(0)] is 1; and in the empty multiset [count(0)]
    does not end: whatever the fuel, the loop is still running when it
    is used up. *)
Theorem C8_count_miscounts :
  (reachable s21_multiset.kov 0 triple_world
   ∧ wtrees triple_world !! 0%nat = Some (mkTree 0 3%nat 1%nat 3, false)
   ∧ iterate 20 (mkTree 0 3%nat 1%nat 3) (wheap triple_world)
     = Ok [3; 3; 3] (mkTree 0 3%nat 1%nat 3) (wheap triple_world)
   ∧ s21_multiset.count 20 3 (mkTree 0 3%nat 1%nat 3) (wheap triple_world)
     = Ok 2 (mkTree 0 3%nat 1%nat 3) (wheap triple_world))
  ∧ (reachable s21_multiset.kov 0 bag_world
     ∧ wtrees bag_world !! 0%nat = Some (mkTree 0 2%nat 1%nat 3, false)
     ∧ s21_multiset.count 20 0 (mkTree 0 2%nat 1%nat 3) (wheap bag_world)
       = Ok 1 (mkTree 0 2%nat 1%nat 3) (wheap bag_world))
  ∧ (reachable s21_multiset.kov 0 empty_world
     ∧ wtrees empty_world !! 0%nat = Some (mkTree 0 1%nat 1%nat 0, true)
     ∧ ∀ fuel, s21_multiset.count fuel 0 (mkTree 0 1%nat 1%nat 0)
                 (wheap empty_world) = OutOfFuel).
Proof.
  split; [|split]; (split; [|split]).
  1, 4, 7: apply after_reachable; vm_compute; eexists; reflexivity.
  1, 3, 4, 5: vm_compute; reflexivity.
  - split; vm_compute; reflexivity.
  - intros [|fuel]; [done|].
    unfold s21_multiset.count, s21_multiset.find.
    assert (Hs : search s21_multiset.kov (S fuel) 0 (mkTree 0 1%nat 1%nat 0)
                   (wheap empty_world)
                 = Ok 1%nat (mkTree 0 1%nat 1%nat 0) (wheap empty_world))
      by (vm_compute; reflexivity).
    unfold bind at 1. unfold bind at 1. rewrite Hs. cbn beta iota.
    unfold this, ret. apply count_loop_empty.
Qed.

(** ** Further properties of the engine *)

(** X1.  [Rb_tree()]: when the sentinel can be allocated, the new object
    owns an empty tree whose sentinel is a cell that was free, black and
    linked to itself, with count zero, and no live cell has changed;
    when it cannot, the constructor throws and the heap is as it was. *)
Theorem X1_default_constructor {V} (dflt : V) alloc addr o h :
  (∀ h a, alloc h = Some a → h !! a = None) →
  sat (Rb_tree_default dflt alloc addr o h)
    (λ _ o' h', ∃ a, h !! a = None
       ∧ own dflt ∅ a a Lf addr 0 o' h'
       ∧ keeps ∅ h h')
    (λ _ h', h' = h ∧ alloc h = None).
Proof.
  intros Hfresh. unfold Rb_tree_default. rewrite bind_update.
  eapply sat_bind_gen; [apply create_node_sat; exact Hfresh | | ].
  - intros a o' h' (-> & Ha & ->). cbn beta.
    rewrite bind_update. msteps. unfold sat.
    exists a. split; [done|]. split.
    + constructor; simpl; auto.
      * by rewrite lookup_insert_eq.
      * intros q n Hq. by rewrite lookup_empty in Hq.
    + intros q n _ Hq. rewrite !lookup_insert_ne; [done|..]; congruence.
  - intros o' h' (_ & -> & Halloc). done.
Qed.

Lemma X1_witness :
  sat (Rb_tree_default 0 (pool [7%nat]) 5 (mkTree 0%nat 0%nat 0%nat 0)
         (wheap demo_world))
    (λ _ o' h', ∃ a, wheap demo_world !! a = None
       ∧ own 0 ∅ a a Lf 5 0 o' h'
       ∧ keeps ∅ (wheap demo_world) h')
    (λ _ h', h' = wheap demo_world ∧ pool [7%nat] (wheap demo_world) = None).
Proof.
  apply (X1_default_constructor 0 (pool [7%nat]) 5%nat
           (mkTree 0%nat 0%nat 0%nat 0) (wheap demo_world)).
  intros h a. apply pool_fresh.
Defined.

(** X2.  [insert(key, value, unique_keys)] on a well-formed tree, called
    with the key of the value, as the containers call it.  If it returns
    [(node, true)], [node] is a cell that was free, the tree has gained
    exactly the entry [(node, value)] at a place that keeps it ordered,
    it is again red-black with a black root, the count went up by one,
    and no cell outside the tree has changed; this never happens for a
    key already present when unique keys are asked for.  If it returns
    [(node, false)], unique keys were asked for, [node] is a node of the
    tree with that key, and nothing has changed.  If it throws, the
    allocator failed and nothing has changed. *)
Theorem X2_insert_spec {V} (kov : V → Z) (dflt : V) alloc fuel uq
    nl np T s cnt o h key v u :
  (∀ h a, alloc h = Some a → h !! a = None) →
  own dflt ∅ nl np T s cnt o h → shaped kov uq T → (tsize T < fuel)%nat →
  key = kov v →
  sat (insert kov alloc fuel key v u o h)
    (λ res o' h',
      if res.2 then
        ¬ (u = true ∧ key ∈ keys kov (elems T))
        ∧ h !! res.1 = None
        ∧ ∃ T' l1 l2,
            own dflt ∅ nl np T' s (wrap (cnt + 1)) o' h'
            ∧ shaped kov (uq && u) T'
            ∧ elems T = l1 ++ l2 ∧ elems T' = l1 ++ (res.1, v) :: l2
            ∧ keeps (foot nl T) h h'
      else
        u = true ∧ (∃ w, (res.1, w) ∈ elems T ∧ kov w = key)
        ∧ o' = o ∧ h' = h)
    (λ o' h', o' = o ∧ h' = h ∧ alloc h = None).
Proof.
  intros Hfresh Ho Hsh Hf ->.
  eapply sat_mono;
    [exact (insert_keeps kov dflt alloc Hfresh fuel uq nl np T s cnt o h v u
              Hf Ho Hsh)| |].
  - intros [a b] o' h' H. cbn [fst snd] in *. destruct b; [|exact H].
    destruct H as (H1 & H2 & T' & l1 & l2 & H3 & H4 & H5 & H6 & _ & H8).
    split_and!; auto. by exists T', l1, l2.
  - intros o' h' (? & ? & ? & _). done.
Qed.

Lemma X2_witness :
  sat (insert s21_set.kov (pool [7%nat]) 20 4 4 true
         (mkTree 0 2%nat 1%nat 2) (wheap set_world))
    (λ res o' h',
       res = (7%nat, true) ∧ node_count o' = 3
       ∧ iterate 20 o' h' = Ok [1; 2; 4] o' h')
    (λ _ _, False).
Proof.
  assert (Hr : reachable s21_set.kov 0 set_world).
  { apply after_reachable. vm_compute. eexists. reflexivity. }
  assert (Ht : wtrees set_world !! 0%nat = Some (mkTree 0 2%nat 1%nat 2, true)).
  { vm_compute. reflexivity. }
  destruct (reachable_own s21_set.kov 0 set_world 0 _ Hr Ht) as (Ho & Hsh & _).
  cbn [fst snd nil_ root node_count] in Ho, Hsh.
  pose proof (X2_insert_spec s21_set.kov 0 (pool [7%nat]) 20 true _ _ _ _ _ _ _
                4 4 true (pool_fresh _) Ho Hsh ltac:(vm_compute; lia) eq_refl)
    as H.
  assert (∃ o' h',
            insert s21_set.kov (pool [7%nat]) 20 4 4 true
              (mkTree 0 2%nat 1%nat 2) (wheap set_world)
            = Ok (7%nat, true) o' h'
            ∧ node_count o' = 3 ∧ iterate 20 o' h' = Ok [1; 2; 4] o' h')
    as (o' & h' & E & Hc & Hi).
  { eexists _, _. split; [vm_compute; reflexivity|].
    split; vm_compute; reflexivity. }
  rewrite E. exact (conj eq_refl (conj Hc Hi)).
Defined.

(** X3.  [delete_node(z)] for a node [z] of a well-formed tree: the tree
    loses exactly the entry of [z], the other nodes keep their order,
    the tree is again red-black with a black root and ordered, the count
    went down by one, and no cell outside the tree has changed. *)
Theorem X3_delete_node_spec {V} (kov : V → Z) (dflt : V) fuel uq
    nl np T s cnt o h z :
  own dflt ∅ nl np T s cnt o h → shaped kov uq T → z ∈ ptrs T →
  (2 * tsize T < fuel)%nat →
  returns (delete_node fuel z o h) (λ _ o' h',
    ∃ T' np' l1 v l2,
      own dflt ∅ nl np' T' s (wrap (cnt - 1)) o' h' ∧ shaped kov uq T'
      ∧ elems T = l1 ++ (z, v) :: l2 ∧ elems T' = l1 ++ l2
      ∧ keeps (foot nl T) h h').
Proof.
  intros Ho Hsh Hz Hf.
  eapply returns_mono;
    [exact (delete_node_keeps kov dflt fuel uq nl np T s cnt o h z Hf Ho Hsh Hz)|].
  intros [] o' h' (T' & np' & l1 & v & l2 & Ho' & Hsh' & He & He' & Hp & Hk).
  exists T', np', l1, v, l2. split_and!; auto.
Qed.

Lemma X3_witness :
  returns
    (delete_node 20 5%nat (mkTree 0 5%nat 1%nat 5) (wheap demo_world))
    (λ _ o' h', node_count o' = 4 ∧ iterate 20 o' h' = Ok [3; 7; 8; 9] o' h').
Proof.
  assert (Hr : reachable s21_multiset.kov 0 demo_world).
  { apply after_reachable. vm_compute. eexists. reflexivity. }
  assert (Ht : wtrees demo_world !! 0%nat = Some (mkTree 0 5%nat 1%nat 5, false)).
  { vm_compute. reflexivity. }
  destruct (reachable_own s21_multiset.kov 0 demo_world 0 _ Hr Ht) as (Ho & Hsh & _).
  cbn [fst snd nil_ root node_count] in Ho, Hsh.
  assert (Hz : 5%nat ∈ ptrs (shape_of (fuel_of (wheap demo_world))
                               (wheap demo_world) 1%nat 5%nat)).
  { refine (bool_decide_unpack _ _). vm_compute. exact I. }
  assert (Hf : (2 * tsize (shape_of (fuel_of (wheap demo_world))
                             (wheap demo_world) 1%nat 5%nat) < 20)%nat)
    by (vm_compute; lia).
  pose proof (X3_delete_node_spec s21_multiset.kov 0 20 false _ _ _ _ _ _ _ _
                Ho Hsh Hz Hf) as H.
  assert (∃ o' h',
            delete_node 20 5%nat (mkTree 0 5%nat 1%nat 5) (wheap demo_world)
            = Ok tt o' h'
            ∧ node_count o' = 4 ∧ iterate 20 o' h' = Ok [3; 7; 8; 9] o' h')
    as (o' & h' & E & Hc & Hi).
  { eexists _, _. split; [vm_compute; reflexivity|].
    split; vm_compute; reflexivity. }
  rewrite E. exact (conj Hc Hi).
Defined.

(** X4.  [clear()]: every node of the tree is freed, the object owns the
    empty tree with its sentinel and count zero, and no cell outside
    the tree has changed. *)
Theorem X4_clear_spec {V} (dflt : V) fuel nl np T s cnt o h :
  own dflt ∅ nl np T s cnt o h → (2 * tsize T < fuel)%nat →
  returns (clear fuel o h) (λ _ o' h',
    own dflt ∅ nl np Lf s 0 o' h'
    ∧ (∀ q, q ∈ ptrs T → h' !! q = None)
    ∧ keeps (foot nl T) h h').
Proof.
  intros Ho Hf.
  eapply returns_mono; [exact (clear_keeps dflt fuel nl np T s cnt o h Hf Ho)|].
  intros [] o' h' (H1 & H2 & H3). done.
Qed.

Lemma X4_witness :
  returns (clear 20 (mkTree 0 5%nat 1%nat 5) (wheap demo_world))
    (λ _ o' h', o' = mkTree 0 1%nat 1%nat 0 ∧ h' !! 5%nat = None).
Proof.
  assert (Hr : reachable s21_multiset.kov 0 demo_world).
  { apply after_reachable. vm_compute. eexists. reflexivity. }
  assert (Ht : wtrees demo_world !! 0%nat = Some (mkTree 0 5%nat 1%nat 5, false)).
  { vm_compute. reflexivity. }
  destruct (reachable_own s21_multiset.kov 0 demo_world 0 _ Hr Ht) as (Ho & _ & _).
  cbn [fst snd nil_ root node_count] in Ho.
  eapply returns_mono.
  - apply (X4_clear_spec 0 20 _ _ _ _ _ _ _ Ho). vm_compute. lia.
  - intros [] o' h' (Ho' & Hfree & _). split.
    + exact (own_obj_eq _ _ _ _ _ _ _ _ _ Ho').
    + apply Hfree. refine (bool_decide_unpack _ _). vm_compute. exact I.
Defined.

(** X5.  [search(key)] on an ordered tree returns a node holding [key]
    when the tree has one, and the sentinel when it has none; it changes
    nothing. *)
Theorem X5_search_spec {V} (kov : V → Z) (dflt : V) fuel key
    nl np T s cnt o h :
  own dflt ∅ nl np T s cnt o h → ordered kov T → (tsize T < fuel)%nat →
  ∃ n, search kov fuel key o h = Ok n o h
       ∧ (key ∈ keys kov (elems T) → ∃ v, (n, v) ∈ elems T ∧ kov v = key)
       ∧ (key ∉ keys kov (elems T) → n = nl).
Proof.
  intros Ho Hord Hf. exists (rootp nl (sfind kov key T)).
  split; [by eapply search_own|]. split.
  - intros Hk. pose proof (sfind_present kov key T Hord Hk) as Hne.
    destruct (sfind_key kov key T) as [E|(c & l & a & v & r & E & Hv & Hin)];
      [done|].
    rewrite E. simpl. by exists v.
  - intros Hk. by rewrite (sfind_absent kov key T Hk).
Qed.

Lemma X5_witness :
  search s21_multiset.kov 20 8 (mkTree 0 5%nat 1%nat 5) (wheap demo_world)
  = Ok 6%nat (mkTree 0 5%nat 1%nat 5) (wheap demo_world)
  ∧ search s21_multiset.kov 20 4 (mkTree 0 5%nat 1%nat 5) (wheap demo_world)
    = Ok 1%nat (mkTree 0 5%nat 1%nat 5) (wheap demo_world).
Proof.
  assert (Hr : reachable s21_multiset.kov 0 demo_world).
  { apply after_reachable. vm_compute. eexists. reflexivity. }
  assert (Ht : wtrees demo_world !! 0%nat = Some (mkTree 0 5%nat 1%nat 5, false)).
  { vm_compute. reflexivity. }
  destruct (reachable_own s21_multiset.kov 0 demo_world 0 _ Hr Ht)
    as (Ho & (_ & _ & Hord & _) & _).
  cbn [fst snd nil_ root node_count] in Ho, Hord.
  assert (Hf : (tsize (shape_of (fuel_of (wheap demo_world)) (wheap demo_world)
                         1%nat 5%nat) < 20)%nat) by (vm_compute; lia).
  destruct (X5_search_spec s21_multiset.kov 0 20 4 _ _ _ _ _ _ _ Ho Hord Hf)
    as (n & E & _ & Habs).
  split; [vm_compute; reflexivity|].
  rewrite E. f_equal. apply Habs.
  refine (bool_decide_unpack _ _). vm_compute. exact I.
Defined.

(** X6.  [set::contains(key)] says whether the set has the key. *)
Theorem X6_set_contains (dflt : Z) fuel key nl np T s cnt o h :
  own dflt ∅ nl np T s cnt o h → ordered s21_set.kov T →
  (tsize T < fuel)%nat →
  s21_set.contains fuel key o h
  = Ok (bool_decide (key ∈ keys s21_set.kov (elems T))) o h.
Proof.
  intros Ho Hord Hf. unfold s21_set.contains, bind.
  rewrite (search_own s21_set.kov dflt fuel key _ _ _ _ _ _ _ _ Hf Ho).
  unfold this, ret. rewrite (own_obj_eq dflt _ _ _ _ _ _ _ _ Ho) at 1.
  cbn [nil_]. do 2 f_equal.
  destruct (decide (key ∈ keys s21_set.kov (elems T))) as [Hk|Hk].
  - rewrite (bool_decide_eq_true_2 _ Hk).
    pose proof (sfind_present s21_set.kov key T Hord Hk) as Hne.
    destruct (sfind_key s21_set.kov key T)
      as [E|(c & l & a & v & r & E & Hv & Hin)]; [done|].
    rewrite E. simpl. unfold ptr_neb. apply negb_true_iff, Nat.eqb_neq.
    intros ->. destruct Ho as [_ Hrep _ _ _ _].
    apply (rep_not_nil _ _ _ _ Hrep). by apply (elems_ptrs T (nl, v)).
  - rewrite (bool_decide_eq_false_2 _ Hk), (sfind_absent s21_set.kov key T Hk).
    simpl. unfold ptr_neb. by rewrite Nat.eqb_refl.
Qed.

Lemma X6_witness :
  s21_set.contains 20 2 (mkTree 0 2%nat 1%nat 2) (wheap set_world)
  = Ok true (mkTree 0 2%nat 1%nat 2) (wheap set_world)
  ∧ s21_set.contains 20 3 (mkTree 0 2%nat 1%nat 2) (wheap set_world)
    = Ok false (mkTree 0 2%nat 1%nat 2) (wheap set_world).
Proof.
  assert (Hr : reachable s21_set.kov 0 set_world).
  { apply after_reachable. vm_compute. eexists. reflexivity. }
  assert (Ht : wtrees set_world !! 0%nat = Some (mkTree 0 2%nat 1%nat 2, true)).
  { vm_compute. reflexivity. }
  destruct (reachable_own s21_set.kov 0 set_world 0 _ Hr Ht)
    as (Ho & (_ & _ & Hord & _) & _).
  cbn [fst snd nil_ root node_count] in Ho, Hord.
  assert (Hf : (tsize (shape_of (fuel_of (wheap set_world)) (wheap set_world)
                         1%nat 2%nat) < 20)%nat) by (vm_compute; lia).
  split.
  - rewrite (X6_set_contains 0 20 2 _ _ _ _ _ _ _ Ho Hord Hf).
    vm_compute. reflexivity.
  - rewrite (X6_set_contains 0 20 3 _ _ _ _ _ _ _ Ho Hord Hf).
    vm_compute. reflexivity.
Defined.

(** X7.  [operator++] at a node moves to the next node in iteration
    order, and to the sentinel ([end()]) from the last one; the full
    iteration yields the values of the nodes in that order. *)
Theorem X7_increment_successor {V} (dflt : V) fuel nl np T s cnt o h
    l1 a v l2 s' :
  own dflt ∅ nl np T s cnt o h → elems T = l1 ++ (a, v) :: l2 →
  (2 * tsize T < fuel)%nat →
  increment fuel (mkIter a s') o h = Ok (mkIter (hd_ptr nl l2) s') o h
  ∧ iterate fuel o h = Ok (elems T).*2 o h.
Proof.
  intros Ho He Hf. split; [|by eapply (iterate_own (λ _, 0) dflt)].
  assert (Ha : a ∈ ptrs T).
  { apply (elems_ptrs T (a, v)). rewrite He. apply elem_of_app. right. left. }
  destruct (locate T a Ha) as (cx & c & l & v' & r & ->).
  pose proof (own_NoDup dflt _ _ _ _ _ _ _ _ Ho) as Hnd.
  rewrite He in Hnd.
  rewrite elems_plug in He. cbn [elems] in He.
  rewrite <- app_assoc in He. rewrite app_assoc in He.
  cbn [app] in He.
  symmetry in He.
  destruct (split_unique (λ _ : V, 0) _ _ _ _ _ _ _ Hnd He) as (_ & _ & ->).
  eapply increment_node; [|exact Ho]. lia.
Qed.

Lemma X7_witness :
  increment 20 (mkIter 5%nat 0%nat) (mkTree 0 5%nat 1%nat 5) (wheap demo_world)
  = Ok (mkIter 7%nat 0%nat) (mkTree 0 5%nat 1%nat 5) (wheap demo_world)
  ∧ iterate 20 (mkTree 0 5%nat 1%nat 5) (wheap demo_world)
    = Ok [3; 3; 7; 8; 9] (mkTree 0 5%nat 1%nat 5) (wheap demo_world).
Proof.
  assert (Hr : reachable s21_multiset.kov 0 demo_world).
  { apply after_reachable. vm_compute. eexists. reflexivity. }
  assert (Ht : wtrees demo_world !! 0%nat = Some (mkTree 0 5%nat 1%nat 5, false)).
  { vm_compute. reflexivity. }
  destruct (reachable_own s21_multiset.kov 0 demo_world 0 _ Hr Ht) as (Ho & _ & _).
  cbn [fst snd nil_ root node_count] in Ho.
  destruct (X7_increment_successor 0 20 _ _ _ _ _ _ _
              [(4%nat, 3)] 5%nat 3 [(7%nat, 7); (6%nat, 8); (9%nat, 9)] 0%nat Ho)
    as [Hinc Hit].
  - vm_compute. reflexivity.
  - vm_compute. lia.
  - split; [exact Hinc|]. rewrite Hit. vm_compute. reflexivity.
Defined.

Lemma msplit_all {V} (kov : V → Z) KA (l : list (ptr * V)) :
  msplit kov false KA l = (l, [], 0%nat).
Proof.
  induction l as [|e l IH] using rev_ind; [done|].
  by rewrite msplit_snoc, IH.
Qed.

(** X8.  [merge(other, unique_keys = false)], the merge of multisets:
    every node of the source moves to the destination, which stays
    red-black and ordered and whose count grows by the number of nodes
    moved (modulo 2^64); the source is left empty with count zero. *)
Theorem X8_merge_moves_all {V} (kov : V → Z) (dflt : V) fuel uqA
    nlA npA TA sA cA A nlB npB TB sB cB B h :
  own dflt ∅ nlA npA TA sA cA A h → own dflt ∅ nlB npB TB sB cB B h →
  foot nlA TA ## foot nlB TB → shaped kov uqA TA →
  0 ≤ cA < size_max →
  (2 * (tsize TA + tsize TB) < fuel)%nat →
  returns (merge kov fuel false (A, B) h) (λ _ x' h',
    ∃ TA',
      own dflt ∅ nlA npA TA' sA (wrap (cA + Z.of_nat (tsize TB))) x'.1 h'
      ∧ own dflt ∅ nlB nlB Lf sB 0 x'.2 h'
      ∧ shaped kov false TA'
      ∧ elems TA' ≡ₚ elems TA ++ elems TB).
Proof.
  intros HoA HoB Hd HshA HcA Hfuel.
  eapply returns_mono;
    [exact (merge_own kov dflt fuel false uqA _ _ _ _ _ _ _ _ _ _ _ _ _
              HoA HoB Hd HshA Hfuel)|].
  intros [] x' h' (TA' & TB' & HoA' & HoB' & [HshA' HshB'] & [HeA HeB] & _).
  rewrite msplit_all in HoA', HoB', HeA, HeB. cbn [fst snd] in *.
  assert (TB' = Lf) as ->.
  { apply Permutation_nil_r in HeB. destruct TB'; [done|].
    by apply elems_nd_ne in HeB. }
  rewrite (bumped_wrap _ _ HcA) in HoA'.
  rewrite (Permutation_length (post_elems TB)), <- tsize_elems in HoA'.
  rewrite (post_elems TB) in HeA.
  exists TA'. split_and!; auto.
  eapply shaped_mono; [|exact HshA']. done.
Qed.

Lemma X8_witness :
  returns
    (merge s21_set.kov (fuel_of (wheap merge_world)) false
       (mkTree 0 3%nat 1%nat 2, mkTree 1 5%nat 2%nat 2) (wheap merge_world))
    (λ _ x' h', node_count x'.1 = 4 ∧ x'.2 = mkTree 1 2%nat 2%nat 0).
Proof.
  assert (Hr : reachable s21_set.kov 0 merge_world).
  { apply after_reachable. vm_compute. eexists. reflexivity. }
  assert (HtA : wtrees merge_world !! 0%nat = Some (mkTree 0 3%nat 1%nat 2, true)).
  { vm_compute. reflexivity. }
  assert (HtB : wtrees merge_world !! 1%nat = Some (mkTree 1 5%nat 2%nat 2, true)).
  { vm_compute. reflexivity. }
  destruct (reachable_own s21_set.kov 0 merge_world 0 _ Hr HtA) as (HoA & HshA & HcA).
  destruct (reachable_own s21_set.kov 0 merge_world 1 _ Hr HtB) as (HoB & _ & _).
  cbn [fst snd nil_ root node_count] in HoA, HoB, HshA, HcA.
  eapply returns_mono.
  - apply (X8_merge_moves_all s21_set.kov 0 (fuel_of (wheap merge_world)) true
             _ _ _ _ _ _ _ _ _ _ _ _ _ HoA HoB); [|exact HshA|exact HcA|].
    + refine (bool_decide_unpack _ _). vm_compute. exact I.
    + vm_compute. lia.
  - intros [] x' h' (TA' & HoA' & HoB' & _).
    rewrite (own_obj_eq _ _ _ _ _ _ _ _ _ HoA'), (own_obj_eq _ _ _ _ _ _ _ _ _ HoB').
    split; vm_compute; reflexivity.
Defined.

(** A set holding 3 and a multiset holding 3 twice. *)
Definition drop_ops : list (op (V := Z)) :=
  [ New (Some 1%nat); New (Some 2%nat); Insert 0 3 true (Some 3%nat);
    Insert 1 3 false (Some 4%nat); Insert 1 3 false (Some 5%nat) ].

Definition drop_world : world (V := Z) :=
  after s21_set.kov 0 (drop_ops ++ [Merge 0%nat 1%nat true]).

(** X9.  [merge(other, unique_keys = true)] from a source with a key
    twice, the destination holding that key: one of the two nodes goes
    back to the source, the other is refused by both trees and is left
    in the heap outside them, while the count of the source is raised
    for both: the source then holds one element and reports two. *)
Example X9_merge_drops_duplicate :
  reachable s21_set.kov 0 drop_world
  ∧ wtrees drop_world
    = [(mkTree 0 3%nat 1%nat 1, true); (mkTree 1 5%nat 2%nat 2, false)]
  ∧ iterate 20 (mkTree 0 3%nat 1%nat 1) (wheap drop_world)
    = Ok [3] (mkTree 0 3%nat 1%nat 1) (wheap drop_world)
  ∧ iterate 20 (mkTree 1 5%nat 2%nat 2) (wheap drop_world)
    = Ok [3] (mkTree 1 5%nat 2%nat 2) (wheap drop_world)
  ∧ size_ (mkTree 1 5%nat 2%nat 2) (wheap drop_world)
    = Ok 2 (mkTree 1 5%nat 2%nat 2) (wheap drop_world)
  ∧ wheap drop_world !! 4%nat = Some (mkNode 3 Red 2%nat 2%nat 2%nat).
Proof.
  split_and!; try (vm_compute; reflexivity).
  apply after_reachable. vm_compute. eexists. reflexivity.
Qed.
